(** * InfoTip: a shallow embedding of script.js

    The browser client of InfoTip (script.js) keeps a list of chat sessions,
    mirrors it to localStorage, streams completions from the upstream API,
    and redacts e-mail addresses, phone numbers, IPv4 addresses and secrets
    from the input box.  This file embeds the session store, the title
    derivation, the credential resolution, the stream consumer of
    [handleSend], the copy action and the redactor, and states the
    properties of the specification over that embedding.

    JavaScript strings are sequences of UTF-16 code units; they are
    modelled as lists of [N].  Mutable objects reached through references
    (the session objects held by the [sessions] array and by the local
    [session] of [handleSend]) live in a heap indexed by allocation order. *)

From Stdlib Require Import List NArith ZArith Bool Ascii String Lia Arith.
From Stdlib Require Import Permutation DecimalString.
Import ListNotations.

Set Implicit Arguments.
Set Warnings "-register-all,-abstract-large-number".

(* ===================================================================== *)
(** ** JavaScript strings *)
(* ===================================================================== *)

Module JS.

(** A UTF-16 code unit. *)
Definition jschar := N.

(** A JavaScript string value. *)
Definition jsstring := list jschar.

(** A source literal made of ASCII characters. *)
Definition lit (s : string) : jsstring :=
  map N_of_ascii (list_ascii_of_string s).

(** A source literal in which every apostrophe stands for a double quote
    (used to write JSON texts). *)
Definition qlit (s : string) : jsstring :=
  map (fun c => if N.eqb c 39 then 34%N else c) (lit s).

(** [a === b] on strings. *)
Fixpoint str_eqb (a b : jsstring) : bool :=
  match a, b with
  | [], [] => true
  | x :: a', y :: b' => N.eqb x y && str_eqb a' b'
  | _, _ => false
  end.

(** [s.startsWith(p)]. *)
Fixpoint startsWith (p s : jsstring) : bool :=
  match p, s with
  | [], _ => true
  | x :: p', y :: s' => N.eqb x y && startsWith p' s'
  | _ :: _, [] => false
  end.

(** [s.slice(n)] for a non-negative [n]. *)
Definition slice (n : nat) (s : jsstring) : jsstring := skipn n s.

(** [s.substring(0, n)]. *)
Definition substring0 (n : nat) (s : jsstring) : jsstring := firstn n s.

(** [s.split(sep)] for a one-unit separator: the pieces between the
    separators, empty pieces included. *)
Fixpoint split (sep : jschar) (s : jsstring) : list jsstring :=
  match s with
  | [] => [[]]
  | c :: s' =>
      if N.eqb c sep then [] :: split sep s'
      else match split sep s' with
           | [] => [[c]]
           | l :: ls => (c :: l) :: ls
           end
  end.

(** WhiteSpace and LineTerminator code units of ECMAScript: what [trim]
    strips and what [\s] matches. *)
Definition is_space (c : jschar) : bool :=
  ((9 <=? c) && (c <=? 13) || (c =? 32) || (c =? 160) || (c =? 5760)
   || (8192 <=? c) && (c <=? 8202) || (c =? 8232) || (c =? 8233)
   || (c =? 8239) || (c =? 8287) || (c =? 12288) || (c =? 65279))%N.

Fixpoint trimStart (s : jsstring) : jsstring :=
  match s with
  | c :: s' => if is_space c then trimStart s' else s
  | [] => []
  end.

(** [s.trim()]. *)
Definition trim (s : jsstring) : jsstring :=
  rev (trimStart (rev (trimStart s))).

(** A string is falsy exactly when it is empty. *)
Definition nonempty (s : jsstring) : bool :=
  match s with [] => false | _ :: _ => true end.

(** [n.toString()] for a non-negative integer. *)
Definition Number_toString (n : N) : jsstring :=
  lit (NilZero.string_of_uint (N.to_uint n)).

Definition is_digit (c : jschar) : bool := ((48 <=? c) && (c <=? 57))%N.
Definition is_upper (c : jschar) : bool := ((65 <=? c) && (c <=? 90))%N.
Definition is_lower (c : jschar) : bool := ((97 <=? c) && (c <=? 122))%N.
Definition is_alpha (c : jschar) : bool := is_upper c || is_lower c.
Definition is_alnum (c : jschar) : bool := is_alpha c || is_digit c.

(** Membership of a code unit in the characters of a literal. *)
Definition one_of (s : string) (c : jschar) : bool :=
  existsb (N.eqb c) (lit s).

#[global] Arguments lit : simpl never.
#[global] Arguments qlit : simpl never.
#[global] Arguments slice : simpl never.
#[global] Arguments substring0 : simpl never.
#[global] Arguments trim : simpl never.

End JS.
Import JS.

(* ===================================================================== *)
(** ** encodeURIComponent, decodeURIComponent and the copy handler *)
(* ===================================================================== *)

Module Uri.

(** Characters [encodeURIComponent] leaves as they are: letters, digits
    and the marks [- _ . ! ~ * ' ( )]. *)
Definition unreserved (c : jschar) : bool :=
  is_alnum c || one_of "-_.!~*'()" c.

Definition hex_digit (n : N) : jschar :=
  if (n <? 10)%N then (48 + n)%N else (55 + n)%N.

(** ["%XX"] for one octet. *)
Definition percent (b : N) : jsstring :=
  [37%N; hex_digit (b / 16); hex_digit (b mod 16)].

(** The UTF-8 octets of a code point. *)
Definition utf8 (cp : N) : list N :=
  if (cp <? 128)%N then [cp]
  else if (cp <? 2048)%N then [192 + cp / 64; 128 + cp mod 64]%N
  else if (cp <? 65536)%N then
    [224 + cp / 4096; 128 + (cp / 64) mod 64; 128 + cp mod 64]%N
  else
    [240 + cp / 262144; 128 + (cp / 4096) mod 64;
     128 + (cp / 64) mod 64; 128 + cp mod 64]%N.

Definition is_lead (c : jschar) : bool := ((55296 <=? c) && (c <=? 56319))%N.
Definition is_trail (c : jschar) : bool := ((56320 <=? c) && (c <=? 57343))%N.

(** [encodeURIComponent(s)]; [None] is the URIError raised on an unpaired
    surrogate. *)
Fixpoint encodeURIComponent (s : jsstring) : option jsstring :=
  match s with
  | [] => Some []
  | c :: s' =>
      if unreserved c then option_map (cons c) (encodeURIComponent s')
      else if is_trail c then None
      else if is_lead c then
        match s' with
        | d :: s'' =>
            if is_trail d then
              option_map
                (app (flat_map percent
                        (utf8 ((c - 55296) * 1024 + (d - 56320) + 65536)%N)))
                (encodeURIComponent s'')
            else None
        | [] => None
        end
      else option_map (app (flat_map percent (utf8 c))) (encodeURIComponent s')
  end.

Definition hex_value (c : jschar) : option N :=
  if is_digit c then Some (c - 48)%N
  else if ((65 <=? c) && (c <=? 70))%N then Some (c - 55)%N
  else if ((97 <=? c) && (c <=? 102))%N then Some (c - 87)%N
  else None.

(** One escape ["%XX"] at the head of [s]: its octet and the rest. *)
Definition take_percent (s : jsstring) : option (N * jsstring) :=
  match s with
  | p :: h :: l :: rest =>
      if (p =? 37)%N then
        match hex_value h, hex_value l with
        | Some a, Some b => Some ((a * 16 + b)%N, rest)
        | _, _ => None
        end
      else None
  | _ => None
  end.

(** [n] continuation octets ["%XX"] (each of the form 10xxxxxx),
    accumulated into the code point under construction. *)
Fixpoint take_continuations (n : nat) (cp : N) (s : jsstring)
  : option (N * jsstring) :=
  match n with
  | O => Some (cp, s)
  | S n' =>
      match take_percent s with
      | Some (b, rest) =>
          if ((128 <=? b) && (b <? 192))%N
          then take_continuations n' (cp * 64 + (b - 128))%N rest
          else None
      | None => None
      end
  end.

(** The UTF-16 code units of a code point. *)
Definition utf16 (cp : N) : jsstring :=
  if (cp <? 65536)%N then [cp]
  else [55296 + (cp - 65536) / 1024; 56320 + (cp - 65536) mod 1024]%N.

(** [decodeURIComponent] with the recursion bounded by [fuel]; every step
    consumes at least one code unit. *)
Fixpoint decode (fuel : nat) (s : jsstring) : option jsstring :=
  match fuel with
  | O => match s with [] => Some [] | _ => None end
  | S fuel' =>
      match s with
      | [] => Some []
      | c :: s' =>
          if negb (c =? 37)%N then option_map (cons c) (decode fuel' s')
          else
            match take_percent s with
            | None => None
            | Some (b, rest) =>
                if (b <? 128)%N then option_map (cons b) (decode fuel' rest)
                else if (b <? 192)%N then None
                else
                  let '(n, lo, v) :=
                    if (b <? 224)%N then (1%nat, 128%N, (b - 192)%N)
                    else if (b <? 240)%N then (2%nat, 2048%N, (b - 224)%N)
                    else (3%nat, 65536%N, (b - 240)%N) in
                  if (248 <=? b)%N then None
                  else
                    match take_continuations n v rest with
                    | None => None
                    | Some (cp, rest') =>
                        if ((lo <=? cp) && (cp <=? 1114111)
                            && negb ((55296 <=? cp) && (cp <=? 57343)))%N
                        then option_map (app (utf16 cp)) (decode fuel' rest')
                        else None
                    end
            end
      end
  end.

(** [decodeURIComponent(s)]; [None] is the URIError. *)
Definition decodeURIComponent (s : jsstring) : option jsstring :=
  decode (List.length s) s.

(** The text of the inline handler attached to the copy button:
    [`copyText('${encodedContent}')`]. *)
Definition copy_handler (encoded : jsstring) : jsstring :=
  lit "copyText('" ++ encoded ++ lit "')".

(** The characters of a single-quoted literal up to its closing quote, and
    what follows the quote.  A backslash or a line terminator is outside
    the plain literals read here. *)
Fixpoint quoted_body (s : jsstring) : option (jsstring * jsstring) :=
  match s with
  | [] => None
  | c :: s' =>
      if (c =? 39)%N then Some ([], s')
      else if (c =? 92)%N || (c =? 10)%N || (c =? 13)%N then None
      else match quoted_body s' with
           | Some (body, rest) => Some (c :: body, rest)
           | None => None
           end
  end.

(** The argument [copyText] receives when the handler text is run, provided
    the text is exactly one call of [copyText] on one plain string literal;
    [None] otherwise (the text does not parse as that call, so the literal
    is not copied: either it does not parse at all, and nothing runs, or it
    is other JavaScript, which the page runs as such; see [unparsable] and
    [handler_followed]). *)
Definition handler_argument (handler : jsstring) : option jsstring :=
  if startsWith (lit "copyText('") handler then
    match quoted_body (slice 10 handler) with
    | Some (body, rest) => if str_eqb rest (lit ")") then Some body else None
    | None => None
    end
  else None.

(** [window.copyText]: what reaches [navigator.clipboard.writeText]. *)
Definition copyText (text : jsstring) : option jsstring :=
  decodeURIComponent text.

(** Clicking a copy button whose [onclick] attribute is [handler]: what
    the click copies when the handler is one call on one plain literal.
    [None] is also the answer for the other handlers: right for a text
    that does not parse, since nothing runs then; no account of what the
    page does for a text that is other JavaScript. *)
Definition click_copy (handler : jsstring) : option jsstring :=
  match handler_argument handler with
  | Some arg => copyText arg
  | None => None
  end.



End Uri.

(* ===================================================================== *)
(** ** JSON.parse *)
(* ===================================================================== *)

(** [JSON.parse] is the host's.  It is modelled as a reader of the JSON
    grammar (ECMA-404, as ECMA-262 applies it) that consumes the text one
    code unit at a time over an explicit stack of open containers, and
    fails ([None], the SyntaxError) on the first code unit that does not
    fit.  Numbers are kept as their lexemes. *)

Module Json.

Inductive value :=
| JNull
| JBool (b : bool)
| JNum (lexeme : jsstring)
| JStr (s : jsstring)
| JArr (items : list value)
| JObj (members : list (jsstring * value)).

(** An open container. *)
Inductive frame :=
| FArr (items_rev : list value)
| FObj (members_rev : list (jsstring * value))
| FObjKey (members_rev : list (jsstring * value)) (key : jsstring).

(** Where the reader stands inside a string. *)
Inductive esc :=
| Plain
| Esc
| Hex (have : nat) (acc : N).

(** Where the reader stands inside a number. *)
Inductive numst := NMinus | NZero | NInt | NDot | NFrac | NE | NESign | NExp.

Inductive mode :=
| MValue (close_ok : bool)
| MKey (close_ok : bool)
| MColon
| MAfter
| MDone (v : value)
| MStr (is_key : bool) (acc_rev : jsstring) (e : esc)
| MNum (lex_rev : jsstring) (n : numst)
| MLit (rest : jsstring) (v : value).

Record state := { stack : list frame; mode_of : mode }.

Definition is_ws (c : jschar) : bool :=
  ((c =? 32) || (c =? 9) || (c =? 10) || (c =? 13))%N.

(** A value is complete: it goes to the innermost open container, or it is
    the document. *)
Definition complete (v : value) (st : list frame) : option state :=
  match st with
  | [] => Some {| stack := []; mode_of := MDone v |}
  | FArr items :: st' =>
      Some {| stack := FArr (v :: items) :: st'; mode_of := MAfter |}
  | FObjKey ms k :: st' =>
      Some {| stack := FObj ((k, v) :: ms) :: st'; mode_of := MAfter |}
  | FObj _ :: _ => None
  end.

(** After a value: a comma or the container's closing bracket; after the
    document: white space only. *)
Definition step_after (st : list frame) (m : mode) (c : jschar)
  : option state :=
  match m with
  | MDone v =>
      if is_ws c then Some {| stack := st; mode_of := MDone v |} else None
  | MAfter =>
      if is_ws c then Some {| stack := st; mode_of := MAfter |}
      else if (c =? 44)%N then
        match st with
        | FArr _ :: _ => Some {| stack := st; mode_of := MValue false |}
        | FObj _ :: _ => Some {| stack := st; mode_of := MKey false |}
        | _ => None
        end
      else if (c =? 93)%N then
        match st with
        | FArr items :: st' => complete (JArr (rev items)) st'
        | _ => None
        end
      else if (c =? 125)%N then
        match st with
        | FObj ms :: st' => complete (JObj (rev ms)) st'
        | _ => None
        end
      else None
  | _ => None
  end.

(** The number may stop after these. *)
Definition num_final (n : numst) : bool :=
  match n with
  | NZero | NInt | NFrac | NExp => true
  | _ => false
  end.

(** The next state of a number on one more code unit, when the code unit
    continues the number. *)
Definition num_next (n : numst) (c : jschar) : option numst :=
  let e := ((c =? 101) || (c =? 69))%N in
  match n with
  | NMinus =>
      if (c =? 48)%N then Some NZero
      else if is_digit c then Some NInt else None
  | NZero => if (c =? 46)%N then Some NDot else if e then Some NE else None
  | NInt =>
      if is_digit c then Some NInt
      else if (c =? 46)%N then Some NDot
      else if e then Some NE else None
  | NDot => if is_digit c then Some NFrac else None
  | NFrac => if is_digit c then Some NFrac else if e then Some NE else None
  | NE =>
      if ((c =? 43) || (c =? 45))%N then Some NESign
      else if is_digit c then Some NExp else None
  | NESign => if is_digit c then Some NExp else None
  | NExp => if is_digit c then Some NExp else None
  end.

(** The code unit an escape stands for. *)
Definition escape_of (c : jschar) : option jschar :=
  if ((c =? 34) || (c =? 92) || (c =? 47))%N then Some c
  else if (c =? 98)%N then Some 8%N
  else if (c =? 102)%N then Some 12%N
  else if (c =? 110)%N then Some 10%N
  else if (c =? 114)%N then Some 13%N
  else if (c =? 116)%N then Some 9%N
  else None.

(** One code unit. *)
Definition step (s : state) (c : jschar) : option state :=
  let st := stack s in
  match mode_of s with
  | MValue close_ok =>
      if is_ws c then Some s
      else if (c =? 34)%N then
        Some {| stack := st; mode_of := MStr false [] Plain |}
      else if (c =? 123)%N then
        Some {| stack := FObj [] :: st; mode_of := MKey true |}
      else if (c =? 91)%N then
        Some {| stack := FArr [] :: st; mode_of := MValue true |}
      else if (c =? 93)%N then
        match close_ok, st with
        | true, FArr [] :: st' => complete (JArr []) st'
        | _, _ => None
        end
      else if (c =? 45)%N then
        Some {| stack := st; mode_of := MNum [c] NMinus |}
      else if (c =? 48)%N then
        Some {| stack := st; mode_of := MNum [c] NZero |}
      else if is_digit c then
        Some {| stack := st; mode_of := MNum [c] NInt |}
      else if (c =? 116)%N then
        Some {| stack := st; mode_of := MLit (lit "rue") (JBool true) |}
      else if (c =? 102)%N then
        Some {| stack := st; mode_of := MLit (lit "alse") (JBool false) |}
      else if (c =? 110)%N then
        Some {| stack := st; mode_of := MLit (lit "ull") JNull |}
      else None
  | MKey close_ok =>
      if is_ws c then Some s
      else if (c =? 34)%N then
        Some {| stack := st; mode_of := MStr true [] Plain |}
      else if (c =? 125)%N then
        match close_ok, st with
        | true, FObj [] :: st' => complete (JObj []) st'
        | _, _ => None
        end
      else None
  | MColon =>
      if is_ws c then Some s
      else if (c =? 58)%N then
        Some {| stack := st; mode_of := MValue false |}
      else None
  | MAfter => step_after st MAfter c
  | MDone v => step_after st (MDone v) c
  | MStr is_key acc Plain =>
      if (c =? 34)%N then
        if is_key then
          match st with
          | FObj ms :: st' =>
              Some {| stack := FObjKey ms (rev acc) :: st'; mode_of := MColon |}
          | _ => None
          end
        else complete (JStr (rev acc)) st
      else if (c =? 92)%N then
        Some {| stack := st; mode_of := MStr is_key acc Esc |}
      else if (c <? 32)%N then None
      else Some {| stack := st; mode_of := MStr is_key (c :: acc) Plain |}
  | MStr is_key acc Esc =>
      if (c =? 117)%N then
        Some {| stack := st; mode_of := MStr is_key acc (Hex 0 0) |}
      else
        match escape_of c with
        | Some u => Some {| stack := st; mode_of := MStr is_key (u :: acc) Plain |}
        | None => None
        end
  | MStr is_key acc (Hex have a) =>
      match Uri.hex_value c with
      | Some d =>
          if Nat.eqb have 3 then
            Some {| stack := st;
                    mode_of := MStr is_key ((a * 16 + d)%N :: acc) Plain |}
          else
            Some {| stack := st;
                    mode_of := MStr is_key acc (Hex (S have) (a * 16 + d)) |}
      | None => None
      end
  | MNum lex n =>
      match num_next n c with
      | Some n' => Some {| stack := st; mode_of := MNum (c :: lex) n' |}
      | None =>
          if num_final n then
            match complete (JNum (rev lex)) st with
            | Some s' => step_after (stack s') (mode_of s') c
            | None => None
            end
          else None
      end
  | MLit rest v =>
      match rest with
      | x :: rest' =>
          if (c =? x)%N then
            match rest' with
            | [] => complete v st
            | _ :: _ => Some {| stack := st; mode_of := MLit rest' v |}
            end
          else None
      | [] => None
      end
  end.

(** The whole text, from a state. *)
Fixpoint run (s : state) (text : jsstring) : option state :=
  match text with
  | [] => Some s
  | c :: text' =>
      match step s c with
      | Some s' => run s' text'
      | None => None
      end
  end.

(** At the end of the text: the document, if it is complete. *)
Definition finish (s : state) : option value :=
  match mode_of s, stack s with
  | MDone v, [] => Some v
  | MNum lex n, [] => if num_final n then Some (JNum (rev lex)) else None
  | _, _ => None
  end.

Definition initial : state := {| stack := []; mode_of := MValue false |}.

(** [JSON.parse(text)]; [None] is the SyntaxError. *)
Definition parse (text : jsstring) : option value :=
  match run initial text with
  | Some s => finish s
  | None => None
  end.

(** Own property [k] of a parsed object: a later duplicate replaces an
    earlier one. *)
Fixpoint lookup (k : jsstring) (ms : list (jsstring * value)) : option value :=
  match ms with
  | [] => None
  | (k', v) :: ms' =>
      match lookup k ms' with
      | Some v' => Some v'
      | None => if str_eqb k k' then Some v else None
      end
  end.

End Json.

(* ===================================================================== *)
(** ** The stream consumer of handleSend *)
(* ===================================================================== *)

Module Stream.
Import Json.

(** The two things the consumer asks of a number that stands where the
    delta text is expected: whether it is truthy (not zero), and its text
    when appended to a string.  Both belong to the host's floating point
    arithmetic and are taken as given, on the number's lexeme. *)
Class NumberOps := {
  number_truthy : jsstring -> bool;
  number_text : jsstring -> jsstring
}.

(** A value read from parsed data: the data's own values, or [undefined]. *)
Inductive jsval :=
| Undefined
| Val (v : value).

Section Consumer.
Context {ops : NumberOps}.

(** ToBoolean. *)
Definition truthy (x : jsval) : bool :=
  match x with
  | Undefined => false
  | Val JNull => false
  | Val (JBool b) => b
  | Val (JNum l) => number_truthy l
  | Val (JStr s) => nonempty s
  | Val (JArr _) => true
  | Val (JObj _) => true
  end.

(** [x[name]] for the names the consumer reads ([choices], [0], [delta],
    [content]; none of them is inherited from a prototype).  [None] is the
    TypeError raised on [undefined] and [null]. *)
Definition get (name : jsstring) (x : jsval) : option jsval :=
  match x with
  | Undefined => None
  | Val JNull => None
  | Val (JBool _) => Some Undefined
  | Val (JNum _) => Some Undefined
  | Val (JStr s) =>
      if str_eqb name (lit "0") then
        match s with
        | c :: _ => Some (Val (JStr [c]))
        | [] => Some Undefined
        end
      else Some Undefined
  | Val (JArr items) =>
      if str_eqb name (lit "0") then
        match items with
        | v :: _ => Some (Val v)
        | [] => Some Undefined
        end
      else Some Undefined
  | Val (JObj ms) =>
      match lookup name ms with
      | Some v => Some (Val v)
      | None => Some Undefined
      end
  end.

(** The text [botResponse += v] appends: ToString of [v].  An array is its
    elements joined by commas ([null] elements as the empty text); an
    object is ["[object Object]"] unless it has an own [toString] property,
    which parsed data cannot make callable: then the conversion raises a
    TypeError ([None]). *)
Fixpoint to_text (v : value) : option jsstring :=
  match v with
  | JNull => Some (lit "null")
  | JBool true => Some (lit "true")
  | JBool false => Some (lit "false")
  | JNum l => Some (number_text l)
  | JStr s => Some s
  | JArr items =>
      (fix join (l : list value) : option jsstring :=
         match l with
         | [] => Some []
         | x :: l' =>
             let head := match x with JNull => Some [] | _ => to_text x end in
             match l' with
             | [] => head
             | _ :: _ =>
                 match head, join l' with
                 | Some a, Some b => Some (a ++ 44%N :: b)
                 | _, _ => None
                 end
             end
         end) items
  | JObj ms =>
      match lookup (lit "toString") ms with
      | Some _ => None
      | None => Some (lit "[object Object]")
      end
  end.

(** What one parsed record does to the response. *)
Inductive outcome :=
| Skip
| Throw
| Append (fragment : jsstring).

(** [if (data.choices && data.choices[0].delta &&
         data.choices[0].delta.content)
       botResponse += data.choices[0].delta.content] *)
Definition delta_step (data : value) : outcome :=
  match get (lit "choices") (Val data) with
  | None => Throw
  | Some choices =>
      if negb (truthy choices) then Skip
      else
        match get (lit "0") choices with
        | None => Throw
        | Some first =>
            match get (lit "delta") first with
            | None => Throw
            | Some delta =>
                if negb (truthy delta) then Skip
                else
                  match get (lit "content") delta with
                  | None => Throw
                  | Some content =>
                      if negb (truthy content) then Skip
                      else
                        match content with
                        | Undefined => Skip
                        | Val v =>
                            match to_text v with
                            | Some f => Append f
                            | None => Throw
                            end
                        end
                  end
            end
        end
  end.

(** The consumer's variables: [botResponse], the successive texts handed
    to the renderer ([marked.parse(botResponse)], oldest first), and the
    number of [console.error] calls of the [catch]. *)
Record consumer := {
  botResponse : jsstring;
  renders : list jsstring;
  logged : nat
}.

Definition start : consumer :=
  {| botResponse := []; renders := []; logged := 0 |}.

Definition log_error (st : consumer) : consumer :=
  {| botResponse := botResponse st; renders := renders st;
     logged := S (logged st) |}.

Definition append (f : jsstring) (st : consumer) : consumer :=
  {| botResponse := botResponse st ++ f;
     renders := renders st ++ [botResponse st ++ f];
     logged := logged st |}.

(** The body of [for (const line of lines)]. *)
Definition handle_line (st : consumer) (line : jsstring) : consumer :=
  if startsWith (lit "data: ") line
     && negb (str_eqb line (lit "data: [DONE]"))
  then
    match parse (slice 6 line) with
    | None => log_error st
    | Some data =>
        match delta_step data with
        | Skip => st
        | Throw => log_error st
        | Append f => append f st
        end
    end
  else st.

(** One decoded transport chunk: [chunk.split('\n')] and the loop over the
    lines. *)
Definition handle_chunk (st : consumer) (chunk : jsstring) : consumer :=
  fold_left handle_line (split 10%N chunk) st.

(** The [while (true)] loop over the chunks the reader delivers before it
    reports [done]. *)
Definition consume (st : consumer) (chunks : list jsstring) : consumer :=
  fold_left handle_chunk chunks st.

End Consumer.

(** Number operations that are exact on the lexemes of small non-negative
    integers written without sign, fraction or exponent: the lexeme is its
    own text and is zero when all its digits are.  They close the examples,
    none of which reads a number as delta text. *)
Definition lexeme_ops : NumberOps := {|
  number_truthy := fun l => negb (forallb (N.eqb 48) l);
  number_text := fun l => l
|}.

End Stream.

(* ===================================================================== *)
(** ** Regular expressions and String.prototype.replace *)
(* ===================================================================== *)

(** The fragment of ECMAScript regular expressions the redactor's four
    patterns are written in: one-unit atoms (a character or a class),
    greedy quantifiers on such atoms, sequence, alternation, one capturing
    group and the word boundary.  Matching follows ECMA-262's backtracking
    semantics: a matcher takes the position and a continuation, and tries
    its alternatives in priority order. *)

Module Regex.

Inductive regex :=
| Chr (p : jschar -> bool)
| Rep (p : jschar -> bool) (min : nat) (max : option nat)
| Seq (a b : regex)
| Alt (a b : regex)
| Group (a : regex)
| WordBoundary
| Empty.

(** A position during a match: the text ahead, the code unit behind, the
    number of code units matched so far, and the bounds of capture 1 as
    offsets into the match. *)
Record mstate := {
  ahead : jsstring;
  behind : option jschar;
  consumed : nat;
  capture : option (nat * nat)
}.

(** [\w]. *)
Definition is_word (c : jschar) : bool := is_alnum c || (c =? 95)%N.

Definition word_before (x : mstate) : bool :=
  match behind x with Some c => is_word c | None => false end.

Definition word_after (x : mstate) : bool :=
  match ahead x with c :: _ => is_word c | [] => false end.

(** A greedy quantifier [{min,max}] on a one-unit atom: take one more unit
    when allowed and possible, and fall back to stopping here. *)
Fixpoint rep (p : jschar -> bool) (min : nat) (max : option nat)
  (s : jsstring) (b : option jschar) (n : nat) (cap : option (nat * nat))
  (k : mstate -> option mstate) : option mstate :=
  let stop :=
    match min with
    | O => k {| ahead := s; behind := b; consumed := n; capture := cap |}
    | S _ => None
    end in
  match max with
  | Some O => stop
  | _ =>
      match s with
      | c :: s' =>
          if p c then
            match rep p (pred min) (option_map pred max) s' (Some c) (S n)
                    cap k with
            | Some r => Some r
            | None => stop
            end
          else stop
      | [] => stop
      end
  end.

(** The matcher of a pattern. *)
Fixpoint matcher (r : regex) (x : mstate) (k : mstate -> option mstate)
  : option mstate :=
  match r with
  | Chr p =>
      match ahead x with
      | c :: s' =>
          if p c then
            k {| ahead := s'; behind := Some c; consumed := S (consumed x);
                 capture := capture x |}
          else None
      | [] => None
      end
  | Rep p min max => rep p min max (ahead x) (behind x) (consumed x) (capture x) k
  | Seq a b => matcher a x (fun y => matcher b y k)
  | Alt a b =>
      match matcher a x k with
      | Some r => Some r
      | None => matcher b x k
      end
  | Group a =>
      matcher a x
        (fun y =>
           k {| ahead := ahead y; behind := behind y; consumed := consumed y;
                capture := Some (consumed x, consumed y) |})
  | WordBoundary => if xorb (word_before x) (word_after x) then k x else None
  | Empty => k x
  end.

(** A match attempt at one position of the subject: [b] is the code unit
    before the position, [s] the text from it. *)
Definition match_here (r : regex) (b : option jschar) (s : jsstring)
  : option mstate :=
  matcher r {| ahead := s; behind := b; consumed := 0; capture := None |} Some.

(** A replacement text: literal pieces and [$1]. *)
Inductive piece :=
| Text (t : jsstring)
| Capture1.

(** The replacement for one match [matched] with capture bounds [cap]. *)
Definition expand (tpl : list piece) (matched : jsstring)
  (cap : option (nat * nat)) : jsstring :=
  flat_map
    (fun p =>
       match p with
       | Text t => t
       | Capture1 =>
           match cap with
           | Some (i, j) => firstn (j - i) (skipn i matched)
           | None => []
           end
       end) tpl.

(** [s.replace(r, tpl)] for a pattern with the [g] flag, from a position:
    the match attempts go left to right; a match is replaced and the scan
    resumes at its end ([skip] counts the units of the match still to
    pass); after an empty match the scan moves one unit on. *)
Fixpoint replace_from (r : regex) (tpl : list piece) (b : option jschar)
  (skip : nat) (s : jsstring) : jsstring :=
  match s with
  | [] =>
      match skip, match_here r b [] with
      | O, Some y => expand tpl [] (capture y)
      | _, _ => []
      end
  | c :: s' =>
      match skip with
      | S n => replace_from r tpl (Some c) n s'
      | O =>
          match match_here r b s with
          | Some y =>
              match consumed y with
              | O =>
                  expand tpl [] (capture y)
                  ++ c :: replace_from r tpl (Some c) 0 s'
              | S n =>
                  expand tpl (firstn (S n) s) (capture y)
                  ++ replace_from r tpl (Some c) n s'
              end
          | None => c :: replace_from r tpl (Some c) 0 s'
          end
      end
  end.

Definition replace (r : regex) (tpl : list piece) (s : jsstring) : jsstring :=
  replace_from r tpl None 0 s.

(** Character classes and literals. *)
Definition chr (a : ascii) : jschar -> bool := N.eqb (N_of_ascii a).

(** A letter of a pattern with the [i] flag: the letter in either case. *)
Definition chr_i (a : ascii) : jschar -> bool :=
  fun c =>
    (c =? N_of_ascii a)%N
    || (is_lower (N_of_ascii a) && (c =? N_of_ascii a - 32)%N)
    || (is_upper (N_of_ascii a) && (c =? N_of_ascii a + 32)%N).

(** A word of a pattern with the [i] flag. *)
Definition word_i (w : string) : regex :=
  fold_right (fun a r => Seq (Chr (chr_i a)) r) Empty (list_ascii_of_string w).

Definition seq (rs : list regex) : regex := fold_right Seq Empty rs.

End Regex.

(* ===================================================================== *)
(** ** The redactor *)
(* ===================================================================== *)

Module Redactor.
Import Regex.

(** [[a-zA-Z0-9._%+-]] *)
Definition email_local (c : jschar) : bool := is_alnum c || one_of "._%+-" c.
(** [[a-zA-Z0-9.-]] *)
Definition email_domain (c : jschar) : bool := is_alnum c || one_of ".-" c.
(** [[-.\s]] *)
Definition phone_sep (c : jschar) : bool := one_of "-." c || is_space c.
(** [[\s:=]] *)
Definition secret_sep (c : jschar) : bool := is_space c || one_of ":=" c.
(** The class of the two quotation marks, double and single. *)
Definition quote (c : jschar) : bool := (c =? 34)%N || (c =? 39)%N.
(** [[a-zA-Z0-9\-_]] *)
Definition secret_char (c : jschar) : bool := is_alnum c || one_of "-_" c.

(** [/[a-zA-Z0-9._%+-]+@[a-zA-Z0-9.-]+\.[a-zA-Z]{2,}/g] *)
Definition emailRegex : regex :=
  seq [Rep email_local 1 None; Chr (chr "@"); Rep email_domain 1 None;
       Chr (chr "."); Rep is_alpha 2 None].

(** [/\+?[0-9]{1,3}[-.\s]?\(?[0-9]{1,3}\)?[-.\s]?[0-9]{3,4}[-.\s]?[0-9]{4}/g] *)
Definition phoneRegex : regex :=
  seq [Rep (chr "+") 0 (Some 1); Rep is_digit 1 (Some 3);
       Rep phone_sep 0 (Some 1); Rep (chr "(") 0 (Some 1);
       Rep is_digit 1 (Some 3); Rep (chr ")") 0 (Some 1);
       Rep phone_sep 0 (Some 1); Rep is_digit 3 (Some 4);
       Rep phone_sep 0 (Some 1); Rep is_digit 4 (Some 4)].

(** [/\b\d{1,3}\.\d{1,3}\.\d{1,3}\.\d{1,3}\b/g] *)
Definition ipRegex : regex :=
  seq [WordBoundary; Rep is_digit 1 (Some 3); Chr (chr ".");
       Rep is_digit 1 (Some 3); Chr (chr "."); Rep is_digit 1 (Some 3);
       Chr (chr "."); Rep is_digit 1 (Some 3); WordBoundary].

(** [/(bearer|api[_-]?key|secret|token|password)[\s:=]+["']?[a-zA-Z0-9\-_]{16,}["']?/gi] *)
Definition secretRegex : regex :=
  seq [Group
         (Alt (word_i "bearer")
            (Alt (seq [word_i "api"; Rep (one_of "_-") 0 (Some 1); word_i "key"])
               (Alt (word_i "secret")
                  (Alt (word_i "token") (word_i "password")))));
       Rep secret_sep 1 None; Rep quote 0 (Some 1);
       Rep secret_char 16 None; Rep quote 0 (Some 1)].

(** The four substitutions of the click handler, in its order. *)
Definition redact (content : jsstring) : jsstring :=
  let content := replace emailRegex [Text (lit "[REDACTED_EMAIL]")] content in
  let content := replace phoneRegex [Text (lit "[REDACTED_PHONE]")] content in
  let content := replace ipRegex [Text (lit "[REDACTED_IP]")] content in
  replace secretRegex [Capture1; Text (lit ": [REDACTED_SECRET]")] content.

(** The toasts of the handler. *)
Inductive toast :=
| NothingToRedact
| Redacted
| NoneFound.

(** The click handler of the redact button, on the value of the input box:
    the new value of the box and the toast shown.  The box returns the
    value it was given, so [content !== chatInput.value] compares the
    redacted text with itself. *)
Definition redact_click (value : jsstring) : jsstring * toast :=
  let content := value in
  if negb (nonempty content) then (value, NothingToRedact)
  else
    let originalLen := List.length content in
    let content := redact content in
    let value' := content in
    if negb (Nat.eqb (List.length content) originalLen)
       || negb (str_eqb content value')
    then (value', Redacted)
    else (value', NoneFound).

End Redactor.

(* ===================================================================== *)
(** ** The application state and its operations *)
(* ===================================================================== *)

Module App.
Import Stream.

(** The role strings: ['user'] and ['assistant'] in stored messages,
    ['bot'] as the class of the pending reply's node. *)
Inductive role := user | assistant | bot.

Record message := { role_of : role; content : jsstring }.

(** [{ id, title, messages, updatedAt }] *)
Record session := {
  id : jsstring;
  title : jsstring;
  messages : list message;
  updatedAt : N
}.

(** A message node of the page: its role class, the text last handed to
    [marked.parse] for its content ([None] when the content was set to the
    empty markup), and the [onclick] attribute of its copy button. *)
Record node := {
  node_role : role;
  shown : option jsstring;
  onclick : jsstring
}.

(** The body of one [fetch] call. *)
Record request := {
  bearer : jsstring;
  sent_messages : list message
}.

(** A call of [handleSend] suspended at [await fetch]: its local [session]
    and [botContentEl], and whether it is still waiting. *)
Record pending_send := {
  p_session : nat;
  p_bot : nat;
  waiting : bool
}.

(** The page.  Session objects live in [heap] and nodes in [nodes], both
    in allocation order; [sessions] and [chatMessages] hold references.
    [stored_sessions] and [stored_key] are the two localStorage items, the
    former as the sessions [JSON.stringify] wrote. *)
Record world := {
  heap : list session;
  sessions : list nat;
  currentSessionId : option jsstring;
  stored_sessions : option (list session);
  stored_key : option jsstring;
  chatInput : jsstring;
  sendDisabled : bool;
  nodes : list node;
  chatMessages : list nat;
  clipboard : option jsstring;
  toasts : list (jsstring * bool);
  prompts : nat;
  requests : list request;
  pending : list pending_send
}.

Definition set_heap (h : list session) (w : world) : world :=
  {| heap := h; sessions := sessions w;
     currentSessionId := currentSessionId w;
     stored_sessions := stored_sessions w; stored_key := stored_key w;
     chatInput := chatInput w; sendDisabled := sendDisabled w;
     nodes := nodes w; chatMessages := chatMessages w;
     clipboard := clipboard w; toasts := toasts w; prompts := prompts w;
     requests := requests w; pending := pending w |}.

Definition set_sessions (l : list nat) (w : world) : world :=
  {| heap := heap w; sessions := l;
     currentSessionId := currentSessionId w;
     stored_sessions := stored_sessions w; stored_key := stored_key w;
     chatInput := chatInput w; sendDisabled := sendDisabled w;
     nodes := nodes w; chatMessages := chatMessages w;
     clipboard := clipboard w; toasts := toasts w; prompts := prompts w;
     requests := requests w; pending := pending w |}.

Definition set_current (c : option jsstring) (w : world) : world :=
  {| heap := heap w; sessions := sessions w;
     currentSessionId := c;
     stored_sessions := stored_sessions w; stored_key := stored_key w;
     chatInput := chatInput w; sendDisabled := sendDisabled w;
     nodes := nodes w; chatMessages := chatMessages w;
     clipboard := clipboard w; toasts := toasts w; prompts := prompts w;
     requests := requests w; pending := pending w |}.

Definition set_stored_sessions (s : option (list session)) (w : world)
  : world :=
  {| heap := heap w; sessions := sessions w;
     currentSessionId := currentSessionId w;
     stored_sessions := s; stored_key := stored_key w;
     chatInput := chatInput w; sendDisabled := sendDisabled w;
     nodes := nodes w; chatMessages := chatMessages w;
     clipboard := clipboard w; toasts := toasts w; prompts := prompts w;
     requests := requests w; pending := pending w |}.

Definition set_stored_key (k : option jsstring) (w : world) : world :=
  {| heap := heap w; sessions := sessions w;
     currentSessionId := currentSessionId w;
     stored_sessions := stored_sessions w; stored_key := k;
     chatInput := chatInput w; sendDisabled := sendDisabled w;
     nodes := nodes w; chatMessages := chatMessages w;
     clipboard := clipboard w; toasts := toasts w; prompts := prompts w;
     requests := requests w; pending := pending w |}.

Definition set_input (v : jsstring) (dis : bool) (w : world) : world :=
  {| heap := heap w; sessions := sessions w;
     currentSessionId := currentSessionId w;
     stored_sessions := stored_sessions w; stored_key := stored_key w;
     chatInput := v; sendDisabled := dis;
     nodes := nodes w; chatMessages := chatMessages w;
     clipboard := clipboard w; toasts := toasts w; prompts := prompts w;
     requests := requests w; pending := pending w |}.

Definition set_nodes (n : list node) (c : list nat) (w : world) : world :=
  {| heap := heap w; sessions := sessions w;
     currentSessionId := currentSessionId w;
     stored_sessions := stored_sessions w; stored_key := stored_key w;
     chatInput := chatInput w; sendDisabled := sendDisabled w;
     nodes := n; chatMessages := c;
     clipboard := clipboard w; toasts := toasts w; prompts := prompts w;
     requests := requests w; pending := pending w |}.

Definition set_clipboard (c : option jsstring) (w : world) : world :=
  {| heap := heap w; sessions := sessions w;
     currentSessionId := currentSessionId w;
     stored_sessions := stored_sessions w; stored_key := stored_key w;
     chatInput := chatInput w; sendDisabled := sendDisabled w;
     nodes := nodes w; chatMessages := chatMessages w;
     clipboard := c; toasts := toasts w; prompts := prompts w;
     requests := requests w; pending := pending w |}.

Definition set_prompts (n : nat) (w : world) : world :=
  {| heap := heap w; sessions := sessions w;
     currentSessionId := currentSessionId w;
     stored_sessions := stored_sessions w; stored_key := stored_key w;
     chatInput := chatInput w; sendDisabled := sendDisabled w;
     nodes := nodes w; chatMessages := chatMessages w;
     clipboard := clipboard w; toasts := toasts w; prompts := n;
     requests := requests w; pending := pending w |}.

Definition set_requests (r : list request) (p : list pending_send)
  (w : world) : world :=
  {| heap := heap w; sessions := sessions w;
     currentSessionId := currentSessionId w;
     stored_sessions := stored_sessions w; stored_key := stored_key w;
     chatInput := chatInput w; sendDisabled := sendDisabled w;
     nodes := nodes w; chatMessages := chatMessages w;
     clipboard := clipboard w; toasts := toasts w; prompts := prompts w;
     requests := r; pending := p |}.

(** [showToast(message, type)] *)
Definition showToast (msg : jsstring) (is_error : bool) (w : world) : world :=
  {| heap := heap w; sessions := sessions w;
     currentSessionId := currentSessionId w;
     stored_sessions := stored_sessions w; stored_key := stored_key w;
     chatInput := chatInput w; sendDisabled := sendDisabled w;
     nodes := nodes w; chatMessages := chatMessages w;
     clipboard := clipboard w; toasts := toasts w ++ [(msg, is_error)];
     prompts := prompts w; requests := requests w; pending := pending w |}.

(** Replacing the element at an index (nothing happens out of range). *)
Fixpoint set_nth {A : Type} (i : nat) (x : A) (l : list A) : list A :=
  match l, i with
  | [], _ => []
  | _ :: l', O => x :: l'
  | y :: l', S i' => y :: set_nth i' x l'
  end.

(** The objects the array refers to, in its order. *)
Definition deref (h : list session) (l : list nat) : list session :=
  flat_map (fun r => match nth_error h r with Some s => [s] | None => [] end) l.

(** [sessions.find(s => s.id === id)]: the first such object. *)
Fixpoint find_session (h : list session) (l : list nat) (i : jsstring)
  : option nat :=
  match l with
  | [] => None
  | r :: l' =>
      match nth_error h r with
      | Some s => if str_eqb (id s) i then Some r else find_session h l' i
      | None => find_session h l' i
      end
  end.

(** [saveSessions()] *)
Definition saveSessions (w : world) : world :=
  set_stored_sessions (Some (deref (heap w) (sessions w))) w.

Definition stamp (h : list session) (r : nat) : N :=
  match nth_error h r with Some s => updatedAt s | None => 0%N end.

(** [sessions.sort((a, b) => b.updatedAt - a.updatedAt)]: the stable sort
    by decreasing [updatedAt], in place. *)
Fixpoint insert_desc (h : list session) (r : nat) (l : list nat) : list nat :=
  match l with
  | [] => [r]
  | x :: l' =>
      if (stamp h x <=? stamp h r)%N then r :: l
      else x :: insert_desc h r l'
  end.

Definition sort_desc (h : list session) (l : list nat) : list nat :=
  fold_right (insert_desc h) [] l.

(** [renderHistory()]: the list items are not modelled; the sort of the
    array is. *)
Definition renderHistory (w : world) : world :=
  set_sessions (sort_desc (heap w) (sessions w)) w.

(** The page once the script has run: [sessions] is what localStorage
    holds, or the empty array, and the [renderHistory()] that ends the
    script has sorted it. *)
Definition boot (stored : option (list session)) (key : option jsstring)
  : world :=
  let l := match stored with Some l => l | None => [] end in
  renderHistory
    {| heap := l; sessions := seq 0 (List.length l);
       currentSessionId := None;
       stored_sessions := stored; stored_key := key;
       chatInput := []; sendDisabled := true;
       nodes := []; chatMessages := [];
       clipboard := None; toasts := []; prompts := 0;
       requests := []; pending := [] |}.

(** The outcome of a call that may throw. *)
Inductive outcome := Returned (w : world) | Threw (w : world).

Definition andThen (o : outcome) (k : world -> outcome) : outcome :=
  match o with
  | Returned w => k w
  | Threw w => Threw w
  end.

Definition world_of (o : outcome) : world :=
  match o with Returned w => w | Threw w => w end.

(** [appendMessage(role, content)]: a new node at the end of the chat,
    whose copy button carries the encoded content; [encodeURIComponent]
    throws on an unpaired surrogate, before the node exists. *)
Definition appendMessage (r : role) (c : jsstring) (w : world) : outcome :=
  match Uri.encodeURIComponent c with
  | None => Threw w
  | Some encodedContent =>
      Returned
        (set_nodes
           (nodes w ++ [{| node_role := r; shown := Some c;
                           onclick := Uri.copy_handler encodedContent |}])
           (chatMessages w ++ [List.length (nodes w)]) w)
  end.

Fixpoint appendMessages (ms : list message) (w : world) : outcome :=
  match ms with
  | [] => Returned w
  | m :: ms' =>
      andThen (appendMessage (role_of m) (content m) w) (appendMessages ms')
  end.

(** [loadSession(id)] *)
Definition loadSession (i : jsstring) (w : world) : outcome :=
  let w := set_current (Some i) w in
  let w := set_nodes (nodes w) [] w in
  let drawn :=
    match find_session (heap w) (sessions w) i with
    | Some r =>
        match nth_error (heap w) r with
        | Some s => appendMessages (messages s) w
        | None => Returned w
        end
    | None => Returned w
    end in
  andThen drawn (fun w => Returned (renderHistory w)).

(** [createNewSession()]; the two readings of the clock are [now_id] and
    [now_stamp]. *)
Definition createNewSession (now_id now_stamp : N) (w : world) : outcome :=
  let newSession :=
    {| id := Number_toString now_id; title := lit "New Chat";
       messages := []; updatedAt := now_stamp |} in
  let w := set_sessions (sessions w ++ [List.length (heap w)])
             (set_heap (heap w ++ [newSession]) w) in
  let w := saveSessions w in
  loadSession (id newSession) w.

(** [updateSessionTitle(id, content)] *)
Definition updateSessionTitle (i : jsstring) (c : jsstring) (w : world)
  : world :=
  match find_session (heap w) (sessions w) i with
  | Some r =>
      match nth_error (heap w) r with
      | Some s =>
          if Nat.eqb (List.length (messages s)) 1 then
            let s' :=
              {| id := id s;
                 title := substring0 30 c
                          ++ (if Nat.ltb 30 (List.length c) then lit "..."
                              else []);
                 messages := messages s; updatedAt := updatedAt s |} in
            renderHistory (saveSessions (set_heap (set_nth r s' (heap w)) w))
          else w
      | None => w
      end
  | None => w
  end.

(** The values injected at build time or by the environment; the empty
    string stands for an absent one. *)
Record config := { meta_key : jsstring; process_key : jsstring }.

(** [getApiKey()] *)
Definition getApiKey (cfg : config) (w : world) : jsstring :=
  let key := if nonempty (meta_key cfg) then meta_key cfg else [] in
  let key := if nonempty key then key
             else if nonempty (process_key cfg) then process_key cfg else [] in
  if nonempty key then key
  else match stored_key w with Some k => k | None => [] end.

(** [ensureApiKey()]; [reply] is what [prompt] returns if it is shown
    ([None] when the dialog is cancelled). *)
Definition ensureApiKey (cfg : config) (reply : option jsstring) (w : world)
  : jsstring * world :=
  let key := getApiKey cfg w in
  if nonempty key then (key, w)
  else
    let w := set_prompts (S (prompts w)) w in
    match reply with
    | Some userInput =>
        if nonempty userInput && nonempty (trim userInput) then
          (trim userInput,
           showToast (lit "API Key saved securely locally.") false
             (set_stored_key (Some (trim userInput)) w))
        else ([], showToast (lit "API Key is required to chat.") true w)
    | None => ([], showToast (lit "API Key is required to chat.") true w)
    end.

(** What the user and the clock supply to one call of [handleSend] up to
    its request: the reply to the key prompt if it is shown, the two clock
    readings of [createNewSession] if it is called, and the clock reading
    stored with the user's message. *)
Record send_input := {
  prompt_reply : option jsstring;
  now_id : N;
  now_stamp : N;
  now_user : N
}.

(** How the request of a suspended [handleSend] settles: [fetch] rejects;
    the response is not [ok] (its status, and the [error.message] of its
    body if it has one); or the response is [ok] and its body delivers
    chunks of text until the reader reports [done] or fails. *)
Inductive response :=
| NetworkError (message : jsstring)
| HttpError (status : N) (error_message : option jsstring)
| HttpOk (chunks : list jsstring) (read_error : option jsstring).

Definition thinking : jsstring :=
  qlit "<i class='fas fa-circle-notch fa-spin'></i> Thinking...".

(** [!currentSessionId] *)
Definition no_current (c : option jsstring) : bool :=
  match c with
  | None => true
  | Some i => negb (nonempty i)
  end.

Definition push_message (m : message) (stamp' : N) (s : session) : session :=
  {| id := id s; title := title s; messages := messages s ++ [m];
     updatedAt := stamp' |}.

(** How a call of [handleSend] leaves its synchronous part: it returned
    or threw before any request, or it sent its request and is suspended
    at [await fetch]. *)
Inductive begun :=
| Stopped (o : outcome)
| Suspended (w : world) (p : pending_send).

Definition before (o : outcome) (k : world -> begun) : begun :=
  match o with
  | Returned w => k w
  | Threw w => Stopped (Threw w)
  end.

Definition world_after (b : begun) : world :=
  match b with
  | Stopped o => world_of o
  | Suspended w _ => w
  end.

(** [handleSend] from its start to [await fetch].  It returns early on an
    empty input or a missing key, throws when there is no session for
    [currentSessionId] or when a message cannot be encoded, and otherwise
    leaves a request sent and itself suspended. *)
Definition handleSend_begin (cfg : config) (inp : send_input) (w : world)
  : begun :=
  let content := trim (chatInput w) in
  if negb (nonempty content) then Stopped (Returned w)
  else
    let '(apiKey, w) := ensureApiKey cfg (prompt_reply inp) w in
    if negb (nonempty apiKey) then Stopped (Returned w)
    else
      before
        (if no_current (currentSessionId w)
         then createNewSession (now_id inp) (now_stamp inp) w
         else Returned w)
        (fun w =>
           match currentSessionId w with
           | None => Stopped (Threw w)
           | Some cur =>
               match find_session (heap w) (sessions w) cur with
               | None => Stopped (Threw w)
               | Some r =>
                   match nth_error (heap w) r with
                   | None => Stopped (Threw w)
                   | Some s =>
                       let s' :=
                         push_message
                           {| role_of := user; content := content |}
                           (now_user inp) s in
                       let w := set_heap (set_nth r s' (heap w)) w in
                       let w := updateSessionTitle cur content w in
                       before (appendMessage user content w)
                         (fun w =>
                            let w := set_input [] true w in
                            before (appendMessage bot thinking w)
                              (fun w =>
                                 let p :=
                                   {| p_session := r;
                                      p_bot := List.length (nodes w) - 1;
                                      waiting := true |} in
                                 let sent :=
                                   match nth_error (heap w) r with
                                   | Some s2 => messages s2
                                   | None => []
                                   end in
                                 Suspended
                                   (set_requests
                                      (requests w
                                       ++ [{| bearer := apiKey;
                                              sent_messages := sent |}])
                                      (pending w ++ [p]) w) p))
                   end
               end
           end).

Definition set_shown (n : nat) (v : option jsstring) (w : world) : world :=
  match nth_error (nodes w) n with
  | Some nd =>
      set_nodes
        (set_nth n {| node_role := node_role nd; shown := v;
                      onclick := onclick nd |} (nodes w))
        (chatMessages w) w
  | None => w
  end.

Definition set_onclick (n : nat) (h : jsstring) (w : world) : world :=
  match nth_error (nodes w) n with
  | Some nd =>
      set_nodes
        (set_nth n {| node_role := node_role nd; shown := shown nd;
                      onclick := h |} (nodes w))
        (chatMessages w) w
  | None => w
  end.

(** The suspended call is over. *)
Definition retire (k : nat) (w : world) : world :=
  match nth_error (pending w) k with
  | Some p =>
      set_requests (requests w)
        (set_nth k {| p_session := p_session p; p_bot := p_bot p;
                      waiting := false |} (pending w)) w
  | None => w
  end.

(** The [catch] and [finally] blocks. *)
Definition fail_send (p : pending_send) (msg : jsstring) (w : world) : world :=
  let w := set_shown (p_bot p) (Some (lit "**Error:** " ++ msg)) w in
  let w := showToast msg true w in
  set_input (chatInput w) false w.

(** What the page asks of the two libraries that draw a reply: whether
    the markup [DOMPurify.sanitize(marked.parse(text))] holds an element
    of class [action-icon].  It is theirs and is taken as given. *)
Class Markup := {
  action_icon_in : jsstring -> bool
}.

(** A markup for the examples: exact on the texts without [<], which
    [marked] turns into elements of its own, none of that class; the
    examples stream no other text. *)
Definition plain_markup : Markup := {|
  action_icon_in := fun text => existsb (N.eqb 60%N) text
|}.

Section Send.
Context {ops : NumberOps} {markup : Markup}.

(** [parentMsgDiv.querySelector('.action-icon')] finds something else than
    the copy button: the content of the node comes before the button in
    the message, so an element of that class in the reply as it was last
    drawn is found first. *)
Definition icon_in_reply (st : consumer) : bool :=
  match renders st with
  | [] => false
  | _ :: _ => action_icon_in (botResponse st)
  end.

(** [handleSend] from the settling of its request to its end. *)
Definition handleSend_settle (k : nat) (resp : response) (now : N) (w : world)
  : world :=
  match nth_error (pending w) k with
  | None => w
  | Some p =>
      if negb (waiting p) then w
      else
        let w := retire k w in
        match resp with
        | NetworkError msg => fail_send p msg w
        | HttpError status error_message =>
            if (status =? 401)%N then
              fail_send p
                (lit "Invalid API Key. Please refresh and enter a valid key.")
                (set_stored_key None w)
            else
              fail_send p
                (match error_message with
                 | Some m =>
                     if nonempty m then m
                     else lit "HTTP error! status: " ++ Number_toString status
                 | None => lit "HTTP error! status: " ++ Number_toString status
                 end) w
        | HttpOk chunks read_error =>
            let w := set_shown (p_bot p) None w in
            let st := consume start chunks in
            let w :=
              match renders st with
              | [] => w
              | _ :: _ => set_shown (p_bot p) (Some (botResponse st)) w
              end in
            match read_error with
            | Some msg => fail_send p msg w
            | None =>
                let w :=
                  match nth_error (heap w) (p_session p) with
                  | Some s =>
                      set_heap
                        (set_nth (p_session p)
                           (push_message
                              {| role_of := assistant;
                                 content := botResponse st |} now s)
                           (heap w)) w
                  | None => w
                  end in
                let w := saveSessions w in
                match Uri.encodeURIComponent (botResponse st) with
                | None => fail_send p (lit "URI malformed") w
                | Some encodedContent =>
                    set_input (chatInput w) false
                      (if icon_in_reply st then w
                       else set_onclick (p_bot p)
                              (Uri.copy_handler encodedContent) w)
                end
            end
        end
  end.

(** What can happen on the page. *)
Inductive event :=
| Input (text : jsstring)
| Send (inp : send_input)
| Settle (k : nat) (resp : response) (now : N)
| NewChat (now_id now_stamp : N)
| Load (r : nat)
| Redact
| Export
| Copy (n : nat).

Definition toast_text (t : Redactor.toast) : jsstring * bool :=
  match t with
  | Redactor.NothingToRedact =>
      (lit "Nothing to redact in the input box", true)
  | Redactor.Redacted => (lit "PII and Secrets Redacted from input", false)
  | Redactor.NoneFound => (lit "No PII/Secrets found in input", false)
  end.

(** One event: typing in the input box; the send button or the Enter key
    (both inert while the button is disabled); the settling of a suspended
    send; the new-chat buttons; a click on the history item of a session;
    the redact and export buttons; the copy button of a node (see
    [click_followed] for the handlers it stands for). *)
Definition step (cfg : config) (e : event) (w : world) : world :=
  match e with
  | Input text => set_input text (negb (nonempty (trim text))) w
  | Send inp =>
      if sendDisabled w then w else world_after (handleSend_begin cfg inp w)
  | Settle k resp now => handleSend_settle k resp now w
  | NewChat a b => world_of (createNewSession a b w)
  | Load r =>
      match nth_error (heap w) r with
      | Some s => world_of (loadSession (id s) w)
      | None => w
      end
  | Redact =>
      let '(v, t) := Redactor.redact_click (chatInput w) in
      let '(msg, is_error) := toast_text t in
      showToast msg is_error (set_input v (sendDisabled w) w)
  | Export =>
      match currentSessionId w with
      | Some cur =>
          if nonempty cur then
            match find_session (heap w) (sessions w) cur with
            | Some _ => showToast (lit "Chat exported securely") false w
            | None => w
            end
          else showToast (lit "No active chat to export") true w
      | None => showToast (lit "No active chat to export") true w
      end
  | Copy n =>
      match nth_error (nodes w) n with
      | Some nd =>
          match Uri.click_copy (onclick nd) with
          | Some t =>
              showToast (lit "Copied to clipboard") false
                (set_clipboard (Some t) w)
          | None => w
          end
      | None => w
      end
  end.

Definition run (cfg : config) (es : list event) (w : world) : world :=
  fold_left (fun w e => step cfg e w) es w.



End Send.

End App.

(* ===================================================================== *)
(** ** Notions used to state the properties *)
(* ===================================================================== *)

Unset Implicit Arguments.

Module Records.
Import Json Stream.

(** A chunk made of whole lines, each ended by a line feed. *)
Definition unlines (lines : list jsstring) : jsstring :=
  flat_map (fun l => l ++ [10%N]) lines.

(** All the lines the consumer sees, in arrival order. *)
Definition lines_of (chunks : list jsstring) : list jsstring :=
  flat_map (split 10%N) chunks.

(** A record whose payload does not parse as JSON (the terminator
    [data: [DONE]] is not one: the consumer never parses it). *)
Definition malformed (line : jsstring) : bool :=
  startsWith (lit "data: ") line
  && negb (str_eqb line (lit "data: [DONE]"))
  && match parse (slice 6 line) with Some _ => false | None => true end.

(** The record [data: {"choices":[{"delta":{"content":"Hel"}}]}] cut in
    two inside its payload. *)
Definition cut_head : jsstring := qlit "data: {'choices':[{'del".
Definition cut_tail : jsstring := qlit "ta':{'content':'Hel'}}]}".

(** The lines of the events before and after it in the examples: a record
    and the empty line that ends its event. *)
Definition lines_before : list jsstring :=
  [qlit "data: {'choices':[{'delta':{'content':'A'}}]}"; []].
Definition lines_after : list jsstring :=
  [[]; qlit "data: {'choices':[{'delta':{'content':'B'}}]}"; []].

(** Two states of the consumer with the same response and the same texts
    handed to the renderer (the error log apart). *)
Definition same_text (a b : consumer) : Prop :=
  botResponse a = botResponse b /\ renders a = renders b.

End Records.

(** Where the JSON reader stands, for the proofs about records cut in
    two. *)
Module Lexical.
Import Json.

(** Inside a string, not in an escape. *)
Definition in_plain (s : state) : bool :=
  match mode_of s with
  | MStr _ _ Plain => true
  | _ => false
  end.

(** Inside a string, not just after a backslash. *)
Definition in_text (s : state) : bool :=
  match mode_of s with
  | MStr _ _ Plain => true
  | MStr _ _ (Hex _ _) => true
  | _ => false
  end.

(** Not inside a string. *)
Definition outside (s : state) : bool :=
  match mode_of s with
  | MStr _ _ _ => false
  | _ => true
  end.

(** The document is complete, or is a number that may still grow. *)
Definition top_level (s : state) : bool :=
  match stack s, mode_of s with
  | [], MDone _ => true
  | [], MNum _ _ => true
  | _, _ => false
  end.

(** What is left to read of a literal is made of letters of [true],
    [false] and [null] after their first. *)
Definition wf (s : state) : bool :=
  match mode_of s with
  | MLit rest _ => forallb (one_of "rueals") rest
  | _ => true
  end.

(** One reader is inside a string exactly where the other is not. *)
Definition opposite (a b : state) : bool :=
  (in_plain a && outside b) || (outside a && in_plain b).

End Lexical.

Module Titles.
Import App.

(** The title the specification gives a session whose first message has
    content [c]: the first 30 code units and an ellipsis marker when [c] is
    longer than 30, [c] itself otherwise. *)
Definition derived_title (c : jsstring) : jsstring :=
  if Nat.ltb 30 (List.length c) then firstn 30 c ++ lit "..." else c.


(** The session object [s] once the user's message [c] is pushed at time
    [now] and the title updated. *)
Definition after_user_message (c : jsstring) (now : N) (s : session)
  : session :=
  {| id := id s;
     title := match messages s with
              | [] => derived_title c
              | _ :: _ => title s
              end;
     messages := messages s ++ [{| role_of := user; content := c |}];
     updatedAt := now |}.

Definition is_suspended (b : begun) : bool :=
  match b with
  | Suspended _ _ => true
  | Stopped _ => false
  end.



(** The part of the world that the page's nodes, toasts and clipboard are
    not. *)
Definition store (w : world) :=
  (heap w, sessions w, currentSessionId w, stored_sessions w, stored_key w,
   prompts w, requests w, pending w).

End Titles.

Module Samples.
Import App Titles.

Definition sample_config : config := {| meta_key := []; process_key := [] |}.

Definition sample_input : send_input :=
  {| prompt_reply := None; now_id := 1700000000000; now_stamp := 1700000000001;
     now_user := 1700000000002 |}.

(** A page with a stored key and no session, and 45 code units typed. *)
Definition typed_45 : world :=
  set_input (lit "Please explain how closures capture variables")
    false (boot None (Some (lit "sk-test"))).

(** The page once that input is sent. *)
Definition one_suspended : world :=
  world_after (handleSend_begin sample_config sample_input typed_45).

Definition earlier_exchange : session :=
  {| id := lit "1690000000000"; title := lit "hello";
     messages := [{| role_of := user; content := lit "hello" |};
                  {| role_of := assistant; content := lit "Hi!" |}];
     updatedAt := 1690000000005 |}.

(** A session as [createNewSession] makes it. *)
Definition fresh_session : session :=
  {| id := lit "1700000000000"; title := lit "New Chat"; messages := [];
     updatedAt := 1700000000001 |}.


End Samples.

(** A declarative reading of the matcher, for the proofs about the
    redactor. *)
Module Matching.
Import Regex.

(** The code unit behind a position once [w] has been passed. *)
Fixpoint lastb (b : option jschar) (w : jsstring) : option jschar :=
  match w with
  | [] => b
  | c :: w' => lastb (Some c) w'
  end.

(** The position reached from [x] by passing [w], with [a] left ahead. *)
Definition after (x : mstate) (w a : jsstring) : mstate :=
  {| ahead := a; behind := lastb (behind x) w;
     consumed := List.length w + consumed x; capture := capture x |}.

Definition start (b : option jschar) (s : jsstring) : mstate :=
  {| ahead := s; behind := b; consumed := 0; capture := None |}.

(** [Run r x y]: the pattern [r] can take the matcher from position [x] to
    position [y]. *)
Fixpoint Run (r : regex) (x y : mstate) : Prop :=
  match r with
  | Chr p => exists c a, ahead x = c :: a /\ p c = true /\ y = after x [c] a
  | Rep p min max =>
      exists w a,
        ahead x = w ++ a /\ forallb p w = true /\ min <= List.length w
        /\ match max with Some m => List.length w <= m | None => True end
        /\ y = after x w a
  | Seq r1 r2 => exists m, Run r1 x m /\ Run r2 m y
  | Alt r1 r2 => Run r1 x y \/ Run r2 x y
  | Group r1 =>
      exists y0,
        Run r1 x y0
        /\ y = {| ahead := ahead y0; behind := behind y0;
                  consumed := consumed y0;
                  capture := Some (consumed x, consumed y0) |}
  | WordBoundary => xorb (word_before x) (word_after x) = true /\ y = x
  | Empty => y = x
  end.

(** A pattern without word boundaries. *)
Fixpoint plain (r : regex) : bool :=
  match r with
  | Chr _ | Rep _ _ _ | Empty => true
  | Seq a b | Alt a b => plain a && plain b
  | Group a => plain a
  | WordBoundary => false
  end.

(** Every code unit the pattern can pass satisfies [alpha]. *)
Fixpoint within (alpha : jschar -> bool) (r : regex) : Prop :=
  match r with
  | Chr p | Rep p _ _ => forall c, p c = true -> alpha c = true
  | Seq a b | Alt a b => within alpha a /\ within alpha b
  | Group a => within alpha a
  | WordBoundary | Empty => True
  end.

(** No match of [r] starts at any position of [s] ([b] is the code unit
    before [s]). *)
Fixpoint nm (r : regex) (b : option jschar) (s : jsstring) : Prop :=
  match_here r b s = None
  /\ match s with
     | [] => True
     | c :: s' => nm r (Some c) s'
     end.

(** The scan of [replace]: the subject [s] and the result, stretch by
    stretch.  A code unit where no match starts is kept; a match [m] is
    replaced by its expansion and the scan resumes after it. *)
Inductive Scan (r : regex) (tpl : list piece)
  : option jschar -> jsstring -> jsstring -> Prop :=
| scan_end b : Scan r tpl b [] []
| scan_keep b c s out :
    match_here r b (c :: s) = None ->
    Scan r tpl (Some c) s out ->
    Scan r tpl b (c :: s) (c :: out)
| scan_hit b m a y out :
    match_here r b (m ++ a) = Some y ->
    consumed y = List.length m ->
    m <> [] ->
    Scan r tpl (lastb b m) a out ->
    Scan r tpl b (m ++ a) (expand tpl m (capture y) ++ out).

(** The subject and the result of a scan with respect to a plain pattern
    [r'], when each match was replaced by a kept prefix [K] of itself
    followed by the fixed text [B]: no match of [r'] starts at a kept code
    unit of the subject, nor inside a kept prefix in the result. *)
Inductive Clean (r' : regex) (B : jsstring) : jsstring -> jsstring -> Prop :=
| clean_end : Clean r' B [] []
| clean_keep c s out :
    match_here r' None (c :: s) = None ->
    Clean r' B s out ->
    Clean r' B (c :: s) (c :: out)
| clean_hit K m2 a out :
    (forall K1 K2 out', K = K1 ++ K2 -> K2 <> [] ->
       match_here r' None (K2 ++ B ++ out') = None) ->
    Clean r' B a out ->
    Clean r' B (K ++ m2 ++ a) (K ++ B ++ out).

(** The code units the pattern can pass. *)
Fixpoint alphabet (r : regex) (c : jschar) : bool :=
  match r with
  | Chr p | Rep p _ _ => p c
  | Seq a b | Alt a b => alphabet a c || alphabet b c
  | Group a => alphabet a c
  | WordBoundary | Empty => false
  end.

(** A lower bound on what a match of the pattern passes. *)
Fixpoint min_len (r : regex) : nat :=
  match r with
  | Chr _ => 1
  | Rep _ min _ => min
  | Seq a b => min_len a + min_len b
  | Alt a b => Nat.min (min_len a) (min_len b)
  | Group a => min_len a
  | WordBoundary | Empty => 0
  end.

(** A pattern without capturing group. *)
Fixpoint groupless (r : regex) : bool :=
  match r with
  | Chr _ | Rep _ _ _ | WordBoundary | Empty => true
  | Seq a b | Alt a b => groupless a && groupless b
  | Group _ => false
  end.

(** The non-empty tails of a text. *)
Fixpoint tails (s : jsstring) : list jsstring :=
  match s with
  | [] => []
  | c :: s' => s :: tails s'
  end.

End Matching.

(** The parts of the secret pattern. *)
Module Secret.
Import Regex Redactor.

(** The alternatives of its capturing group. *)
Definition keywords : regex :=
  Alt (word_i "bearer")
    (Alt (seq [word_i "api"; Rep (one_of "_-") 0 (Some 1); word_i "key"])
       (Alt (word_i "secret") (Alt (word_i "token") (word_i "password")))).

(** What follows the group. *)
Definition value_part : regex :=
  seq [Rep secret_sep 1 None; Rep quote 0 (Some 1);
       Rep secret_char 16 None; Rep quote 0 (Some 1)].

(** The longest prefix made of code units of a class. *)
Fixpoint take_while (p : jschar -> bool) (s : jsstring) : jsstring :=
  match s with
  | c :: s' => if p c then c :: take_while p s' else []
  | [] => []
  end.

Fixpoint drop_while (p : jschar -> bool) (s : jsstring) : jsstring :=
  match s with
  | c :: s' => if p c then drop_while p s' else s
  | [] => []
  end.

End Secret.

(** The address pattern, the one pattern of the redactor with word
    boundaries. *)
Module Address.
Import Regex Redactor Matching.

(** The four numbers and the three dots between its word boundaries. *)
Definition quad : list regex :=
  [Rep is_digit 1 (Some 3); Chr (chr "."); Rep is_digit 1 (Some 3);
   Chr (chr "."); Rep is_digit 1 (Some 3); Chr (chr ".");
   Rep is_digit 1 (Some 3)].

Definition ip_core : regex := seq quad.

Definition wordb (b : option jschar) : bool :=
  match b with Some c => is_word c | None => false end.

Definition headw (s : jsstring) : bool :=
  match s with c :: _ => is_word c | [] => false end.

Definition headp (p : jschar -> bool) (s : jsstring) : bool :=
  match s with c :: _ => p c | [] => false end.

(** A scan of [replace] for the pattern [r], over a subject in which no
    match of [r'] starts at a code unit that the scan keeps. *)
Inductive Kept (r : regex) (tpl : list piece) (r' : regex)
  : option jschar -> jsstring -> jsstring -> Prop :=
| kept_end b : Kept r tpl r' b [] []
| kept_keep b c s out :
    match_here r' b (c :: s) = None ->
    Kept r tpl r' (Some c) s out ->
    Kept r tpl r' b (c :: s) (c :: out)
| kept_hit b m a y out :
    match_here r b (m ++ a) = Some y ->
    consumed y = List.length m ->
    m <> [] ->
    Kept r tpl r' (lastb b m) a out ->
    Kept r tpl r' b (m ++ a) (expand tpl m (capture y) ++ out).

End Address.

From Stdlib Require DecimalN.

(** Further pages and notions, for the properties beyond the
    specification's. *)
Module More.
Import App Titles Samples.

(** The send of [typed_45], suspended. *)
Definition first_send : pending_send :=
  {| p_session := 0; p_bot := 1; waiting := true |}.

(** A page with a stored key and one new session, in whose input box a
    letter and an unpaired surrogate are typed. *)
Definition typed_surrogate : world :=
  set_input [104%N; 55357%N] false
    (world_of
       (createNewSession 1700000000000 1700000000001
          (boot None (Some (lit "sk-test"))))).

(** A response that is no complete reply: the request failed, the status
    is an error, or the reader failed before the end of the stream. *)
Definition is_failure (resp : response) : bool :=
  match resp with
  | HttpOk _ None => false
  | _ => true
  end.

(** The array of references [l] is in the order of the history list: no
    session is followed by one with a later [updatedAt]. *)
Fixpoint descending (h : list session) (l : list nat) : Prop :=
  match l with
  | [] => True
  | r :: l' =>
      (forall x, In x l' -> (stamp h x <= stamp h r)%N) /\ descending h l'
  end.

(** What the chat shows: the role and the text of its nodes, in order. *)
Definition drawn (w : world) : list (role * option jsstring) :=
  flat_map
    (fun n =>
       match nth_error (nodes w) n with
       | Some nd => [(node_role nd, shown nd)]
       | None => []
       end) (chatMessages w).

(** The content can be encoded by [encodeURIComponent]. *)
Definition encodable (m : message) : bool :=
  match Uri.encodeURIComponent (content m) with
  | Some _ => true
  | None => false
  end.

(** Three sessions out of order, two of them with the same time stamp,
    and one of them with two messages. *)
Definition three_sessions : list session :=
  [{| id := lit "1"; title := lit "first"; messages := [];
      updatedAt := 5 |};
   earlier_exchange;
   {| id := lit "3"; title := lit "third"; messages := [];
      updatedAt := 5 |}].



End More.

(** Where the patterns of the redactor match. *)
Module Found.
Import Regex Redactor Matching.

(** The pattern [r] matches at the position [i] of the text [t]. *)
Definition matches_at (r : regex) (t : jsstring) (i : nat) : bool :=
  match match_here r (lastb None (firstn i t)) (skipn i t) with
  | Some _ => true
  | None => false
  end.

End Found.

(** What the records of a stream do, to state what the consumer ends
    with. *)
Module Notices.
Import Json Stream.

Section Lines.
Context {ops : NumberOps}.

(** What a line does to the consumer: nothing ([None]) when it is no
    record or is the terminator, and otherwise what its payload does,
    a payload that does not parse throwing in [JSON.parse]. *)
Definition line_outcome (line : jsstring) : option Stream.outcome :=
  if startsWith (lit "data: ") line
     && negb (str_eqb line (lit "data: [DONE]"))
  then
    match parse (slice 6 line) with
    | Some data => Some (delta_step data)
    | None => Some Throw
    end
  else None.

(** The fragments of the lines that carry one, in order. *)
Definition appended (lines : list jsstring) : list jsstring :=
  flat_map
    (fun l => match line_outcome l with Some (Append f) => [f] | _ => [] end)
    lines.

(** The number of lines whose handling throws inside the [try]. *)
Definition thrown (lines : list jsstring) : nat :=
  List.length
    (filter
       (fun l => match line_outcome l with Some Throw => true | _ => false end)
       lines).

End Lines.

(** The texts accumulated fragment after fragment, from [acc]. *)
Fixpoint running (acc : jsstring) (fs : list jsstring) : list jsstring :=
  match fs with
  | [] => []
  | f :: fs' => (acc ++ f) :: running (acc ++ f) fs'
  end.

End Notices.

(* ===================================================================== *)
(** ** JSON.stringify, as saveSessions and the export use it *)
(* ===================================================================== *)

(** [JSON.stringify] is the host's.  It is modelled on the values the page
    gives it: arrays and objects of strings and of numbers that are clock
    readings, kept as their decimal lexemes.  A string is quoted as
    QuoteJSONString does (ECMA-262, well-formed [JSON.stringify]): the
    short escapes, [\uXXXX] in lower case for the other control
    characters and for unpaired surrogates, everything else as it is. *)
Module Persist.
Import Json App.

Definition hex_lower (n : N) : jschar :=
  if (n <? 10)%N then (48 + n)%N else (87 + n)%N.

(** [\uXXXX] for one code unit. *)
Definition unicode_escape (c : jschar) : jsstring :=
  [92%N; 117%N; hex_lower (c / 4096); hex_lower ((c / 256) mod 16);
   hex_lower ((c / 16) mod 16); hex_lower (c mod 16)].

(** The characters of a quoted string, between its quotation marks. *)
Fixpoint quote_units (s : jsstring) : jsstring :=
  match s with
  | [] => []
  | c :: s' =>
      if (c =? 8)%N then 92%N :: 98%N :: quote_units s'
      else if (c =? 9)%N then 92%N :: 116%N :: quote_units s'
      else if (c =? 10)%N then 92%N :: 110%N :: quote_units s'
      else if (c =? 12)%N then 92%N :: 102%N :: quote_units s'
      else if (c =? 13)%N then 92%N :: 114%N :: quote_units s'
      else if (c =? 34)%N then 92%N :: 34%N :: quote_units s'
      else if (c =? 92)%N then 92%N :: 92%N :: quote_units s'
      else if (c <? 32)%N then unicode_escape c ++ quote_units s'
      else if Uri.is_lead c then
        match s' with
        | d :: s'' =>
            if Uri.is_trail d then c :: d :: quote_units s''
            else unicode_escape c ++ quote_units s'
        | [] => unicode_escape c
        end
      else if Uri.is_trail c then unicode_escape c ++ quote_units s'
      else c :: quote_units s'
  end.

(** QuoteJSONString. *)
Definition quote (s : jsstring) : jsstring :=
  34%N :: quote_units s ++ [34%N].

(** The parts of an array or of an object, with the separator between
    them. *)
Fixpoint join (sep : jsstring) (parts : list jsstring) : jsstring :=
  match parts with
  | [] => []
  | [p] => p
  | p :: ps => p ++ sep ++ join sep ps
  end.

Section Stringify.
(** The gap: empty for [JSON.stringify(v)], two spaces for
    [JSON.stringify(v, null, 2)]. *)
Variable gap : jsstring.

(** A line break and the indentation, when there is a gap. *)
Definition newline (indent : jsstring) : jsstring :=
  match gap with
  | [] => []
  | _ :: _ => 10%N :: indent
  end.

Definition colon : jsstring :=
  match gap with
  | [] => [58%N]
  | _ :: _ => [58%N; 32%N]
  end.

(** SerializeJSONProperty on a value, at the indentation [indent]. *)
Fixpoint stringify (indent : jsstring) (v : value) : jsstring :=
  match v with
  | JNull => lit "null"
  | JBool true => lit "true"
  | JBool false => lit "false"
  | JNum lexeme => lexeme
  | JStr s => quote s
  | JArr items =>
      match items with
      | [] => lit "[]"
      | _ :: _ =>
          91%N :: newline (indent ++ gap)
          ++ join (44%N :: newline (indent ++ gap))
               (map (stringify (indent ++ gap)) items)
          ++ newline indent ++ [93%N]
      end
  | JObj members =>
      match members with
      | [] => lit "{}"
      | _ :: _ =>
          123%N :: newline (indent ++ gap)
          ++ join (44%N :: newline (indent ++ gap))
               (map (fun kv =>
                       quote (fst kv) ++ colon
                       ++ stringify (indent ++ gap) (snd kv)) members)
          ++ newline indent ++ [125%N]
      end
  end.

End Stringify.

(** The role strings. *)
Definition role_text (r : role) : jsstring :=
  match r with
  | user => lit "user"
  | assistant => lit "assistant"
  | bot => lit "bot"
  end.

(** [{ role, content }] *)
Definition message_value (m : message) : value :=
  JObj [(lit "role", JStr (role_text (role_of m)));
        (lit "content", JStr (content m))].

(** [{ id, title, messages, updatedAt }], the properties in the order
    [createNewSession] creates them. *)
Definition session_value (s : session) : value :=
  JObj [(lit "id", JStr (id s));
        (lit "title", JStr (title s));
        (lit "messages", JArr (map message_value (messages s)));
        (lit "updatedAt", JNum (Number_toString (updatedAt s)))].

(** [JSON.stringify(sessions)], the text [saveSessions] stores. *)
Definition sessions_text (l : list session) : jsstring :=
  stringify [] [] (JArr (map session_value l)).

(** [JSON.stringify(session, null, 2)] *)
Definition export_text (s : session) : jsstring :=
  stringify (lit "  ") [] (session_value s).

(** The [href] of the download link of the export button; [None] is the
    URIError of [encodeURIComponent]. *)
Definition export_href (s : session) : option jsstring :=
  option_map (app (lit "data:text/json;charset=utf-8,"))
    (Uri.encodeURIComponent (export_text s)).

(** *** Notions for the properties of the serialization *)

(** The lexeme of a JSON number, as the reader of [JSON.parse] follows
    it. *)
Definition num_start (c : jschar) : option numst :=
  if (c =? 45)%N then Some NMinus
  else if (c =? 48)%N then Some NZero
  else if is_digit c then Some NInt
  else None.

Fixpoint num_run (n : numst) (t : jsstring) : option numst :=
  match t with
  | [] => Some n
  | c :: t' =>
      match num_next n c with
      | Some n' => num_run n' t'
      | None => None
      end
  end.

Definition number_ok (lexeme : jsstring) : bool :=
  match lexeme with
  | [] => false
  | c :: t =>
      match num_start c with
      | Some n =>
          match num_run n t with
          | Some n' => num_final n'
          | None => false
          end
      | None => false
      end
  end.

(** A value all of whose numbers are lexemes of JSON numbers. *)
Fixpoint printable (v : value) : Prop :=
  match v with
  | JNum lexeme => number_ok lexeme = true
  | JArr items =>
      (fix all (l : list value) : Prop :=
         match l with
         | [] => True
         | x :: l' => printable x /\ all l'
         end) items
  | JObj members =>
      (fix all (l : list (jsstring * value)) : Prop :=
         match l with
         | [] => True
         | kv :: l' => printable (snd kv) /\ all l'
         end) members
  | _ => True
  end.

(** What the reader does once the value [v] is complete under the open
    containers [st], with [rest] left to read. *)
Definition resume (v : value) (st : list frame) (rest : jsstring)
  : option state :=
  match complete v st with
  | Some s => Json.run s rest
  | None => None
  end.

(** Where the reader is at the end of the text of [v]: the value is
    complete, or it is a number that the next code unit will close. *)
Definition settled (v : value) (st : list frame) (r : option state) : Prop :=
  r = complete v st
  \/ exists lexeme n,
       v = JNum lexeme
       /\ r = Some {| stack := st; mode_of := MNum (rev lexeme) n |}
       /\ num_final n = true.

(** The reader stands well after the text that [JSON.stringify], with the
    gap [gap], makes of [x], wherever it starts to read it. *)
Definition reads (gap : jsstring) (x : value) : Prop :=
  printable x ->
  forall indent st b,
    forallb is_ws indent = true ->
    settled x st
      (Json.run {| stack := st; mode_of := MValue b |}
         (stringify gap indent x)).

(** What may follow a value: white space, a comma, a closing bracket. *)
Definition delimiter (c : jschar) : bool :=
  is_ws c || (c =? 44)%N || (c =? 93)%N || (c =? 125)%N.

(** The strings of a value (names of members and string values) and the
    lexemes of its numbers. *)
Fixpoint strings (v : value) : list jsstring :=
  match v with
  | JStr s => [s]
  | JArr items => flat_map strings items
  | JObj members => flat_map (fun kv => fst kv :: strings (snd kv)) members
  | _ => []
  end.

Fixpoint numbers (v : value) : list jsstring :=
  match v with
  | JNum lexeme => [lexeme]
  | JArr items => flat_map numbers items
  | JObj members => flat_map (fun kv => numbers (snd kv)) members
  | _ => []
  end.

(** No surrogate without its pair. *)
Fixpoint well_paired (s : jsstring) : bool :=
  match s with
  | [] => true
  | c :: s' =>
      if Uri.is_lead c then
        match s' with
        | d :: s'' => Uri.is_trail d && well_paired s''
        | [] => false
        end
      else negb (Uri.is_trail c) && well_paired s'
  end.

(** Every code unit of the text is one (below [2^16]). *)
Definition units (s : jsstring) : bool :=
  forallb (fun u => (u <? 65536)%N) s.

Definition session_units (s : session) : bool :=
  units (id s) && units (title s)
  && forallb (fun m => units (content m)) (messages s).

(** The payload of a record that carries the fragment [f]:
    [{"choices":[{"delta":{"content":f}}]}]. *)
Definition delta_value (f : jsstring) : value :=
  JObj [(lit "choices",
         JArr [JObj [(lit "delta", JObj [(lit "content", JStr f)])]])].

(** The record, as a JSON encoder without white space writes it. *)
Definition delta_record (f : jsstring) : jsstring :=
  lit "data: " ++ stringify [] [] (delta_value f).

(** The event of the stream that carries the record: the record and an
    empty line. *)
Definition event (f : jsstring) : jsstring :=
  delta_record f ++ [10%N; 10%N].

(** The event that ends the stream. *)
Definition done_event : jsstring :=
  lit "data: [DONE]" ++ [10%N; 10%N].

(** A transport chunk that holds the events of the fragments [g], none of
    them cut. *)
Definition chunk_of (g : list jsstring) : jsstring :=
  List.concat (map event g).

(** A session with a line feed, a quotation mark and an unpaired
    surrogate in its texts. *)
Definition awkward_session : session :=
  {| id := lit "1700000000000";
     title := [34%N; 104%N; 105%N; 34%N];
     messages := [{| role_of := user;
                     content := [104%N; 10%N; 55357%N; 92%N] |};
                  {| role_of := assistant; content := lit "it's" |}];
     updatedAt := 1700000000009 |}.

End Persist.

(* ===================================================================== *)
(** ** The records of a stream, as the sender writes them *)
(* ===================================================================== *)

Module Wire.
Import Json Stream Records Persist.

(** The delta fragment of the payload of a record, as the API documents
    it: the string at [choices[0].delta.content], and the empty text when
    the choices, the delta of the first choice or its content are absent
    or [null].  [None] when the value has another shape (no object, no
    array of choices or an empty one, a first choice or a delta that is no
    object, a content that is no string): it is then no record of the
    API. *)
Definition content_of (v : value) : option jsstring :=
  match v with
  | JObj members =>
      match lookup (lit "choices") members with
      | None | Some JNull => Some []
      | Some (JArr (JObj choice :: _)) =>
          match lookup (lit "delta") choice with
          | None | Some JNull => Some []
          | Some (JObj delta) =>
              match lookup (lit "content") delta with
              | None | Some JNull => Some []
              | Some (JStr f) => Some f
              | Some _ => None
              end
          | Some _ => None
          end
      | Some _ => None
      end
  | _ => None
  end.

(** A record of the stream: one whose payload is the text a JSON encoder
    makes of the value [v]; or one whose payload is the text [payload],
    which is no JSON text. *)
Inductive record :=
| Data (v : value)
| Garbage (payload : jsstring).

(** The line of the record. *)
Definition record_line (r : record) : jsstring :=
  match r with
  | Data v => lit "data: " ++ stringify [] [] v
  | Garbage payload => lit "data: " ++ payload
  end.

(** The delta fragment of the record: garbage has none. *)
Definition fragment (r : record) : jsstring :=
  match r with
  | Data v => match content_of v with Some f => f | None => [] end
  | Garbage _ => []
  end.

Definition is_garbage (r : record) : bool :=
  match r with
  | Data _ => false
  | Garbage _ => true
  end.

(** The records the property is about.  A well-formed one is a record of
    the API, whose numbers are JSON numbers.  Garbage is what it is said
    to be: one line, whose payload fails to parse as JSON (and is not the
    terminator, which is never parsed). *)
Definition admissible (r : record) : bool :=
  match r with
  | Data v =>
      forallb number_ok (numbers v)
      && match content_of v with Some _ => true | None => false end
  | Garbage payload =>
      forallb (fun c => negb (N.eqb c 10)) payload
      && malformed (lit "data: " ++ payload)
  end.

(** A transport chunk that holds the events of the records [g], none of
    them cut: each record on its line, followed by an empty line. *)
Definition chunk_of_records (g : list record) : jsstring :=
  List.concat (map (fun r => record_line r ++ [10%N; 10%N]) g).

(** A record as the API sends it, with the fragment [f]. *)
Definition api_record (f : jsstring) : value :=
  JObj [(lit "id", JStr (lit "chatcmpl-1"));
        (lit "object", JStr (lit "chat.completion.chunk"));
        (lit "created", JNum (lit "1700000000"));
        (lit "choices",
         JArr [JObj [(lit "index", JNum (lit "0"));
                     (lit "delta", JObj [(lit "content", JStr f)]);
                     (lit "finish_reason", JNull)]])].

(** The record that ends a reply: an empty delta. *)
Definition stop_record : value :=
  JObj [(lit "choices",
         JArr [JObj [(lit "index", JNum (lit "0"));
                     (lit "delta", JObj []);
                     (lit "finish_reason", JStr (lit "stop"))]])].

(** The spec's test: a malformed record between two valid ones, the
    second valid one in a chunk of its own, with the record that ends the
    reply. *)
Definition interleaved : list (list record) :=
  [[Data (api_record (lit "Hel")); Garbage (lit "{not json")];
   [Data (delta_value (lit "lo")); Data stop_record]].

End Wire.

(* ===================================================================== *)
(** ** Properties of the stream consumer *)
(* ===================================================================== *)

Import Json Stream Records.

Lemma startsWith_app (p s : jsstring) : startsWith p (p ++ s) = true.
Proof.
  induction p as [|x p IH]; simpl; [reflexivity|].
  now rewrite N.eqb_refl.
Qed.

Lemma startsWith_inv (p s : jsstring) :
  startsWith p s = true -> exists t, s = p ++ t.
Proof.
  revert s; induction p as [|x p IH]; intros s H; simpl in *.
  - now exists s.
  - destruct s as [|y s]; [discriminate|].
    apply andb_true_iff in H as [Hxy Hp].
    apply N.eqb_eq in Hxy; subst y.
    destruct (IH _ Hp) as [t ->]. now exists t.
Qed.

Lemma str_eqb_eq (a b : jsstring) : str_eqb a b = true <-> a = b.
Proof.
  revert b; induction a as [|x a IH]; intros [|y b]; simpl; split;
    try discriminate; try reflexivity.
  - intros H. apply andb_true_iff in H as [H1 H2].
    apply N.eqb_eq in H1. apply IH in H2. now subst.
  - intros H. injection H as -> ->. rewrite N.eqb_refl. now apply IH.
Qed.

Lemma str_eqb_refl (a : jsstring) : str_eqb a a = true.
Proof. now apply str_eqb_eq. Qed.

(** [split] never returns the empty list. *)
Lemma split_cons (sep : jschar) (s : jsstring) :
  exists l ls, split sep s = l :: ls.
Proof.
  destruct s as [|c s]; simpl; [now eexists; eexists|].
  destruct (N.eqb c sep); [now eexists; eexists|].
  destruct (split sep s); now eexists; eexists.
Qed.

(** Splitting around one separator: the pieces before it, then the pieces
    after it. *)
Lemma split_app_sep (sep : jschar) (a b : jsstring) :
  split sep (a ++ sep :: b) = split sep a ++ split sep b.
Proof.
  induction a as [|c a IH]; simpl.
  - now rewrite N.eqb_refl.
  - destruct (N.eqb c sep) eqn:E.
    + now rewrite IH.
    + rewrite IH. destruct (split_cons sep a) as (l & ls & ->). reflexivity.
Qed.

(** A text without the separator is one piece. *)
Lemma split_no_sep (sep : jschar) (s : jsstring) :
  forallb (fun c => negb (N.eqb c sep)) s = true -> split sep s = [s].
Proof.
  induction s as [|c s IH]; simpl; [reflexivity|].
  intros H. apply andb_true_iff in H as [Hc Hs].
  apply negb_true_iff in Hc. rewrite Hc, (IH Hs). reflexivity.
Qed.

Section StreamProperties.
Context {ops : NumberOps}.

Lemma consume_app (st : consumer) (a b : list jsstring) :
  consume st (a ++ b) = consume (consume st a) b.
Proof. unfold consume. apply fold_left_app. Qed.

Lemma handle_chunk_app_sep (st : consumer) (a b : jsstring) :
  handle_chunk st (a ++ 10%N :: b) = handle_chunk (handle_chunk st a) b.
Proof.
  unfold handle_chunk. rewrite split_app_sep. apply fold_left_app.
Qed.

Lemma handle_line_done (st : consumer) :
  handle_line st (lit "data: [DONE]") = st.
Proof. reflexivity. Qed.

Lemma handle_line_empty (st : consumer) : handle_line st [] = st.
Proof. reflexivity. Qed.

(** The consumer is the line loop over all the lines of all the chunks. *)
Lemma consume_lines (chunks : list jsstring) (st : consumer) :
  consume st chunks = fold_left handle_line (lines_of chunks) st.
Proof.
  revert st; induction chunks as [|c chunks IH]; intros st; simpl.
  - reflexivity.
  - unfold lines_of; simpl. rewrite fold_left_app.
    rewrite <- IH. reflexivity.
Qed.

(** C1, as amended: the consumer stops only when the chunks end.  It
    consumes every chunk the reader delivers (consuming [before ++ after]
    is consuming [after] from where [before] left off); a [data: [DONE]]
    line changes nothing, and the lines after it, in the same chunk or in
    later chunks, are handled as if it were not there. *)
Theorem done_is_skipped_not_final (st : consumer) :
  (forall before after : list jsstring,
      consume st (before ++ after) = consume (consume st before) after)
  /\ handle_line st (lit "data: [DONE]") = st
  /\ (forall c1 c2 : jsstring,
         handle_chunk st (c1 ++ 10%N :: lit "data: [DONE]" ++ 10%N :: c2)
         = handle_chunk st (c1 ++ 10%N :: c2))
  /\ (forall chunks1 chunks2 : list jsstring,
         consume st (chunks1 ++ unlines [lit "data: [DONE]"] :: chunks2)
         = consume st (chunks1 ++ chunks2)).
Proof.
  split; [intros; apply consume_app|].
  split; [reflexivity|].
  split.
  - intros c1 c2.
    rewrite (handle_chunk_app_sep st c1).
    rewrite (handle_chunk_app_sep _ (lit "data: [DONE]") c2).
    rewrite (handle_chunk_app_sep st c1 c2).
    reflexivity.
  - intros chunks1 chunks2.
    rewrite !consume_app. reflexivity.
Qed.

Lemma handle_line_logged (st : consumer) (line : jsstring) :
  handle_line (log_error st) line = log_error (handle_line st line).
Proof.
  unfold handle_line.
  destruct (startsWith _ line && _); [|reflexivity].
  destruct (parse _) as [data|]; [|reflexivity].
  destruct (delta_step data); reflexivity.
Qed.

Lemma fold_handle_line_logged (lines : list jsstring) (st : consumer) :
  fold_left handle_line lines (log_error st)
  = log_error (fold_left handle_line lines st).
Proof.
  revert st; induction lines as [|l lines IH]; intros st; simpl.
  - reflexivity.
  - rewrite handle_line_logged. apply IH.
Qed.

Lemma handle_line_malformed (st : consumer) (line : jsstring) :
  malformed line = true -> handle_line st line = log_error st.
Proof.
  unfold malformed, handle_line. intros H.
  apply andb_true_iff in H as [H Hp].
  rewrite H. destruct (parse (slice 6 line)); [discriminate|reflexivity].
Qed.

End StreamProperties.

(** C1, as stated, fails: a delta fragment in a record after the
    [data: [DONE]] record is accumulated into the response and handed to
    the renderer. *)
Lemma fragment_after_done_is_accumulated :
  consume (ops := lexeme_ops) start
    [unlines [qlit "data: {'choices':[{'delta':{'content':'Hel'}}]}";
              lit "data: [DONE]";
              qlit "data: {'choices':[{'delta':{'content':'lo'}}]}"]]
  = {| botResponse := lit "Hello";
       renders := [lit "Hel"; lit "Hello"];
       logged := 0 |}.
Proof. vm_compute. reflexivity. Qed.

(* ===================================================================== *)
(** ** Properties of the session store and of handleSend *)
(* ===================================================================== *)

Import App Titles Samples.

Lemma nth_error_set_nth_eq {A : Type} (l : list A) (i : nat) (x y : A) :
  nth_error l i = Some y -> nth_error (set_nth i x l) i = Some x.
Proof.
  revert i; induction l as [|a l IH]; intros [|i] H; simpl in *;
    try discriminate; [reflexivity | now apply IH].
Qed.

Lemma nth_error_set_nth_ne {A : Type} (l : list A) (i j : nat) (x : A) :
  i <> j -> nth_error (set_nth i x l) j = nth_error l j.
Proof.
  revert i j; induction l as [|a l IH]; intros [|i] [|j] H; simpl;
    try reflexivity; [congruence | apply IH; congruence].
Qed.

Lemma length_set_nth {A : Type} (l : list A) (i : nat) (x : A) :
  List.length (set_nth i x l) = List.length l.
Proof.
  revert i; induction l as [|a l IH]; intros [|i]; simpl; auto.
Qed.

(** Replacing an object by one with the same id does not change what
    [find] finds. *)
Lemma find_session_set_nth (h : list session) (l : list nat) (i : jsstring)
  (r : nat) (s s' : session) :
  nth_error h r = Some s -> id s' = id s ->
  find_session (set_nth r s' h) l i = find_session h l i.
Proof.
  intros Hr Hid. induction l as [|x l IH]; simpl; [reflexivity|].
  destruct (Nat.eq_dec r x) as [->|Hne].
  - rewrite (nth_error_set_nth_eq _ _ s' _ Hr), Hr, Hid, IH. reflexivity.
  - rewrite (nth_error_set_nth_ne _ _ _ s' Hne), IH. reflexivity.
Qed.

Lemma find_session_some (h : list session) (l : list nat) (i : jsstring)
  (r : nat) :
  find_session h l i = Some r ->
  exists s, nth_error h r = Some s /\ id s = i.
Proof.
  induction l as [|x l IH]; simpl; [discriminate|].
  destruct (nth_error h x) as [s|] eqn:Hx; [|exact IH].
  destruct (str_eqb (id s) i) eqn:E; [|exact IH].
  intros H; injection H as <-. exists s. split; [exact Hx|].
  now apply str_eqb_eq.
Qed.

(** [substring(0, 30)] and the conditional marker, against the title of
    the specification. *)
Lemma code_title_is_derived_title (c : jsstring) :
  substring0 30 c ++ (if Nat.ltb 30 (List.length c) then lit "..." else [])
  = derived_title c.
Proof.
  unfold derived_title, substring0.
  destruct (Nat.ltb 30 (List.length c)) eqn:E; [reflexivity|].
  apply Nat.ltb_ge in E. rewrite app_nil_r. now apply firstn_all2.
Qed.

Lemma derived_title_long (c : jsstring) :
  30 < List.length c ->
  derived_title c = firstn 30 c ++ lit "..."
  /\ List.length (derived_title c) = 33.
Proof.
  intros H. unfold derived_title.
  apply Nat.ltb_lt in H as H'. rewrite H'. split; [reflexivity|].
  rewrite length_app, length_firstn.
  change (List.length (lit "...")) with 3. lia.
Qed.

Lemma derived_title_short (c : jsstring) :
  List.length c <= 30 -> derived_title c = c.
Proof.
  intros H. unfold derived_title.
  apply Nat.ltb_ge in H. now rewrite H.
Qed.

(** *** How the operations touch the store *)

Lemma appendMessage_store (r : role) (c : jsstring) (w : world) :
  store (world_of (appendMessage r c w)) = store w.
Proof.
  unfold appendMessage. destruct (Uri.encodeURIComponent c); reflexivity.
Qed.

Lemma appendMessages_store (ms : list message) (w : world) :
  store (world_of (appendMessages ms w)) = store w.
Proof.
  revert w; induction ms as [|m ms IH]; intros w; simpl; [reflexivity|].
  unfold andThen.
  destruct (appendMessage (role_of m) (content m) w) as [w1|w1] eqn:E.
  - rewrite IH. change w1 with (world_of (Returned w1)).
    rewrite <- E. apply appendMessage_store.
  - change w1 with (world_of (Threw w1)) at 1.
    rewrite <- E. apply appendMessage_store.
Qed.

Lemma store_heap (w w' : world) : store w' = store w -> heap w' = heap w.
Proof. unfold store. congruence. Qed.

Lemma store_pending (w w' : world) :
  store w' = store w -> pending w' = pending w.
Proof. unfold store. congruence. Qed.

Lemma store_current (w w' : world) :
  store w' = store w -> currentSessionId w' = currentSessionId w.
Proof. unfold store. congruence. Qed.

Lemma store_sessions (w w' : world) :
  store w' = store w -> sessions w' = sessions w.
Proof. unfold store. congruence. Qed.

Lemma store_stored (w w' : world) :
  store w' = store w -> stored_sessions w' = stored_sessions w.
Proof. unfold store. congruence. Qed.

Lemma store_requests (w w' : world) :
  store w' = store w -> requests w' = requests w.
Proof. unfold store. congruence. Qed.

(** [loadSession] sets the current id and leaves the objects, the stored
    items and the suspended sends alone. *)
Lemma loadSession_effect (i : jsstring) (w : world) :
  let w' := world_of (loadSession i w) in
  heap w' = heap w /\ pending w' = pending w
  /\ currentSessionId w' = Some i
  /\ stored_sessions w' = stored_sessions w
  /\ stored_key w' = stored_key w
  /\ requests w' = requests w.
Proof.
  unfold loadSession.
  set (w0 := set_nodes _ [] (set_current (Some i) w)).
  assert (H0 : store w0 = (heap w, sessions w, Some i, stored_sessions w,
                           stored_key w, prompts w, requests w, pending w))
    by reflexivity.
  set (drawn := match find_session (heap w0) (sessions w0) i with
                | Some r => match nth_error (heap w0) r with
                            | Some s => appendMessages (messages s) w0
                            | None => Returned w0
                            end
                | None => Returned w0
                end).
  assert (Hd : store (world_of drawn) = store w0).
  { unfold drawn. destruct (find_session _ _ i) as [r|]; [|reflexivity].
    destruct (nth_error _ r) as [s|]; [|reflexivity].
    apply appendMessages_store. }
  rewrite H0 in Hd. unfold store in Hd.
  destruct drawn as [w1|w1]; simpl in *; injection Hd as -> _ -> -> -> _ -> ->;
    repeat split; reflexivity.
Qed.

Lemma Number_toString_nonempty (n : N) : nonempty (Number_toString n) = true.
Proof.
  unfold Number_toString, NilZero.string_of_uint.
  destruct (N.to_uint n); reflexivity.
Qed.

(** [createNewSession] allocates one object without messages. *)
Lemma createNewSession_effect (a b : N) (w : world) :
  let w' := world_of (createNewSession a b w) in
  heap w' = heap w ++ [{| id := Number_toString a; title := lit "New Chat";
                          messages := []; updatedAt := b |}]
  /\ pending w' = pending w
  /\ currentSessionId w' = Some (Number_toString a)
  /\ stored_key w' = stored_key w
  /\ requests w' = requests w.
Proof.
  unfold createNewSession. cbv zeta.
  match goal with |- context [loadSession ?i ?w0] =>
    destruct (loadSession_effect i w0) as (Hh & Hp & Hc & _ & Hk & Hr)
  end.
  rewrite Hh, Hp, Hc, Hk, Hr. repeat split; reflexivity.
Qed.

Lemma ensureApiKey_store (cfg : config) (reply : option jsstring) (w : world) :
  let w' := snd (ensureApiKey cfg reply w) in
  heap w' = heap w /\ sessions w' = sessions w /\ pending w' = pending w
  /\ currentSessionId w' = currentSessionId w
  /\ stored_sessions w' = stored_sessions w
  /\ requests w' = requests w.
Proof.
  unfold ensureApiKey.
  destruct (nonempty (getApiKey cfg w)); [repeat split; reflexivity|].
  destruct reply as [u|]; [|repeat split; reflexivity].
  destruct (nonempty u && nonempty (trim u)); repeat split; reflexivity.
Qed.

(** The user's message is pushed and the title updated: the object found
    for the current id gets the message, and the derived title exactly
    when the message is its first; no other object changes. *)
Lemma push_and_title (w0 : world) (cur c : jsstring) (now : N) (r : nat)
  (s : session) :
  find_session (heap w0) (sessions w0) cur = Some r ->
  nth_error (heap w0) r = Some s ->
  let m := {| role_of := user; content := c |} in
  let w2 := updateSessionTitle cur c
              (set_heap (set_nth r (push_message m now s) (heap w0)) w0) in
  heap w2 = set_nth r (after_user_message c now s) (heap w0)
  /\ pending w2 = pending w0
  /\ requests w2 = requests w0
  /\ stored_key w2 = stored_key w0
  /\ stored_sessions w2
     = match messages s with
       | [] => Some (deref (heap w2) (sessions w0))
       | _ :: _ => stored_sessions w0
       end.
Proof.
  intros Hf Hr m w2. subst w2. unfold updateSessionTitle, after_user_message.
  cbn [heap sessions set_heap].
  rewrite (find_session_set_nth _ _ _ _ _ (push_message m now s) Hr eq_refl).
  rewrite Hf, (nth_error_set_nth_eq _ _ _ _ Hr).
  cbn [messages push_message]. rewrite length_app. cbn [List.length].
  destruct (messages s) as [|m0 ms] eqn:Hm; cbn [List.length Nat.add Nat.eqb].
  - rewrite code_title_is_derived_title.
    cbn [id title updatedAt messages push_message app].
    assert (Hset : forall (x y : session) (l : list session) (i : nat),
               set_nth i x (set_nth i y l) = set_nth i x l).
    { intros x y l. induction l as [|a l IH]; intros [|i]; simpl;
        try reflexivity. now rewrite IH. }
    cbn. rewrite Hset. repeat split; reflexivity.
  - replace (Nat.eqb (List.length ms + 1) 0) with false
      by (symmetry; apply Nat.eqb_neq; lia).
    cbn. unfold push_message. rewrite Hm. repeat split; reflexivity.
Qed.

(** What the synchronous part of [handleSend] does to the objects and to
    the suspended sends: possibly one new object ([extra]); then either
    nothing more, or the user's message pushed to one object, with or
    without a new suspended send holding that object. *)
Lemma begin_effect (cfg : config) (inp : send_input) (w : world) :
  let b := handleSend_begin cfg inp w in
  let w' := world_after b in
  let c := trim (chatInput w) in
  exists extra,
    (is_suspended b = false /\ heap w' = heap w ++ extra
     /\ pending w' = pending w)
    \/ (exists r s,
          nth_error (heap w ++ extra) r = Some s
          /\ heap w' = set_nth r (after_user_message c (now_user inp) s)
                         (heap w ++ extra)
          /\ ((is_suspended b = false /\ pending w' = pending w)
              \/ (exists p, b = Suspended w' p /\ p_session p = r
                            /\ waiting p = true
                            /\ pending w' = pending w ++ [p]))).
Proof.
  intros b w' c. subst b w'. unfold handleSend_begin. fold c.
  destruct (nonempty c) eqn:Hc; cbn [negb].
  2:{ exists []. left. rewrite app_nil_r. repeat split; reflexivity. }
  pose proof (ensureApiKey_store cfg (prompt_reply inp) w) as He.
  destruct (ensureApiKey cfg (prompt_reply inp) w) as [apiKey w1].
  cbn [snd] in He. destruct He as (Hh1 & Hs1 & Hp1 & Hc1 & _).
  destruct (nonempty apiKey); cbn [negb].
  2:{ exists []. left. rewrite app_nil_r. cbn. repeat split; congruence. }
  set (o := if no_current (currentSessionId w1)
            then createNewSession (now_id inp) (now_stamp inp) w1
            else Returned w1).
  assert (Ho : exists extra, heap (world_of o) = heap w ++ extra
                             /\ pending (world_of o) = pending w).
  { unfold o. destruct (no_current (currentSessionId w1)).
    - destruct (createNewSession_effect (now_id inp) (now_stamp inp) w1)
        as (Hh & Hp & _).
      eexists. rewrite Hh, Hp, Hh1, Hp1. split; reflexivity.
    - exists []. cbn. rewrite app_nil_r. split; congruence. }
  destruct Ho as (extra & Hh2 & Hp2). exists extra.
  destruct o as [w2|w2]; cbn [before world_of] in *.
  2:{ left. cbn. repeat split; assumption. }
  destruct (currentSessionId w2) as [cur|].
  2:{ left. cbn. repeat split; assumption. }
  destruct (find_session (heap w2) (sessions w2) cur) as [r|] eqn:Hf.
  2:{ left. cbn. repeat split; assumption. }
  destruct (nth_error (heap w2) r) as [s|] eqn:Hr.
  2:{ left. cbn. repeat split; assumption. }
  right. exists r, s. rewrite <- Hh2. split; [exact Hr|].
  destruct (push_and_title w2 cur c (now_user inp) r s Hf Hr)
    as (Hh3 & Hp3 & _).
  cbv zeta in Hh3, Hp3.
  set (w3 := updateSessionTitle cur c _) in *.
  pose proof (appendMessage_store user c w3) as Ha.
  destruct (appendMessage user c w3) as [w4|w4]; cbn [before world_of] in *.
  2:{ cbn. rewrite (store_heap _ _ Ha), (store_pending _ _ Ha).
      split; [exact Hh3|]. left. split; [reflexivity|congruence]. }
  set (w5 := set_input [] true w4).
  pose proof (appendMessage_store bot thinking w5) as Hb.
  destruct (appendMessage bot thinking w5) as [w6|w6];
    cbn [before world_of] in *.
  2:{ cbn. rewrite (store_heap _ _ Hb), (store_pending _ _ Hb).
      change (heap w5) with (heap w4). change (pending w5) with (pending w4).
      rewrite (store_heap _ _ Ha), (store_pending _ _ Ha).
      split; [exact Hh3|]. left. split; [reflexivity|congruence]. }
  cbn [world_after heap set_requests pending].
  rewrite (store_heap _ _ Hb), (store_pending _ _ Hb).
  change (heap w5) with (heap w4). change (pending w5) with (pending w4).
  rewrite (store_heap _ _ Ha), (store_pending _ _ Ha).
  split; [exact Hh3|]. right.
  eexists. split; [reflexivity|]. cbn. repeat split. congruence.
Qed.

(** After a send that went through, the object the send holds ends with
    the user's message. *)
Lemma suspended_session (cfg : config) (inp : send_input) (w w' : world)
  (p : pending_send) :
  handleSend_begin cfg inp w = Suspended w' p ->
  exists extra s,
    nth_error (heap w ++ extra) (p_session p) = Some s
    /\ nth_error (heap w') (p_session p)
       = Some (after_user_message (trim (chatInput w)) (now_user inp) s).
Proof.
  intros Hb. destruct (begin_effect cfg inp w) as (extra & H).
  rewrite Hb in H. cbn [world_after is_suspended] in H.
  destruct H as [(H & _) | (r & s & Hr & Hh & [(H & _) | (q & Hq & Hs & _)])];
    try discriminate.
  injection Hq as <-. subst r. exists extra, s. split; [exact Hr|].
  rewrite Hh. eapply nth_error_set_nth_eq; exact Hr.
Qed.

(** C6: title truncation.  When a send appends the first message of its
    session, the message is the trimmed input [c], and the title becomes
    the first 30 code units of [c] followed by the marker ["..."] (33 code
    units in all) if [c] is longer than 30, and [c] itself otherwise. *)
Theorem first_message_sets_title (cfg : config) (inp : send_input)
  (w w' : world) (p : pending_send) :
  handleSend_begin cfg inp w = Suspended w' p ->
  let c := trim (chatInput w) in
  exists s',
    nth_error (heap w') (p_session p) = Some s'
    /\ (forall m, messages s' = [m] ->
          m = {| role_of := user; content := c |}
          /\ (30 < List.length c ->
              title s' = substring0 30 c ++ lit "..."
              /\ List.length (title s') = 33)
          /\ (List.length c <= 30 -> title s' = c)).
Proof.
  intros Hb c.
  destruct (suspended_session cfg inp w w' p Hb) as (extra & s & _ & Hs').
  eexists. split; [exact Hs'|].
  intros m Hm. unfold after_user_message in Hm. cbn [messages] in Hm.
  fold c in Hm.
  destruct (messages s) as [|m0 ms] eqn:Hms.
  - cbn in Hm. injection Hm as <-. split; [reflexivity|].
    unfold after_user_message. cbn [title]. rewrite Hms. fold c.
    split.
    + intros Hlong. exact (derived_title_long c Hlong).
    + intros Hshort. exact (derived_title_short c Hshort).
  - cbn in Hm. injection Hm as _ Hm. destruct ms; discriminate.
Qed.





Lemma first_message_sets_title_witness :
  let c := trim (chatInput typed_45) in
  exists s',
    nth_error (heap one_suspended) 0 = Some s'
    /\ (forall m, messages s' = [m] ->
          m = {| role_of := user; content := c |}
          /\ (30 < List.length c ->
              title s' = substring0 30 c ++ lit "..."
              /\ List.length (title s') = 33)
          /\ (List.length c <= 30 -> title s' = c)).
Proof.
  refine (first_message_sets_title sample_config sample_input typed_45
            one_suspended {| p_session := 0; p_bot := 1; waiting := true |} _).
  vm_compute. reflexivity.
Defined.

Section SendProperties.
Context {ops : NumberOps} {markup : Markup}.

(** C8: on a 401 response the cached key is removed from storage and
    nothing is sent again: the list of requests is as it was and the send
    is retired, not suspended anew.  With no build-time or environment key,
    the next key resolution then finds no key and shows the prompt. *)
Theorem unauthorized_purges_key (cfg : config) (w : world) (k : nat)
  (p : pending_send) (body : option jsstring) (now : N) :
  nth_error (pending w) k = Some p ->
  waiting p = true ->
  let w' := handleSend_settle k (HttpError 401 body) now w in
  stored_key w' = None
  /\ requests w' = requests w
  /\ pending w'
     = set_nth k {| p_session := p_session p; p_bot := p_bot p;
                    waiting := false |} (pending w)
  /\ (meta_key cfg = [] -> process_key cfg = [] ->
      getApiKey cfg w' = []
      /\ forall reply : option jsstring,
           prompts (snd (ensureApiKey cfg reply w')) = S (prompts w')).
Proof.
  intros Hk Hw w'. subst w'.
  unfold handleSend_settle. rewrite Hk, Hw. cbn [negb].
  change (401 =? 401)%N with true. cbv iota.
  unfold retire. rewrite Hk.
  set (w1 := set_stored_key None (set_requests _ _ w)).
  set (msg := lit "Invalid API Key. Please refresh and enter a valid key.").
  assert (H1 : stored_key (fail_send p msg w1) = None
               /\ requests (fail_send p msg w1) = requests w
               /\ pending (fail_send p msg w1)
                  = set_nth k {| p_session := p_session p; p_bot := p_bot p;
                                 waiting := false |} (pending w)
               /\ prompts (fail_send p msg w1) = prompts w).
  { unfold fail_send, set_shown.
    destruct (nth_error (nodes w1) (p_bot p)); repeat split; reflexivity. }
  destruct H1 as (Hkey & Hreq & Hpen & _).
  split; [exact Hkey|]. split; [exact Hreq|]. split; [exact Hpen|].
  intros Hm Hpk.
  assert (Hg : getApiKey cfg (fail_send p msg w1) = [])
    by (unfold getApiKey; rewrite Hm, Hpk, Hkey; reflexivity).
  split; [exact Hg|]. intros reply. unfold ensureApiKey. rewrite Hg.
  cbn [nonempty]. destruct reply as [u|]; [|reflexivity].
  destruct (nonempty u && nonempty (trim u)); reflexivity.
Qed.

End SendProperties.

Lemma unauthorized_purges_key_witness :
  let w' := handleSend_settle (ops := lexeme_ops) (markup := plain_markup) 0
              (HttpError 401 None) 1700000000003 one_suspended in
  stored_key w' = None
  /\ requests w' = requests one_suspended
  /\ pending w'
     = set_nth 0 {| p_session := 0; p_bot := 1; waiting := false |}
         (pending one_suspended)
  /\ (meta_key sample_config = [] -> process_key sample_config = [] ->
      getApiKey sample_config w' = []
      /\ forall reply : option jsstring,
           prompts (snd (ensureApiKey sample_config reply w')) = S (prompts w')).
Proof.
  refine (unauthorized_purges_key (ops := lexeme_ops) (markup := plain_markup)
      sample_config
            one_suspended 0
            {| p_session := 0; p_bot := 1; waiting := true |} None
            1700000000003 _ _); vm_compute; reflexivity.
Defined.

(** *** Where the code departs from the specification *)

(** The toast of the redact button depends on the lengths alone. *)
Lemma redact_click_compares_lengths (v : jsstring) :
  nonempty v = true ->
  Redactor.redact_click v
  = (Redactor.redact v,
     if Nat.eqb (List.length (Redactor.redact v)) (List.length v)
     then Redactor.NoneFound else Redactor.Redacted).
Proof.
  intros H. unfold Redactor.redact_click. rewrite H. cbn [negb].
  rewrite str_eqb_refl. cbn [negb]. rewrite orb_false_r.
  destruct (Nat.eqb _ _); reflexivity.
Qed.

(** C2 on the code: an e-mail address of 16 code units is replaced by the
    16 code units of its placeholder, and the handler reports that nothing
    was found. *)
Lemma equal_length_redaction_reports_none :
  Redactor.redact_click (lit "abcdefgh@ijkl.mn")
  = (lit "[REDACTED_EMAIL]", Redactor.NoneFound).
Proof. vm_compute. reflexivity. Qed.


(** C3 on the code: in a session that already has messages, the user's
    message is in memory when the request is sent, and storage still holds
    the session without it; if the request then fails, storage is never
    written. *)
Lemma later_user_message_not_persisted :
  let w := run (ops := lexeme_ops) (markup := plain_markup) sample_config
             [Load 0; Input (lit "more"); Send sample_input]
             (boot (Some [earlier_exchange]) (Some (lit "sk-test"))) in
  let w' := step (ops := lexeme_ops) (markup := plain_markup) sample_config
              (Settle 0 (NetworkError (lit "Failed to fetch")) 1700000000009)
              w in
  map (fun s => map content (messages s)) (deref (heap w) (sessions w))
  = [[lit "hello"; lit "Hi!"; lit "more"]]
  /\ map waiting (pending w) = [true]
  /\ stored_sessions w = Some [earlier_exchange]
  /\ map (fun s => map content (messages s)) (deref (heap w') (sessions w'))
     = [[lit "hello"; lit "Hi!"; lit "more"]]
  /\ stored_sessions w' = Some [earlier_exchange].
Proof. vm_compute. repeat split; reflexivity. Qed.

Section Persistence.
Context {ops : NumberOps} {markup : Markup}.

(** The reply path persists: when a stream ends normally, storage holds
    exactly the sessions in memory. *)
Lemma reply_is_persisted (w : world) (k : nat) (p : pending_send)
  (chunks : list jsstring) (now : N) :
  nth_error (pending w) k = Some p ->
  waiting p = true ->
  let w' := handleSend_settle k (HttpOk chunks None) now w in
  stored_sessions w' = Some (deref (heap w') (sessions w')).
Proof.
  intros Hk Hw. unfold handleSend_settle. rewrite Hk, Hw. cbn [negb].
  cbv zeta.
  set (st := consume start chunks).
  match goal with
  | |- context [saveSessions ?x] => set (w1 := x)
  end.
  assert (H1 : stored_sessions (saveSessions w1)
               = Some (deref (heap (saveSessions w1))
                         (sessions (saveSessions w1)))) by reflexivity.
  destruct (Uri.encodeURIComponent (botResponse st)).
  - destruct (icon_in_reply st); [exact H1|].
    unfold set_onclick. cbn [nodes set_input].
    destruct (nth_error (nodes (saveSessions w1)) (p_bot p)); exact H1.
  - unfold fail_send, set_shown. cbn [nodes].
    destruct (nth_error (nodes (saveSessions w1)) (p_bot p)); exact H1.
Qed.

End Persistence.

(** C9 on the code: [encodeURIComponent] leaves the apostrophe as it is,
    so the handler text of a message with an apostrophe is not a call of
    [copyText] on one literal, and the click copies nothing; this holds
    for the user's message and for a streamed reply alike. *)
Lemma apostrophe_breaks_copy :
  let w := run (ops := lexeme_ops) (markup := plain_markup) sample_config
             [Input (lit "it's"); Send sample_input;
              Settle 0
                (HttpOk
                   [unlines
                      [qlit "data: {'choices':[{'delta':{'content':'it\u0027s'}}]}";
                       lit "data: [DONE]"]] None) 1700000000009]
             (boot None (Some (lit "sk-test"))) in
  Uri.encodeURIComponent (lit "it's") = Some (lit "it's")
  /\ map (fun s => map content (messages s)) (heap w)
     = [[lit "it's"; lit "it's"]]
  /\ map onclick (nodes w) = [lit "copyText('it's')"; lit "copyText('it's')"]
  /\ Uri.click_copy (lit "copyText('it's')") = None
  /\ clipboard (run (ops := lexeme_ops) (markup := plain_markup)
      sample_config [Copy 0; Copy 1] w)
     = None.
Proof. vm_compute. repeat split; reflexivity. Qed.

(** *** The title is set once *)















Section TitleOnce.
Context {ops : NumberOps} {markup : Markup}.








End TitleOnce.


(* ===================================================================== *)
(** ** A record cut in two by the transport *)
(* ===================================================================== *)

Import Lexical.

Lemma run_app (s : state) (a b : jsstring) :
  Json.run s (a ++ b)
  = match Json.run s a with
    | Some s' => Json.run s' b
    | None => None
    end.
Proof.
  revert s; induction a as [|c a IH]; intros s; simpl; [reflexivity|].
  destruct (Json.step s c); [apply IH|reflexivity].
Qed.

Lemma complete_shape (v : value) (st : list frame) (s' : state) :
  complete v st = Some s' ->
  outside s' = true /\ wf s' = true
  /\ (st = [] -> top_level s' = true).
Proof.
  destruct st as [|[items|ms|ms k] st]; simpl; intros H;
    try discriminate; injection H as <-; repeat split; try reflexivity;
    discriminate.
Qed.

Lemma step_after_shape (st : list frame) (m : mode) (c : jschar) (s' : state) :
  step_after st m c = Some s' -> outside s' = true /\ wf s' = true.
Proof.
  destruct m; simpl; try discriminate.
  - destruct (is_ws c); [intros H; injection H as <-; now split|].
    destruct (c =? 44)%N.
    { destruct st as [|[items|ms|ms k] st]; intros H; try discriminate;
        injection H as <-; now split. }
    destruct (c =? 93)%N.
    { destruct st as [|[items|ms|ms k] st]; intros H; try discriminate.
      now apply complete_shape in H. }
    destruct (c =? 125)%N; [|discriminate].
    destruct st as [|[items|ms|ms k] st]; intros H; try discriminate.
    now apply complete_shape in H.
  - destruct (is_ws c); [|discriminate].
    intros H; injection H as <-; now split.
Qed.

Ltac split_branches :=
  repeat match goal with
         | |- context [match ?x with _ => _ end] => destruct x eqn:?
         end.

Ltac close_shape :=
  let H := fresh "H" in
  intros H;
  first [ discriminate H
        | injection H as <-; reflexivity
        | apply complete_shape in H; tauto
        | apply step_after_shape in H; tauto ].

(** The reader's invariant on literals. *)
Lemma step_wf (s : state) (c : jschar) (s' : state) :
  wf s = true -> Json.step s c = Some s' -> wf s' = true.
Proof.
  destruct s as [st m]. unfold Json.step, wf at 1. cbn [stack mode_of].
  intros Hwf.
  destruct m as [ok|ok| | |v|k acc e|lex n|rest v];
    try (split_branches; close_shape).
  destruct rest as [|x rest]; [discriminate|].
  destruct (c =? x)%N; [|discriminate].
  destruct rest as [|y rest].
  - close_shape.
  - intros H; injection H as <-. simpl in *.
    now apply andb_true_iff in Hwf as [_ Hwf].
Qed.

Lemma run_wf (text : jsstring) (s s' : state) :
  wf s = true -> Json.run s text = Some s' -> wf s' = true.
Proof.
  revert s; induction text as [|c text IH]; intros s Hwf; simpl.
  - intros H; now injection H as <-.
  - destruct (Json.step s c) as [s1|] eqn:E; [|discriminate].
    apply IH. eapply step_wf; eassumption.
Qed.

(** *** A proper prefix of a document is not a document *)

Lemma num_next_not_brace (n : numst) : num_next n 125%N = None.
Proof. destruct n; reflexivity. Qed.

(** Once the document is complete (or a number at top level), only white
    space may follow, or more of the number: never a closing brace. *)
Lemma step_top_level (s : state) (c : jschar) (s' : state) :
  top_level s = true -> Json.step s c = Some s' ->
  top_level s' = true /\ (c =? 125)%N = false.
Proof.
  destruct s as [st m]. unfold top_level at 1, Json.step.
  cbn [stack mode_of].
  destruct st as [|fr st]; [|discriminate].
  destruct m as [ok|ok| | |v|k acc e|lex n|rest v]; try discriminate;
    intros _.
  - cbn [step_after]. destruct (is_ws c) eqn:Hws; [|discriminate].
    intros H; injection H as <-. split; [reflexivity|].
    destruct (c =? 125)%N eqn:E; [|reflexivity].
    apply N.eqb_eq in E; subst c. discriminate.
  - destruct (num_next n c) as [n'|] eqn:Hn.
    + intros H; injection H as <-. split; [reflexivity|].
      destruct (c =? 125)%N eqn:E; [|reflexivity].
      apply N.eqb_eq in E; subst c. now rewrite num_next_not_brace in Hn.
    + destruct (num_final n); [|discriminate].
      cbn [complete stack mode_of step_after].
      destruct (is_ws c) eqn:Hws; [|discriminate].
      intros H; injection H as <-. split; [reflexivity|].
      destruct (c =? 125)%N eqn:E; [|reflexivity].
      apply N.eqb_eq in E; subst c. discriminate.
Qed.

Lemma run_top_level (text : jsstring) (s s' : state) :
  top_level s = true -> Json.run s text = Some s' ->
  existsb (N.eqb 125%N) text = false.
Proof.
  revert s; induction text as [|c text IH]; intros s Ht;
    cbn [Json.run existsb]; [reflexivity|].
  destruct (Json.step s c) as [s1|] eqn:E; [|discriminate].
  destruct (step_top_level _ _ _ Ht E) as (Ht1 & Hc).
  intros H. rewrite N.eqb_sym, Hc. cbn [orb]. eapply IH; eassumption.
Qed.

Lemma finish_top_level (s : state) (v : value) :
  finish s = Some v -> top_level s = true /\ outside s = true.
Proof.
  destruct s as [st m]. unfold finish, top_level, outside.
  cbn [stack mode_of].
  destruct m; try discriminate; destruct st; try discriminate; now split.
Qed.

(** If the rest of a document still holds a closing brace, what came
    before is not a document. *)
Lemma parse_prefix_fails (p rest : jsstring) (v : value) :
  parse (p ++ rest) = Some v ->
  existsb (N.eqb 125%N) rest = true ->
  parse p = None.
Proof.
  unfold parse. rewrite run_app.
  destruct (Json.run initial p) as [sp|]; [|reflexivity].
  destruct (Json.run sp rest) as [sj|] eqn:Hrun; [|discriminate].
  intros _ Hbrace.
  destruct (finish sp) as [v'|] eqn:Hf; [|reflexivity].
  apply finish_top_level in Hf as [Ht _].
  rewrite (run_top_level _ _ _ Ht Hrun) in Hbrace. discriminate.
Qed.

(** *** A tail of a document that follows [data: ] is not a document *)

Lemma wf_not_d (rest : jsstring) (x : jschar) :
  forallb (one_of "rueals") (x :: rest) = true -> (100 =? x)%N = false.
Proof.
  cbn [forallb]. intros H. apply andb_true_iff in H as [H _].
  destruct (100 =? x)%N eqn:E; [|reflexivity].
  apply N.eqb_eq in E; subst x. discriminate.
Qed.

(** Decides the tests of the goal that are closed. *)
Ltac eval_tests :=
  repeat match goal with
         | |- context [if ?b then _ else _] =>
             let v := eval vm_compute in b in
             match v with
             | true => change b with true
             | false => change b with false
             end; cbv iota
         | |- context [match ?o with Some _ => _ | None => _ end] =>
             let v := eval vm_compute in o in
             match v with
             | Some _ => change o with v
             | None => change o with v
             end; cbv iota beta
         end.

(** The letter d can only be read inside a string. *)
Lemma step_d (s s' : state) :
  wf s = true -> Json.step s 100%N = Some s' -> in_text s' = true.
Proof.
  destruct s as [st m]. unfold Json.step, wf. cbn [stack mode_of].
  intros Hwf.
  destruct m as [ok|ok| | |v|k acc e|lex n|rest v].
  - eval_tests. discriminate.
  - eval_tests. discriminate.
  - eval_tests. discriminate.
  - unfold step_after. eval_tests. discriminate.
  - unfold step_after. eval_tests. discriminate.
  - destruct e as [| |have a]; eval_tests.
    + intros H; injection H as <-. reflexivity.
    + discriminate.
    + destruct (Nat.eqb have 3); intros H; injection H as <-; reflexivity.
  - destruct n; eval_tests; try discriminate;
      (destruct (complete (JNum (rev lex)) st) as [s1|]; [|discriminate]);
      unfold step_after; destruct (mode_of s1); eval_tests; discriminate.
  - destruct rest as [|x rest]; [discriminate|].
    rewrite (wf_not_d _ _ Hwf). discriminate.
Qed.

(** After [data: ] the reader is inside a string, not in an escape. *)
Lemma run_data_prefix (s s' : state) :
  wf s = true -> Json.run s (lit "data: ") = Some s' -> in_plain s' = true.
Proof.
  intros Hwf. change (lit "data: ") with ([100; 97; 116; 97; 58; 32]%N).
  cbn [Json.run].
  destruct (Json.step s 100%N) as [s1|] eqn:E1; [|discriminate].
  pose proof (step_d _ _ Hwf E1) as H1.
  destruct s1 as [st m]. unfold in_text in H1. cbn [mode_of] in H1.
  destruct m as [ok|ok| | |v|k acc e|lex n|rest v]; try discriminate.
  destruct e as [| |have a]; try discriminate.
  - unfold Json.step. cbn [stack mode_of]. eval_tests.
    intros H; injection H as <-. reflexivity.
  - unfold Json.step at 1. cbn [stack mode_of]. eval_tests.
    destruct (Nat.eqb have 3).
    + unfold Json.step. cbn [stack mode_of]. eval_tests.
      intros H; injection H as <-. reflexivity.
    + unfold Json.step. cbn [stack mode_of]. eval_tests. discriminate.
Qed.

Lemma wf_not_quote (rest : jsstring) (x : jschar) :
  forallb (one_of "rueals") (x :: rest) = true ->
  (34 =? x)%N = false /\ (92 =? x)%N = false.
Proof.
  cbn [forallb]. intros H. apply andb_true_iff in H as [H _].
  split.
  - destruct (34 =? x)%N eqn:E; [|reflexivity].
    apply N.eqb_eq in E; subst x. discriminate.
  - destruct (92 =? x)%N eqn:E; [|reflexivity].
    apply N.eqb_eq in E; subst x. discriminate.
Qed.

Ltac close_outside :=
  let H := fresh "H" in
  intros H;
  first [ discriminate H
        | injection H as <-; reflexivity
        | apply complete_shape in H; tauto
        | apply step_after_shape in H; tauto ].

(** Inside a string, any unit but the quote and the backslash keeps the
    reader inside. *)
Lemma step_plain_other (s s' : state) (c : jschar) :
  in_plain s = true -> (c =? 34)%N = false -> (c =? 92)%N = false ->
  Json.step s c = Some s' -> in_plain s' = true.
Proof.
  destruct s as [st m]. unfold in_plain at 1, Json.step.
  cbn [stack mode_of].
  destruct m as [ok|ok| | |v|k acc e|lex n|rest v]; try discriminate.
  destruct e; try discriminate. intros _ -> ->.
  destruct (c <? 32)%N; [discriminate|].
  intros H; injection H as <-. reflexivity.
Qed.

(** Inside a string, the quote takes the reader outside. *)
Lemma step_plain_quote (s s' : state) :
  in_plain s = true -> Json.step s 34%N = Some s' -> outside s' = true.
Proof.
  destruct s as [st m]. unfold in_plain at 1, Json.step.
  cbn [stack mode_of].
  destruct m as [ok|ok| | |v|k acc e|lex n|rest v]; try discriminate.
  destruct e; try discriminate. intros _. eval_tests.
  destruct k.
  - destruct st as [|[?|?|? ?] st]; close_outside.
  - close_outside.
Qed.

(** Outside a string, any unit but the quote keeps the reader outside. *)
Lemma step_outside_other (s s' : state) (c : jschar) :
  outside s = true -> (c =? 34)%N = false ->
  Json.step s c = Some s' -> outside s' = true.
Proof.
  destruct s as [st m]. unfold outside at 1, Json.step.
  cbn [stack mode_of].
  destruct m as [ok|ok| | |v|k acc e|lex n|rest v]; try discriminate;
    intros _ Hq; rewrite ?Hq; split_branches; close_outside.
Qed.

(** Outside a string, the quote takes the reader inside, and the
    backslash is refused. *)
Lemma step_outside_quote (s : state) :
  outside s = true -> wf s = true ->
  Json.step s 92%N = None
  /\ forall s', Json.step s 34%N = Some s' -> in_plain s' = true.
Proof.
  destruct s as [st m]. unfold outside, wf, Json.step.
  cbn [stack mode_of].
  destruct m as [ok|ok| | |v|k acc e|lex n|rest v]; try discriminate;
    intros _ Hwf.
  - eval_tests. split; [reflexivity|]. intros s' H; injection H as <-.
    reflexivity.
  - eval_tests. split; [reflexivity|]. intros s' H; injection H as <-.
    reflexivity.
  - eval_tests. split; [reflexivity|]. discriminate.
  - unfold step_after. eval_tests. split; [reflexivity|]. discriminate.
  - unfold step_after. eval_tests. split; [reflexivity|]. discriminate.
  - assert (Hn : num_next n 92%N = None /\ num_next n 34%N = None)
      by (destruct n; split; reflexivity).
    destruct Hn as (-> & ->).
    destruct (num_final n); [|split; [reflexivity|discriminate]].
    destruct (complete (JNum (rev lex)) st) as [s1|];
      [|split; [reflexivity|discriminate]].
    unfold step_after. destruct (mode_of s1); eval_tests;
      (split; [reflexivity|discriminate]).
  - destruct rest as [|x rest]; [split; [reflexivity|discriminate]|].
    destruct (wf_not_quote _ _ Hwf) as (-> & ->).
    split; [reflexivity|discriminate].
Qed.

(** Two readers that stand on opposite sides of the quotes stay on
    opposite sides, as long as both go on. *)
Lemma step_opposite (a b a' : state) (c : jschar) :
  wf a = true -> wf b = true -> opposite a b = true ->
  Json.step a c = Some a' ->
  match Json.step b c with
  | Some b' => opposite a' b' = true
  | None => True
  end.
Proof.
  intros Wa Wb Ho Ha. unfold opposite in Ho.
  apply orb_true_iff in Ho as [Ho|Ho]; apply andb_true_iff in Ho as [H1 H2].
  - (* [a] inside, [b] outside *)
    destruct (step_outside_quote b H2 Wb) as (Hbs & Hq).
    destruct (c =? 92)%N eqn:E92.
    { apply N.eqb_eq in E92; subst c. now rewrite Hbs. }
    destruct (c =? 34)%N eqn:E34.
    { apply N.eqb_eq in E34; subst c.
      destruct (Json.step b 34%N) as [b'|] eqn:Hb; [|exact I].
      unfold opposite. rewrite (step_plain_quote _ _ H1 Ha), (Hq _ eq_refl).
      now rewrite orb_true_r. }
    destruct (Json.step b c) as [b'|] eqn:Hb; [|exact I].
    unfold opposite.
    rewrite (step_plain_other _ _ _ H1 E34 E92 Ha),
      (step_outside_other _ _ _ H2 E34 Hb).
    reflexivity.
  - (* [a] outside, [b] inside *)
    destruct (step_outside_quote a H1 Wa) as (Has & Hq).
    destruct (c =? 92)%N eqn:E92.
    { apply N.eqb_eq in E92; subst c. congruence. }
    destruct (c =? 34)%N eqn:E34.
    { apply N.eqb_eq in E34; subst c.
      destruct (Json.step b 34%N) as [b'|] eqn:Hb; [|exact I].
      unfold opposite. rewrite (Hq _ Ha), (step_plain_quote _ _ H2 Hb).
      reflexivity. }
    destruct (Json.step b c) as [b'|] eqn:Hb; [|exact I].
    unfold opposite.
    rewrite (step_outside_other _ _ _ H1 E34 Ha),
      (step_plain_other _ _ _ H2 E34 E92 Hb).
    now rewrite orb_true_r.
Qed.

Lemma run_opposite (text : jsstring) (a b a' : state) :
  wf a = true -> wf b = true -> opposite a b = true ->
  Json.run a text = Some a' ->
  match Json.run b text with
  | Some b' => opposite a' b' = true
  | None => True
  end.
Proof.
  revert a b; induction text as [|c text IH]; intros a b Wa Wb Ho;
    cbn [Json.run].
  - intros H; injection H as <-. exact Ho.
  - destruct (Json.step a c) as [a1|] eqn:Ha; [|discriminate].
    intros Hrun.
    pose proof (step_opposite a b a1 c Wa Wb Ho Ha) as Hs.
    destruct (Json.step b c) as [b1|] eqn:Hb; [|exact I].
    apply (IH a1 b1); try assumption.
    + exact (step_wf _ _ _ Wa Ha).
    + exact (step_wf _ _ _ Wb Hb).
Qed.

(** In a document, what follows an occurrence of [data: ] is not a
    document. *)
Lemma parse_tail_fails (a x : jsstring) (v : value) :
  parse (a ++ lit "data: " ++ x) = Some v -> parse x = None.
Proof.
  unfold parse. rewrite run_app.
  destruct (Json.run initial a) as [sa|] eqn:Ra; [|discriminate].
  rewrite run_app.
  destruct (Json.run sa (lit "data: ")) as [sd|] eqn:Rd; [|discriminate].
  destruct (Json.run sd x) as [sj|] eqn:Rj; [|discriminate].
  intros Hf. apply finish_top_level in Hf as [_ Hout].
  assert (Wa : wf sa = true) by (eapply run_wf; [|exact Ra]; reflexivity).
  assert (Wd : wf sd = true) by (eapply run_wf; [exact Wa|exact Rd]).
  pose proof (run_data_prefix _ _ Wa Rd) as Hin.
  assert (Ho : opposite sd initial = true)
    by (unfold opposite; rewrite Hin; reflexivity).
  pose proof (run_opposite x sd initial sj Wd eq_refl Ho Rj) as H.
  destruct (Json.run initial x) as [sx|]; [|reflexivity].
  unfold opposite in H. rewrite Hout in H.
  assert (Hnp : in_plain sj = false).
  { unfold in_plain, outside in *. destruct (mode_of sj); try reflexivity.
    discriminate. }
  rewrite Hnp in H. cbn in H.
  unfold finish, in_plain in *. destruct (mode_of sx); try reflexivity;
    try discriminate.
Qed.

Lemma startsWith_length (p s : jsstring) :
  startsWith p s = true -> List.length p <= List.length s.
Proof.
  revert s; induction p as [|x p IH]; intros [|y s]; simpl; try lia;
    try discriminate.
  intros H. apply andb_true_iff in H as [_ H]. apply IH in H. lia.
Qed.

(** Where a line [data: payload] can be cut: inside [data: ], and then
    neither piece starts with [data: ]; or after it, and then the first
    piece is [data: ] and a prefix of the payload. *)
Lemma cut_cases (payload l1 l2 : jsstring) :
  l1 ++ l2 = lit "data: " ++ payload -> l1 <> [] ->
  (startsWith (lit "data: ") l1 = false
   /\ startsWith (lit "data: ") l2 = false)
  \/ exists p, l1 = lit "data: " ++ p /\ payload = p ++ l2.
Proof.
  change (lit "data: ") with ([100; 97; 116; 97; 58; 32]%N).
  intros H Hne.
  destruct l1 as [|c1 [|c2 [|c3 [|c4 [|c5 [|c6 p]]]]]];
    [congruence| | | | | |];
    cbn [app] in H; injection H; intros; subst;
    try (left; split; reflexivity).
  right. exists p. split; reflexivity.
Qed.

Section SplitRecord.
Context {ops : NumberOps}.

(** A line that is not a record, or whose payload does not parse, leaves
    the response and the renderer as they are. *)
Lemma handle_line_unparsed (st : consumer) (line : jsstring) :
  startsWith (lit "data: ") line = false \/ parse (slice 6 line) = None ->
  botResponse (handle_line st line) = botResponse st
  /\ renders (handle_line st line) = renders st.
Proof.
  unfold handle_line. intros [H|H].
  - rewrite H. now split.
  - rewrite H. destruct (_ && _); now split.
Qed.

(** A record alone in its chunk, and cut in two chunks.  Delivered in one
    chunk, the record appends its fragment; delivered as two pieces, each
    piece is handled as a line of its own, neither parses, and the
    response and the renderer stay as they were. *)
Lemma cut_record_alone (st : consumer)
  (payload l1 l2 f : jsstring) (data : value) :
  parse payload = Some data ->
  delta_step data = Append f ->
  forallb (fun c => negb (c =? 10)%N) payload = true ->
  l1 ++ l2 = lit "data: " ++ payload ->
  l1 <> [] ->
  existsb (N.eqb 125%N) l2 = true ->
  consume st [l1 ++ l2] = append f st
  /\ consume st [l1; l2] = handle_line (handle_line st l1) l2
  /\ botResponse (consume st [l1; l2]) = botResponse st
  /\ renders (consume st [l1; l2]) = renders st.
Proof.
  intros Hparse Hdelta Hnl Hcut Hne Hbrace.
  assert (Hline : forallb (fun c => negb (c =? 10)%N) (l1 ++ l2) = true).
  { rewrite Hcut, forallb_app. apply andb_true_iff.
    split; [reflexivity|exact Hnl]. }
  pose proof Hline as Hline'. rewrite forallb_app in Hline'.
  apply andb_true_iff in Hline' as [Hn1 Hn2].
  assert (Hwhole : consume st [l1 ++ l2] = append f st).
  { unfold consume, handle_chunk. cbn [fold_left].
    rewrite (split_no_sep _ _ Hline). cbn [fold_left].
    rewrite Hcut. unfold handle_line. rewrite startsWith_app.
    change (slice 6 (lit "data: " ++ payload)) with payload.
    rewrite Hparse, Hdelta.
    destruct (str_eqb (lit "data: " ++ payload) (lit "data: [DONE]")) eqn:E;
      [|reflexivity].
    apply str_eqb_eq in E.
    change (lit "data: [DONE]") with (lit "data: " ++ lit "[DONE]") in E.
    apply app_inv_head in E. subst payload. discriminate. }
  assert (Hpieces : consume st [l1; l2] = handle_line (handle_line st l1) l2).
  { unfold consume, handle_chunk. cbn [fold_left].
    rewrite (split_no_sep _ _ Hn1), (split_no_sep _ _ Hn2). reflexivity. }
  split; [exact Hwhole|]. split; [exact Hpieces|]. rewrite Hpieces.
  assert (H1 : startsWith (lit "data: ") l1 = false
               \/ parse (slice 6 l1) = None).
  { destruct (cut_cases _ _ _ Hcut Hne) as [(H & _) | (p & -> & Hp)].
    - now left.
    - right. change (slice 6 (lit "data: " ++ p)) with p.
      subst payload. exact (parse_prefix_fails _ _ _ Hparse Hbrace). }
  assert (H2 : startsWith (lit "data: ") l2 = false
               \/ parse (slice 6 l2) = None).
  { destruct (cut_cases _ _ _ Hcut Hne) as [(_ & H) | (p & -> & Hp)].
    - now left.
    - destruct (startsWith (lit "data: ") l2) eqn:Hs; [|now left].
      right. apply startsWith_inv in Hs as (x & ->).
      change (slice 6 (lit "data: " ++ x)) with x.
      subst payload. exact (parse_tail_fails _ _ _ Hparse). }
  destruct (handle_line_unparsed st l1 H1) as (Hb1 & Hr1).
  destruct (handle_line_unparsed (handle_line st l1) l2 H2) as (Hb2 & Hr2).
  split; congruence.
Qed.

Lemma handle_line_same (a b : consumer) (line : jsstring) :
  same_text a b -> same_text (handle_line a line) (handle_line b line).
Proof.
  intros [Hb Hr]. unfold handle_line.
  destruct (startsWith (lit "data: ") line
            && negb (str_eqb line (lit "data: [DONE]"))); [|now split].
  destruct (parse (slice 6 line)) as [data|]; [|now split].
  destruct (delta_step data); [now split|now split|].
  unfold append, same_text. cbn [botResponse renders]. now rewrite Hb, Hr.
Qed.

Lemma fold_handle_line_same (lines : list jsstring) :
  forall a b, same_text a b ->
    same_text (fold_left handle_line lines a) (fold_left handle_line lines b).
Proof.
  induction lines as [|l lines IH]; intros a b H; [exact H|].
  cbn [fold_left]. apply IH. now apply handle_line_same.
Qed.

Lemma consume_same (chunks : list jsstring) (a b : consumer) :
  same_text a b -> same_text (consume a chunks) (consume b chunks).
Proof.
  intros H. rewrite !consume_lines. now apply fold_handle_line_same.
Qed.

(** A chunk that starts with whole lines: the lines are handled, then the
    rest of the chunk. *)
Lemma handle_chunk_unlines (pre : list jsstring) (x : jsstring) :
  forall st,
    handle_chunk st (unlines pre ++ x)
    = handle_chunk (handle_chunk st (unlines pre)) x.
Proof.
  induction pre as [|l pre IH]; intros st; [reflexivity|].
  unfold unlines in *. cbn [flat_map]. rewrite <- !app_assoc.
  cbn [app]. rewrite !handle_chunk_app_sep. apply IH.
Qed.

Lemma handle_chunk_line (st : consumer) (l : jsstring) :
  forallb (fun c => negb (c =? 10)%N) l = true ->
  handle_chunk st l = handle_line st l.
Proof.
  intros H. unfold handle_chunk. now rewrite (split_no_sep _ _ H).
Qed.

(** C10: no partial line is kept from one chunk to the next.  Take a
    record [data: payload] on one line whose payload parses and carries
    the delta fragment [f], and cut it in two non-empty pieces so that the
    second piece holds a closing brace of the payload.  Let whole lines
    [pre] come before it and, after the line feed that ends it, whole
    lines [post].  Delivered in one chunk, between those lines, the
    record appends [f].  Delivered in two chunks, the first ending with
    the first piece and the second starting with the second piece, each
    piece is handled as a line of its own: neither parses, nothing of the
    first chunk is kept for the second, and whatever chunks follow, the
    response and the texts handed to the renderer are those of the
    stream without the record: the fragment is dropped.  The same holds
    of the record alone, its two pieces being the two chunks. *)
Theorem split_record_is_dropped (st : consumer) (pre post : list jsstring)
  (payload l1 l2 f : jsstring) (data : value) :
  parse payload = Some data ->
  delta_step data = Append f ->
  forallb (fun c => negb (c =? 10)%N) payload = true ->
  l1 ++ l2 = lit "data: " ++ payload ->
  l1 <> [] ->
  existsb (N.eqb 125%N) l2 = true ->
  consume st [unlines pre ++ (l1 ++ l2) ++ 10%N :: unlines post]
  = consume (append f (consume st [unlines pre])) [unlines post]
  /\ consume st [unlines pre ++ l1; l2 ++ 10%N :: unlines post]
     = consume
         (handle_line (handle_line (consume st [unlines pre]) l1) l2)
         [unlines post]
  /\ (forall rest : list jsstring,
        same_text
          (consume st
             ((unlines pre ++ l1) :: (l2 ++ 10%N :: unlines post) :: rest))
          (consume st (unlines pre :: unlines post :: rest)))
  /\ consume st [l1 ++ l2] = append f st
  /\ consume st [l1; l2] = handle_line (handle_line st l1) l2
  /\ botResponse (consume st [l1; l2]) = botResponse st
  /\ renders (consume st [l1; l2]) = renders st.
Proof.
  intros Hparse Hdelta Hnl Hcut Hne Hbrace.
  assert (Hline : forallb (fun c => negb (c =? 10)%N) (l1 ++ l2) = true).
  { rewrite Hcut, forallb_app. apply andb_true_iff.
    split; [reflexivity|exact Hnl]. }
  pose proof Hline as Hline'. rewrite forallb_app in Hline'.
  apply andb_true_iff in Hline' as [Hn1 Hn2].
  set (s := consume st [unlines pre]).
  destruct (cut_record_alone s payload l1 l2 f data
              Hparse Hdelta Hnl Hcut Hne Hbrace) as (Hw & Hp & Hb & Hr).
  assert (Hcutform :
            consume st [unlines pre ++ l1; l2 ++ 10%N :: unlines post]
            = consume (handle_line (handle_line s l1) l2) [unlines post]).
  { unfold consume. cbn [fold_left].
    rewrite handle_chunk_unlines, handle_chunk_app_sep.
    now rewrite (handle_chunk_line _ l1 Hn1), (handle_chunk_line _ l2 Hn2). }
  split.
  { unfold consume. cbn [fold_left].
    rewrite handle_chunk_unlines, handle_chunk_app_sep.
    unfold consume in Hw. cbn [fold_left] in Hw. unfold s, consume in *.
    cbn [fold_left] in *. now rewrite Hw. }
  split; [exact Hcutform|]. split.
  { intros rest.
    change ((unlines pre ++ l1) :: (l2 ++ 10%N :: unlines post) :: rest)
      with ([unlines pre ++ l1; l2 ++ 10%N :: unlines post] ++ rest).
    change (unlines pre :: unlines post :: rest)
      with ([unlines pre] ++ [unlines post] ++ rest).
    rewrite !consume_app, Hcutform. fold s.
    apply consume_same, consume_same. rewrite <- Hp. now split. }
  exact (cut_record_alone st payload l1 l2 f data
           Hparse Hdelta Hnl Hcut Hne Hbrace).
Qed.

End SplitRecord.

Lemma split_record_is_dropped_witness :
  consume (ops := lexeme_ops) start
    [unlines lines_before ++ (cut_head ++ cut_tail)
     ++ 10%N :: unlines lines_after]
  = consume (ops := lexeme_ops)
      (append (lit "Hel")
         (consume (ops := lexeme_ops) start [unlines lines_before]))
      [unlines lines_after]
  /\ consume (ops := lexeme_ops) start
       [unlines lines_before ++ cut_head;
        cut_tail ++ 10%N :: unlines lines_after]
     = consume (ops := lexeme_ops)
         (handle_line (ops := lexeme_ops)
            (handle_line (ops := lexeme_ops)
               (consume (ops := lexeme_ops) start [unlines lines_before])
               cut_head) cut_tail)
         [unlines lines_after]
  /\ (forall rest : list jsstring,
        same_text
          (consume (ops := lexeme_ops) start
             ((unlines lines_before ++ cut_head)
              :: (cut_tail ++ 10%N :: unlines lines_after) :: rest))
          (consume (ops := lexeme_ops) start
             (unlines lines_before :: unlines lines_after :: rest)))
  /\ consume (ops := lexeme_ops) start [cut_head ++ cut_tail]
     = append (lit "Hel") start
  /\ consume (ops := lexeme_ops) start [cut_head; cut_tail]
     = handle_line (ops := lexeme_ops)
         (handle_line (ops := lexeme_ops) start cut_head) cut_tail
  /\ botResponse (consume (ops := lexeme_ops) start [cut_head; cut_tail])
     = botResponse start
  /\ renders (consume (ops := lexeme_ops) start [cut_head; cut_tail])
     = renders start.
Proof.
  refine (split_record_is_dropped (ops := lexeme_ops) start
            lines_before lines_after
            (qlit "{'choices':[{'delta':{'content':'Hel'}}]}")
            cut_head cut_tail (lit "Hel")
            (JObj [(lit "choices",
                    JArr [JObj [(lit "delta",
                                 JObj [(lit "content", JStr (lit "Hel"))])]])])
            _ _ _ _ _ _);
    try (vm_compute; reflexivity).
  discriminate.
Defined.

(** The same stream, whole and cut.  In one chunk the three records give
    [AHelB]; with the second record cut between two chunks they give
    [AB], and the piece that starts with [data: ] is logged. *)
Lemma split_record_example :
  consume (ops := lexeme_ops) start
    [unlines lines_before ++ (cut_head ++ cut_tail)
     ++ 10%N :: unlines lines_after]
  = {| botResponse := lit "AHelB";
       renders := [lit "A"; lit "AHel"; lit "AHelB"];
       logged := 0 |}
  /\ consume (ops := lexeme_ops) start
       [unlines lines_before ++ cut_head;
        cut_tail ++ 10%N :: unlines lines_after]
     = {| botResponse := lit "AB";
          renders := [lit "A"; lit "AB"];
          logged := 1 |}.
Proof. split; vm_compute; reflexivity. Qed.

(* ===================================================================== *)
(** ** The matcher against its declarative reading *)
(* ===================================================================== *)

Import Regex Matching.

Lemma lastb_app (b : option jschar) (u v : jsstring) :
  lastb b (u ++ v) = lastb (lastb b u) v.
Proof. revert b; induction u as [|c u IH]; intros b; simpl; auto. Qed.

Lemma after_after (x : mstate) (u v a a' : jsstring) :
  after (after x u a') v a = after x (u ++ v) a.
Proof.
  unfold after. cbn [behind consumed capture]. f_equal.
  - now rewrite lastb_app.
  - rewrite length_app. lia.
Qed.

Lemma after_nil (x : mstate) : after x [] (ahead x) = x.
Proof. destruct x. reflexivity. Qed.

(** What a run passes. *)
Lemma run_text (r : regex) (x y : mstate) :
  Run r x y ->
  exists w, ahead x = w ++ ahead y
            /\ consumed y = List.length w + consumed x
            /\ behind y = lastb (behind x) w.
Proof.
  revert x y; induction r as [p|p min max|r1 IH1 r2 IH2|r1 IH1 r2 IH2|r1 IH1| |];
    intros x y; cbn [Run].
  - intros (c & a & Hx & _ & ->). exists [c]. now rewrite Hx.
  - intros (w & a & Hx & _ & _ & _ & ->). exists w. now rewrite Hx.
  - intros (m & H1 & H2).
    destruct (IH1 _ _ H1) as (w1 & Ha1 & Hc1 & Hb1).
    destruct (IH2 _ _ H2) as (w2 & Ha2 & Hc2 & Hb2).
    exists (w1 ++ w2). rewrite Ha1, Ha2, Hc2, Hc1, Hb2, Hb1.
    rewrite app_assoc, length_app, lastb_app. repeat split. lia.
  - intros [H|H]; [now apply IH1|now apply IH2].
  - intros (y0 & H & ->). cbn. now apply IH1.
  - intros (_ & ->). exists []. now repeat split.
  - intros ->. exists []. now repeat split.
Qed.

(** The quantifier: what it returns came from the continuation, after a
    run of code units of the class within the bounds. *)
Lemma rep_sound (p : jschar -> bool) (s : jsstring) :
  forall (min : nat) (max : option nat) (b : option jschar) (n : nat)
         (cap : option (nat * nat)) (k : mstate -> option mstate)
         (z : mstate),
    rep p min max s b n cap k = Some z ->
    exists w a,
      s = w ++ a /\ forallb p w = true /\ min <= List.length w
      /\ match max with Some m => List.length w <= m | None => True end
      /\ k {| ahead := a; behind := lastb b w;
              consumed := List.length w + n; capture := cap |} = Some z.
Proof.
  induction s as [|c s IH]; intros min max b n cap k z.
  - cbn [rep].
    assert (Hstop : match min with
                    | O => k {| ahead := []; behind := b; consumed := n;
                                capture := cap |}
                    | S _ => None
                    end = Some z ->
                    exists w a : jsstring,
                      [] = w ++ a /\ forallb p w = true
                      /\ min <= List.length w
                      /\ match max with
                         | Some m => List.length w <= m
                         | None => True
                         end
                      /\ k {| ahead := a; behind := lastb b w;
                              consumed := List.length w + n;
                              capture := cap |} = Some z).
    { destruct min; [|discriminate]. intros H. exists [], [].
      repeat split; auto. destruct max; [cbn; lia|exact I]. }
    destruct max as [[|m]|]; exact Hstop.
  - cbn [rep].
    assert (Hstop : match min with
                    | O => k {| ahead := c :: s; behind := b; consumed := n;
                                capture := cap |}
                    | S _ => None
                    end = Some z ->
                    exists w a : jsstring,
                      c :: s = w ++ a /\ forallb p w = true
                      /\ min <= List.length w
                      /\ match max with
                         | Some m => List.length w <= m
                         | None => True
                         end
                      /\ k {| ahead := a; behind := lastb b w;
                              consumed := List.length w + n;
                              capture := cap |} = Some z).
    { destruct min; [|discriminate]. intros H. exists [], (c :: s).
      repeat split; auto. destruct max; [cbn; lia|exact I]. }
    assert (Hmore : forall max',
               (match max with
                | Some m => exists m', m = S m' /\ max' = Some m'
                | None => max' = None
                end) ->
               p c = true ->
               rep p (pred min) max' s (Some c) (S n) cap k = Some z ->
               exists w a : jsstring,
                 c :: s = w ++ a /\ forallb p w = true
                 /\ min <= List.length w
                 /\ match max with
                    | Some m => List.length w <= m
                    | None => True
                    end
                 /\ k {| ahead := a; behind := lastb b w;
                         consumed := List.length w + n;
                         capture := cap |} = Some z).
    { intros max' Hmax Hp H.
      destruct (IH _ _ _ _ _ _ _ H) as (w & a & -> & Hw & Hmin & Hbound & Hk).
      exists (c :: w), a. cbn [app forallb List.length lastb].
      rewrite Hp, Hw. repeat split; auto.
      - lia.
      - destruct max as [m|]; [|exact I].
        destruct Hmax as (m' & -> & ->). lia.
      - now rewrite <- plus_n_Sm in Hk. }
    destruct max as [[|m]|]; [exact Hstop| |].
    + destruct (p c) eqn:Hp; [|exact Hstop].
      cbn [option_map pred].
      destruct (rep p (pred min) (Some m) s (Some c) (S n) cap k) eqn:E;
        [|exact Hstop].
      intros H; injection H as ->.
      apply (Hmore (Some m)); auto. now exists m.
    + destruct (p c) eqn:Hp; [|exact Hstop].
      cbn [option_map].
      destruct (rep p (pred min) None s (Some c) (S n) cap k) eqn:E;
        [|exact Hstop].
      intros H; injection H as ->.
      apply (Hmore None); auto.
Qed.

(** Soundness: what the matcher returns came from the continuation, after
    a run of the pattern. *)
Lemma matcher_sound (r : regex) :
  forall (x : mstate) (k : mstate -> option mstate) (z : mstate),
    matcher r x k = Some z -> exists y, Run r x y /\ k y = Some z.
Proof.
  induction r as [p|p min max|r1 IH1 r2 IH2|r1 IH1 r2 IH2|r1 IH1| |];
    intros x k z; cbn [matcher Run].
  - destruct (ahead x) as [|c a] eqn:Hx; [discriminate|].
    destruct (p c) eqn:Hp; [|discriminate].
    intros H. eexists. split; [exists c, a; repeat split; auto|].
    exact H.
  - intros H. apply rep_sound in H as (w & a & Hx & Hw & Hmin & Hb & Hk).
    eexists. split; [exists w, a; repeat split; eauto|]. exact Hk.
  - intros H. apply IH1 in H as (m & H1 & H).
    apply IH2 in H as (y & H2 & H). exists y. split; [now exists m|exact H].
  - destruct (matcher r1 x k) as [z1|] eqn:E.
    + intros H; injection H as ->. apply IH1 in E as (y & H1 & H).
      exists y. split; [now left|exact H].
    + intros H. apply IH2 in H as (y & H2 & H).
      exists y. split; [now right|exact H].
  - intros H. apply IH1 in H as (y0 & H1 & H).
    eexists. split; [exists y0; split; [exact H1|reflexivity]|exact H].
  - destruct (xorb (word_before x) (word_after x)) eqn:E; [|discriminate].
    intros H. exists x. now repeat split.
  - intros H. now exists x.
Qed.

(** Completeness of the quantifier: if some run within the bounds leads to
    a position the continuation accepts, the quantifier returns a match. *)
Lemma rep_complete (p : jschar -> bool) (w : jsstring) :
  forall (a : jsstring) (min : nat) (max : option nat) (b : option jschar)
         (n : nat) (cap : option (nat * nat)) (k : mstate -> option mstate),
    forallb p w = true -> min <= List.length w ->
    match max with Some m => List.length w <= m | None => True end ->
    k {| ahead := a; behind := lastb b w; consumed := List.length w + n;
         capture := cap |} <> None ->
    rep p min max (w ++ a) b n cap k <> None.
Proof.
  induction w as [|c w IH]; intros a min max b n cap k Hw Hmin Hmax Hk.
  - cbn [List.length] in Hmin. assert (min = 0) by lia. subst min.
    cbn [app lastb List.length Nat.add] in *.
    destruct a as [|c a]; cbn [rep].
    + destruct max as [[|m]|]; exact Hk.
    + destruct max as [[|m]|]; [exact Hk| |];
        (destruct (p c); [|exact Hk]);
        match goal with
        | |- context [match ?e with Some _ => _ | None => _ end] =>
            destruct e; [discriminate|exact Hk]
        end.
  - cbn [forallb] in Hw. apply andb_true_iff in Hw as [Hc Hw].
    cbn [app rep]. cbn [List.length] in Hmin, Hmax, Hk.
    assert (Hrec : forall max',
               match max' with
               | Some m => List.length w <= m
               | None => True
               end ->
               rep p (pred min) max' (w ++ a) (Some c) (S n) cap k <> None).
    { intros max' Hmax'. apply IH; auto; [lia|].
      cbn [lastb] in Hk. now rewrite <- plus_n_Sm. }
    destruct max as [[|m]|]; [lia| |]; rewrite Hc; cbn [option_map pred].
    + specialize (Hrec (Some m)).
      destruct (rep p (pred min) (Some m) (w ++ a) (Some c) (S n) cap k);
        [discriminate|]. exfalso. apply Hrec; [lia|reflexivity].
    + specialize (Hrec None I).
      destruct (rep p (pred min) None (w ++ a) (Some c) (S n) cap k);
        [discriminate|]. exfalso. now apply Hrec.
Qed.

(** Completeness: if some run of the pattern leads to a position the
    continuation accepts, the matcher returns a match. *)
Lemma matcher_complete (r : regex) :
  forall (x y : mstate) (k : mstate -> option mstate),
    Run r x y -> k y <> None -> matcher r x k <> None.
Proof.
  induction r as [p|p min max|r1 IH1 r2 IH2|r1 IH1 r2 IH2|r1 IH1| |];
    intros x y k; cbn [matcher Run].
  - intros (c & a & Hx & Hp & ->) Hk. rewrite Hx, Hp. exact Hk.
  - intros (w & a & Hx & Hw & Hmin & Hmax & ->) Hk. rewrite Hx.
    now apply rep_complete.
  - intros (m & H1 & H2) Hk. apply (IH1 x m); [exact H1|].
    now apply (IH2 m y).
  - intros [H|H] Hk.
    + pose proof (IH1 x y k H Hk). destruct (matcher r1 x k);
        [discriminate|contradiction].
    + destruct (matcher r1 x k); [discriminate|]. now apply (IH2 x y).
  - intros (y0 & H & ->) Hk. now apply (IH1 x y0).
  - intros (E & ->) Hk. now rewrite E.
  - intros -> Hk. exact Hk.
Qed.

Lemma match_here_sound (r : regex) (b : option jschar) (s : jsstring)
  (y : mstate) :
  match_here r b s = Some y -> Run r (start b s) y.
Proof.
  intros H. apply matcher_sound in H as (y' & Hr & Hk).
  now injection Hk as <-.
Qed.

Lemma match_here_complete (r : regex) (b : option jschar) (s : jsstring)
  (y : mstate) :
  Run r (start b s) y -> match_here r b s <> None.
Proof.
  intros H. apply (matcher_complete r _ y); [exact H|discriminate].
Qed.

(** What a match passed is a prefix of the subject. *)
Lemma match_here_text (r : regex) (b : option jschar) (s : jsstring)
  (y : mstate) :
  match_here r b s = Some y ->
  exists w, s = w ++ ahead y /\ consumed y = List.length w
            /\ Run r (start b s) y.
Proof.
  intros H. apply match_here_sound in H.
  destruct (run_text _ _ _ H) as (w & Hs & Hc & _).
  exists w. cbn in *. rewrite Nat.add_0_r in Hc. auto.
Qed.

(** A run of a plain pattern depends on nothing but the text it passes. *)
Lemma run_transfer (r : regex) :
  plain r = true ->
  forall (x y : mstate) (w : jsstring),
    Run r x y -> ahead x = w ++ ahead y ->
    forall (b' : option jschar) (a' : jsstring) (n' : nat)
           (cap' : option (nat * nat)),
    exists y',
      Run r {| ahead := w ++ a'; behind := b'; consumed := n';
               capture := cap' |} y'
      /\ ahead y' = a' /\ consumed y' = List.length w + n'.
Proof.
  induction r as [p|p min max|r1 IH1 r2 IH2|r1 IH1 r2 IH2|r1 IH1| |];
    cbn [plain Run]; intros Hpl x y w.
  - intros (c & a & Hx & Hp & ->) Hw b' a' n' cap'. cbn in Hw.
    rewrite Hx in Hw.
    assert (w = [c]).
    { change (c :: a) with ([c] ++ a) in Hw.
      now apply app_inv_tail in Hw. }
    subst w. eexists. split; [exists c, a'; repeat split; auto|].
    now split.
  - intros (u & a & Hx & Hu & Hmin & Hmax & ->) Hw b' a' n' cap'.
    cbn in Hw. rewrite Hx in Hw. apply app_inv_tail in Hw. subst u.
    eexists. split; [exists w, a'; repeat split; eauto|]. now split.
  - apply andb_true_iff in Hpl as [Hp1 Hp2].
    intros (m & H1 & H2) Hw b' a' n' cap'.
    destruct (run_text _ _ _ H1) as (w1 & Ha1 & _).
    destruct (run_text _ _ _ H2) as (w2 & Ha2 & _).
    assert (w = w1 ++ w2).
    { rewrite Ha1, Ha2, app_assoc in Hw. now apply app_inv_tail in Hw. }
    subst w.
    destruct (IH1 Hp1 _ _ _ H1 Ha1 b' (w2 ++ a') n' cap')
      as (m' & R1 & Am & Cm).
    destruct m' as [am bm cm capm]. cbn in Am, Cm. subst am cm.
    destruct (IH2 Hp2 _ _ _ H2 Ha2 bm a' (List.length w1 + n') capm)
      as (y' & R2 & Ay & Cy).
    exists y'. rewrite <- app_assoc. split; [now eexists; split; eauto|].
    split; [exact Ay|]. rewrite Cy, length_app. lia.
  - apply andb_true_iff in Hpl as [Hp1 Hp2].
    intros [H|H] Hw b' a' n' cap'.
    + destruct (IH1 Hp1 _ _ _ H Hw b' a' n' cap') as (y' & R & A).
      exists y'. split; [now left|exact A].
    + destruct (IH2 Hp2 _ _ _ H Hw b' a' n' cap') as (y' & R & A).
      exists y'. split; [now right|exact A].
  - intros (y0 & H & ->) Hw b' a' n' cap'. cbn in Hw.
    destruct (IH1 Hpl _ _ _ H Hw b' a' n' cap') as (y' & R & A & C).
    eexists. split; [exists y'; split; [exact R|reflexivity]|].
    cbn. now split.
  - discriminate.
  - intros -> Hw b' a' n' cap'.
    assert (w = []).
    { rewrite <- (app_nil_l (ahead x)) in Hw at 1.
      now apply app_inv_tail in Hw. }
    subst w. eexists. split; [reflexivity|]. now split.
Qed.

(** If a plain pattern matches within [sigma] at the head of a text, it
    matches at the head of any text that starts with [sigma]. *)
Lemma transfer_plain (r : regex) (b1 b2 : option jschar)
  (sigma a1 a2 : jsstring) (y : mstate) :
  plain r = true ->
  match_here r b1 (sigma ++ a1) = Some y ->
  consumed y <= List.length sigma ->
  match_here r b2 (sigma ++ a2) <> None.
Proof.
  intros Hpl H Hn.
  destruct (match_here_text _ _ _ _ H) as (w & Hs & Hc & Hr).
  assert (Hsplit : exists s2, sigma = w ++ s2).
  { exists (skipn (List.length w) sigma).
    rewrite <- (firstn_skipn (List.length w) sigma) at 1. f_equal.
    assert (Hf : firstn (List.length w) (sigma ++ a1) = w)
      by (rewrite Hs; now rewrite firstn_app, Nat.sub_diag, firstn_all,
            firstn_O, app_nil_r).
    rewrite firstn_app in Hf.
    replace (List.length w - List.length sigma) with 0 in Hf by lia.
    now rewrite firstn_O, app_nil_r in Hf. }
  destruct Hsplit as (s2 & ->).
  rewrite <- app_assoc in Hs. apply app_inv_head in Hs.
  destruct (run_transfer r Hpl _ _ w Hr) with (b' := b2)
    (a' := s2 ++ a2) (n' := 0) (cap' := @None (nat * nat))
    as (y' & R & _).
  { cbn. now rewrite <- Hs, <- app_assoc. }
  rewrite <- app_assoc. eapply match_here_complete. exact R.
Qed.

(** For a plain pattern the code unit behind does not matter. *)
Lemma plain_behind (r : regex) (b1 b2 : option jschar) (s : jsstring) :
  plain r = true -> match_here r b1 s = None -> match_here r b2 s = None.
Proof.
  intros Hpl H. destruct (match_here r b2 s) as [y|] eqn:E; [|reflexivity].
  exfalso. destruct (match_here_text _ _ _ _ E) as (w & Hs & Hc & _).
  rewrite <- (app_nil_r s) in E.
  apply (transfer_plain r b2 b1 s [] [] y Hpl E).
  - rewrite Hc, Hs, length_app. lia.
  - now rewrite app_nil_r.
Qed.

(** Every code unit a run passes is in the alphabet of the pattern. *)
Lemma run_within (alpha : jschar -> bool) (r : regex) :
  within alpha r ->
  forall (x y : mstate) (w : jsstring),
    Run r x y -> ahead x = w ++ ahead y -> forallb alpha w = true.
Proof.
  induction r as [p|p min max|r1 IH1 r2 IH2|r1 IH1 r2 IH2|r1 IH1| |];
    cbn [within Run]; intros Hal x y w.
  - intros (c & a & Hx & Hp & ->) Hw. cbn in Hw. rewrite Hx in Hw.
    change (c :: a) with ([c] ++ a) in Hw. apply app_inv_tail in Hw.
    subst w. cbn. now rewrite (Hal _ Hp).
  - intros (u & a & Hx & Hu & _ & _ & ->) Hw. cbn in Hw.
    rewrite Hx in Hw. apply app_inv_tail in Hw. subst u.
    rewrite forallb_forall in *. auto.
  - destruct Hal as [Ha1 Ha2]. intros (m & H1 & H2) Hw.
    destruct (run_text _ _ _ H1) as (w1 & E1 & _).
    destruct (run_text _ _ _ H2) as (w2 & E2 & _).
    assert (w = w1 ++ w2).
    { rewrite E1, E2, app_assoc in Hw. now apply app_inv_tail in Hw. }
    subst w. rewrite forallb_app.
    now rewrite (IH1 Ha1 _ _ _ H1 E1), (IH2 Ha2 _ _ _ H2 E2).
  - destruct Hal as [Ha1 Ha2]. intros [H|H] Hw; eauto.
  - intros (y0 & H & ->) Hw. cbn in Hw. eauto.
  - intros (_ & ->) Hw. rewrite <- (app_nil_l (ahead x)) in Hw at 1.
    apply app_inv_tail in Hw. now subst w.
  - intros -> Hw. rewrite <- (app_nil_l (ahead x)) in Hw at 1.
    apply app_inv_tail in Hw. now subst w.
Qed.

(* ===================================================================== *)
(** ** The scan of replace *)
(* ===================================================================== *)

Lemma replace_skip (r : regex) (tpl : list piece) (m a : jsstring) :
  forall b,
    replace_from r tpl b (List.length m) (m ++ a)
    = replace_from r tpl (lastb b m) 0 a.
Proof.
  induction m as [|c m IH]; intros b; cbn [List.length app lastb].
  - reflexivity.
  - cbn [replace_from]. apply IH.
Qed.

Lemma match_here_bound (r : regex) (b : option jschar) (s : jsstring)
  (y : mstate) :
  match_here r b s = Some y -> consumed y <= List.length s.
Proof.
  intros H. destruct (match_here_text _ _ _ _ H) as (w & -> & -> & _).
  rewrite length_app. lia.
Qed.

(** [replace] scans as [Scan] says, for a pattern that matches no empty
    text. *)
Lemma scan_replace (r : regex) (tpl : list piece) :
  (forall b s y, match_here r b s = Some y -> consumed y <> 0) ->
  forall (n : nat) (s : jsstring) (b : option jschar),
    List.length s <= n -> Scan r tpl b s (replace_from r tpl b 0 s).
Proof.
  intros Hne. induction n as [|n IH]; intros s b Hlen.
  - destruct s; [|cbn in Hlen; lia]. cbn [replace_from].
    destruct (match_here r b []) as [y|] eqn:E; [|constructor].
    exfalso. apply (Hne _ _ _ E). apply match_here_bound in E. cbn in E. lia.
  - destruct s as [|c s].
    + cbn [replace_from].
      destruct (match_here r b []) as [y|] eqn:E; [|constructor].
      exfalso. apply (Hne _ _ _ E). apply match_here_bound in E.
      cbn in E. lia.
    + cbn [replace_from]. cbn in Hlen.
      destruct (match_here r b (c :: s)) as [y|] eqn:E.
      * destruct (consumed y) as [|k] eqn:Hk; [now apply Hne in E|].
        pose proof (match_here_bound _ _ _ _ E) as Hb. rewrite Hk in Hb.
        cbn in Hb.
        set (m := firstn k s). set (a := skipn k s).
        assert (Hs : s = m ++ a) by (symmetry; apply firstn_skipn).
        assert (Hm : List.length m = k)
          by (unfold m; rewrite length_firstn; lia).
        replace (firstn (S k) (c :: s)) with (c :: m) by reflexivity.
        clearbody m a. subst s. rewrite <- Hm at 1.
        rewrite replace_skip.
        change (lastb (Some c) m) with (lastb b (c :: m)).
        change (c :: m ++ a) with ((c :: m) ++ a).
        apply scan_hit.
        -- exact E.
        -- cbn. now rewrite Hk, Hm.
        -- discriminate.
        -- apply IH. rewrite length_app in Hlen. lia.
      * apply scan_keep; [exact E|]. apply IH. lia.
Qed.

Lemma replace_scan (r : regex) (tpl : list piece) (s : jsstring) :
  (forall b s y, match_here r b s = Some y -> consumed y <> 0) ->
  Scan r tpl None s (replace r tpl s).
Proof.
  intros Hne. unfold replace. now apply (scan_replace r tpl Hne (List.length s)).
Qed.

(** Where no match starts, [replace] changes nothing. *)
Lemma replace_nm (r : regex) (tpl : list piece) (s : jsstring) :
  forall b, nm r b s -> replace_from r tpl b 0 s = s.
Proof.
  induction s as [|c s IH]; intros b [H Hs]; cbn [replace_from].
  - now rewrite H.
  - rewrite H. f_equal. now apply IH.
Qed.

Lemma nm_app_inv (r : regex) (x y : jsstring) :
  forall b, nm r b (x ++ y) -> nm r (lastb b x) y.
Proof.
  induction x as [|c x IH]; intros b H; cbn [app lastb] in *.
  - exact H.
  - destruct H as [_ H]. now apply IH.
Qed.

(** No match starts inside [x] nor in [y]: none starts in [x ++ y]. *)
Lemma nm_app (r : regex) (x y : jsstring) :
  forall b,
    (forall x1 x2, x = x1 ++ x2 -> x2 <> [] ->
       match_here r (lastb b x1) (x2 ++ y) = None) ->
    nm r (lastb b x) y ->
    nm r b (x ++ y).
Proof.
  induction x as [|c x IH]; intros b Hx Hy; cbn [app lastb] in *.
  - exact Hy.
  - split.
    + apply (Hx [] (c :: x)); [reflexivity|discriminate].
    + apply IH; [|exact Hy].
      intros x1 x2 E Hne. apply (Hx (c :: x1) x2); [now rewrite E|exact Hne].
Qed.

(** For a plain pattern, [nm] does not depend on the code unit behind. *)
Lemma nm_plain (r : regex) (s : jsstring) :
  plain r = true -> forall b1 b2, nm r b1 s -> nm r b2 s.
Proof.
  intros Hpl. induction s as [|c s IH]; intros b1 b2 [H Hs]; split;
    try exact I; try (now apply (plain_behind r b1 b2)).
  exact Hs.
Qed.

(* ===================================================================== *)
(** ** A pass of replace against a plain pattern *)
(* ===================================================================== *)

Lemma tails_in (x x1 x2 : jsstring) :
  x = x1 ++ x2 -> x2 <> [] -> In x2 (tails x).
Proof.
  revert x; induction x1 as [|c x1 IH]; intros x -> Hne; cbn [app].
  - destruct x2; [contradiction|]. now left.
  - cbn [tails]. right. now apply IH.
Qed.

Section PlainTarget.
Variable r' : regex.
Variable B : jsstring.
Hypothesis Hplain : plain r' = true.
Hypothesis Hempty : match_here r' None [] = None.
Hypothesis Hinside :
  forall B2 out', In B2 (tails B) -> match_here r' None (B2 ++ out') = None.
Hypothesis Hfit :
  forall sigma out' y,
    match_here r' None (sigma ++ B ++ out') = Some y ->
    consumed y <= List.length sigma.

(** A match that would start in a kept stretch of the result would start
    at the same place in the subject. *)
Lemma clean_stretch (s out : jsstring) :
  Clean r' B s out ->
  forall sigma,
    match_here r' None (sigma ++ s) = None ->
    match_here r' None (sigma ++ out) = None.
Proof.
  induction 1 as [|c s out Hc Hcl IH|K m2 a out HK Hcl IH]; intros sigma Hs.
  - exact Hs.
  - change (sigma ++ c :: out) with (sigma ++ [c] ++ out).
    rewrite app_assoc. apply IH. now rewrite <- app_assoc.
  - destruct (match_here r' None (sigma ++ K ++ B ++ out)) as [y|] eqn:E;
      [|reflexivity].
    exfalso. rewrite app_assoc in E.
    pose proof (Hfit _ _ _ E) as Hn.
    apply (transfer_plain r' None None (sigma ++ K) _ (m2 ++ a) y
             Hplain E Hn).
    now rewrite <- app_assoc.
Qed.

Lemma clean_nm (s out : jsstring) :
  Clean r' B s out -> forall b, nm r' b out.
Proof.
  induction 1 as [|c s out Hc Hcl IH|K m2 a out HK Hcl IH]; intros b.
  - split; [|exact I]. now apply (plain_behind r' None b).
  - split; [|apply IH].
    apply (plain_behind r' None b _ Hplain).
    apply (clean_stretch s out Hcl [c]). exact Hc.
  - apply nm_app.
    + intros K1 K2 E Hne. apply (plain_behind r' None _ _ Hplain).
      now apply (HK K1 K2).
    + apply nm_app; [|apply IH].
      intros B1 B2 E Hne. apply (plain_behind r' None _ _ Hplain).
      apply Hinside. now apply (tails_in B B1 B2).
Qed.

(** A pass of another pattern over a subject in which [r'] matches
    nowhere. *)
Lemma scan_clean_preserve (r : regex) (tpl : list piece) :
  (forall b m a y,
      match_here r b (m ++ a) = Some y -> consumed y = List.length m ->
      exists K m2, m = K ++ m2 /\ expand tpl m (capture y) = K ++ B) ->
  forall b s out,
    Scan r tpl b s out -> forall bs, nm r' bs s -> Clean r' B s out.
Proof.
  intros Hshape b s out HS.
  induction HS as [b|b c s out Hc HS IH|b m a y out Hm Hlen Hne HS IH];
    intros bs Hnm.
  - constructor.
  - destruct Hnm as [H0 Hnm]. constructor.
    + now apply (plain_behind r' bs None).
    + now apply (IH (Some c)).
  - destruct (Hshape _ _ _ _ Hm Hlen) as (K & m2 & -> & ->).
    rewrite <- !app_assoc. constructor.
    + intros K1 K2 out' -> Hne2.
      destruct (match_here r' None (K2 ++ B ++ out')) as [y'|] eqn:E;
        [|reflexivity].
      exfalso.
      pose proof (Hfit _ _ _ E) as Hn.
      apply (transfer_plain r' None None K2 _ (m2 ++ a) y' Hplain E Hn).
      rewrite <- !app_assoc in Hnm.
      apply nm_app_inv in Hnm. destruct (K2 ++ m2 ++ a) eqn:Es.
      * destruct Hnm as [H _]. now apply (plain_behind r' _ None) in H.
      * destruct Hnm as [H _]. now apply (plain_behind r' _ None) in H.
    + apply (IH (lastb bs (K ++ m2))). now apply nm_app_inv.
Qed.

End PlainTarget.

(** A pass of a plain pattern whose matches are replaced by a fixed text,
    against the pattern itself. *)
Lemma scan_clean_self (r : regex) (tpl : list piece) (B : jsstring) :
  plain r = true ->
  (forall b m a y,
      match_here r b (m ++ a) = Some y -> consumed y = List.length m ->
      expand tpl m (capture y) = B) ->
  forall b s out, Scan r tpl b s out -> Clean r B s out.
Proof.
  intros Hpl Hshape b s out HS.
  induction HS as [b|b c s out Hc HS IH|b m a y out Hm Hlen Hne HS IH].
  - constructor.
  - constructor; [now apply (plain_behind r b None)|exact IH].
  - rewrite (Hshape _ _ _ _ Hm Hlen).
    apply (clean_hit r B [] m a out); [|exact IH].
    intros K1 K2 out' E Hne2. symmetry in E.
    apply app_eq_nil in E as [_ E]. contradiction.
Qed.

(** A match cannot reach a code unit that is outside the alphabet of the
    pattern. *)
Lemma fit_by_alphabet (alpha : jschar -> bool) (r : regex) (c0 : jschar)
  (B' : jsstring) :
  within alpha r -> alpha c0 = false ->
  forall sigma out' y,
    match_here r None (sigma ++ (c0 :: B') ++ out') = Some y ->
    consumed y <= List.length sigma.
Proof.
  intros Hal Hc0 sigma out' y H.
  destruct (match_here_text _ _ _ _ H) as (w & Hs & Hc & HR).
  assert (Hw : forallb alpha w = true)
    by (apply (run_within alpha r Hal _ _ w HR); exact Hs).
  rewrite Hc. clear Hc H HR.
  revert sigma Hs. induction w as [|c w IH]; intros sigma Hs; [cbn; lia|].
  cbn [forallb] in Hw. apply andb_true_iff in Hw as [Hc Hw].
  destruct sigma as [|d sigma].
  - cbn in Hs. injection Hs as <- _. congruence.
  - cbn in Hs. injection Hs as _ Hs. cbn. apply le_n_S. now apply IH.
Qed.

Lemma within_weaken (alpha beta : jschar -> bool) (r : regex) :
  (forall c, alpha c = true -> beta c = true) ->
  within alpha r -> within beta r.
Proof.
  intros Hab. induction r; cbn [within]; try tauto; auto.
Qed.

Lemma within_alphabet (r : regex) : within (alphabet r) r.
Proof.
  induction r as [p|p min max|r1 IH1 r2 IH2|r1 IH1 r2 IH2|r1 IH1| |];
    cbn [within alphabet]; auto.
  - split.
    + apply (within_weaken (alphabet r1)); [|exact IH1].
      intros c H. now rewrite H.
    + apply (within_weaken (alphabet r2)); [|exact IH2].
      intros c H. rewrite H. apply orb_true_r.
  - split.
    + apply (within_weaken (alphabet r1)); [|exact IH1].
      intros c H. now rewrite H.
    + apply (within_weaken (alphabet r2)); [|exact IH2].
      intros c H. rewrite H. apply orb_true_r.
Qed.

Lemma run_min_len (r : regex) :
  forall x y, Run r x y -> min_len r + consumed x <= consumed y.
Proof.
  induction r as [p|p min max|r1 IH1 r2 IH2|r1 IH1 r2 IH2|r1 IH1| |];
    intros x y; cbn [Run min_len].
  - intros (c & a & _ & _ & ->). cbn. lia.
  - intros (w & a & _ & _ & Hmin & _ & ->). cbn. lia.
  - intros (m & H1 & H2). apply IH1 in H1. apply IH2 in H2. lia.
  - intros [H|H]; [apply IH1 in H|apply IH2 in H]; lia.
  - intros (y0 & H & ->). cbn. now apply IH1.
  - intros (_ & ->). lia.
  - intros ->. lia.
Qed.

Lemma match_here_min_len (r : regex) (b : option jschar) (s : jsstring)
  (y : mstate) :
  match_here r b s = Some y -> min_len r <= consumed y.
Proof.
  intros H. apply match_here_sound, run_min_len in H. cbn in H. lia.
Qed.

Lemma run_capture (r : regex) :
  groupless r = true ->
  forall x y, Run r x y -> capture y = capture x.
Proof.
  induction r as [p|p min max|r1 IH1 r2 IH2|r1 IH1 r2 IH2|r1 IH1| |];
    cbn [groupless Run]; intros Hg x y.
  - now intros (c & a & _ & _ & ->).
  - now intros (w & a & _ & _ & _ & _ & ->).
  - apply andb_true_iff in Hg as [H1 H2]. intros (m & R1 & R2).
    rewrite (IH2 H2 _ _ R2). now apply IH1.
  - apply andb_true_iff in Hg as [H1 H2]. intros [R|R]; auto.
  - discriminate.
  - now intros (_ & ->).
  - now intros ->.
Qed.

(** A pattern that matches a code unit at least matches no empty text,
    at the end of the subject in particular. *)
Lemma no_empty_match (r : regex) (b : option jschar) :
  0 < min_len r -> match_here r b [] = None.
Proof.
  intros H. destruct (match_here r b []) as [y|] eqn:E; [|reflexivity].
  pose proof (match_here_min_len _ _ _ _ E).
  apply match_here_bound in E. cbn in E. lia.
Qed.

Lemma never_empty (r : regex) :
  0 < min_len r ->
  forall b s y, match_here r b s = Some y -> consumed y <> 0.
Proof. intros H b s y E. apply match_here_min_len in E. lia. Qed.

(* ===================================================================== *)
(** ** The redactor is idempotent *)
(* ===================================================================== *)

Import Redactor.

(** A pass of [replace] keeps a plain pattern [r'] absent, when the pass
    replaces each match by a kept prefix of it followed by a text [B] that
    starts outside the alphabet of [r'] and inside which [r'] cannot
    start. *)
Lemma pass_preserves (r : regex) (tpl : list piece) (r' : regex)
  (B : jsstring) (c0 : jschar) (B' : jsstring) :
  plain r' = true -> 0 < min_len r' -> 0 < min_len r ->
  B = c0 :: B' -> alphabet r' c0 = false ->
  (forall B2 out', In B2 (tails B) -> match_here r' None (B2 ++ out') = None) ->
  (forall b m a y,
      match_here r b (m ++ a) = Some y -> consumed y = List.length m ->
      exists K m2, m = K ++ m2 /\ expand tpl m (capture y) = K ++ B) ->
  forall s b, nm r' b s -> forall b', nm r' b' (replace r tpl s).
Proof.
  intros Hpl Hmin' Hmin HB Hc0 Hin Hshape s b Hnm b'.
  assert (Hfit : forall sigma out' y,
             match_here r' None (sigma ++ B ++ out') = Some y ->
             consumed y <= List.length sigma).
  { rewrite HB. apply (fit_by_alphabet (alphabet r'));
      [apply within_alphabet|exact Hc0]. }
  apply (clean_nm r' B Hpl (no_empty_match r' None Hmin') Hin Hfit s).
  apply (scan_clean_preserve r' B Hpl Hfit r tpl Hshape None s _
           (replace_scan r tpl s (never_empty r Hmin)) b Hnm).
Qed.

(** After a pass of a plain pattern whose matches are replaced by a fixed
    text [B] that starts outside its alphabet and inside which it cannot
    start, the pattern matches nowhere. *)
Lemma pass_self (r : regex) (B : jsstring) (c0 : jschar) (B' : jsstring) :
  plain r = true -> 0 < min_len r ->
  B = c0 :: B' -> alphabet r c0 = false ->
  (forall B2 out', In B2 (tails B) -> match_here r None (B2 ++ out') = None) ->
  forall s b, nm r b (replace r [Text B] s).
Proof.
  intros Hpl Hmin HB Hc0 Hin s b.
  assert (Hfit : forall sigma out' y,
             match_here r None (sigma ++ B ++ out') = Some y ->
             consumed y <= List.length sigma).
  { rewrite HB. apply (fit_by_alphabet (alphabet r));
      [apply within_alphabet|exact Hc0]. }
  apply (clean_nm r B Hpl (no_empty_match r None Hmin) Hin Hfit s).
  apply (scan_clean_self r [Text B] B Hpl) with (b := None).
  - intros b0 m a y _ _. cbn. apply app_nil_r.
  - apply (replace_scan r [Text B] s (never_empty r Hmin)).
Qed.

Lemma fixed_text_shape (r : regex) (B : jsstring) :
  forall b m a y,
    match_here r b (m ++ a) = Some y -> consumed y = List.length m ->
    exists K m2, m = K ++ m2 /\ expand [Text B] m (capture y) = K ++ B.
Proof.
  intros b m a y _ _. exists [], m. split; [reflexivity|].
  cbn. apply app_nil_r.
Qed.

(** Decides, for a pattern and a text given in full, that the pattern
    cannot start inside the text, whatever follows it. *)
Ltac inside_text :=
  let B2 := fresh "B2" in
  let out' := fresh "out'" in
  let H := fresh "H" in
  intros B2 out' H; vm_compute in H;
  repeat (destruct H as [H|H]; [subst B2; vm_compute; reflexivity|]);
  contradiction.

Lemma email_inside_email :
  forall B2 out', In B2 (tails (lit "[REDACTED_EMAIL]")) ->
    match_here emailRegex None (B2 ++ out') = None.
Proof. inside_text. Qed.

Lemma email_inside_phone :
  forall B2 out', In B2 (tails (lit "[REDACTED_PHONE]")) ->
    match_here emailRegex None (B2 ++ out') = None.
Proof. inside_text. Qed.

Lemma email_inside_ip :
  forall B2 out', In B2 (tails (lit "[REDACTED_IP]")) ->
    match_here emailRegex None (B2 ++ out') = None.
Proof. inside_text. Qed.

Lemma email_inside_secret :
  forall B2 out', In B2 (tails (lit ": [REDACTED_SECRET]")) ->
    match_here emailRegex None (B2 ++ out') = None.
Proof. inside_text. Qed.

Lemma phone_inside_phone :
  forall B2 out', In B2 (tails (lit "[REDACTED_PHONE]")) ->
    match_here phoneRegex None (B2 ++ out') = None.
Proof. inside_text. Qed.

Lemma phone_inside_ip :
  forall B2 out', In B2 (tails (lit "[REDACTED_IP]")) ->
    match_here phoneRegex None (B2 ++ out') = None.
Proof. inside_text. Qed.

Lemma phone_inside_secret :
  forall B2 out', In B2 (tails (lit ": [REDACTED_SECRET]")) ->
    match_here phoneRegex None (B2 ++ out') = None.
Proof. inside_text. Qed.

Lemma secret_inside_secret :
  forall B2 out', In B2 (tails (lit ": [REDACTED_SECRET]")) ->
    match_here secretRegex None (B2 ++ out') = None.
Proof. inside_text. Qed.

(** The e-mail pass leaves no e-mail address. *)
Lemma email_pass_email (s : jsstring) (b : option jschar) :
  nm emailRegex b (replace emailRegex [Text (lit "[REDACTED_EMAIL]")] s).
Proof.
  apply (pass_self emailRegex (lit "[REDACTED_EMAIL]") 91%N
           (lit "REDACTED_EMAIL]")); try reflexivity.
  - vm_compute. lia.
  - exact email_inside_email.
Qed.

(** The phone pass leaves no phone number and brings no e-mail address. *)
Lemma phone_pass_phone (s : jsstring) (b : option jschar) :
  nm phoneRegex b (replace phoneRegex [Text (lit "[REDACTED_PHONE]")] s).
Proof.
  apply (pass_self phoneRegex (lit "[REDACTED_PHONE]") 91%N
           (lit "REDACTED_PHONE]")); try reflexivity.
  - vm_compute. lia.
  - exact phone_inside_phone.
Qed.

Lemma phone_pass_email (s : jsstring) (b b' : option jschar) :
  nm emailRegex b s ->
  nm emailRegex b' (replace phoneRegex [Text (lit "[REDACTED_PHONE]")] s).
Proof.
  intros H.
  apply (pass_preserves phoneRegex [Text (lit "[REDACTED_PHONE]")] emailRegex
           (lit "[REDACTED_PHONE]") 91%N (lit "REDACTED_PHONE]"))
    with (b := b); try reflexivity; try (vm_compute; lia).
  - exact email_inside_phone.
  - apply fixed_text_shape.
  - exact H.
Qed.

(** The IP pass brings no e-mail address and no phone number. *)
Lemma ip_pass_email (s : jsstring) (b b' : option jschar) :
  nm emailRegex b s ->
  nm emailRegex b' (replace ipRegex [Text (lit "[REDACTED_IP]")] s).
Proof.
  intros H.
  apply (pass_preserves ipRegex [Text (lit "[REDACTED_IP]")] emailRegex
           (lit "[REDACTED_IP]") 91%N (lit "REDACTED_IP]"))
    with (b := b); try reflexivity; try (vm_compute; lia).
  - exact email_inside_ip.
  - apply fixed_text_shape.
  - exact H.
Qed.

Lemma ip_pass_phone (s : jsstring) (b b' : option jschar) :
  nm phoneRegex b s ->
  nm phoneRegex b' (replace ipRegex [Text (lit "[REDACTED_IP]")] s).
Proof.
  intros H.
  apply (pass_preserves ipRegex [Text (lit "[REDACTED_IP]")] phoneRegex
           (lit "[REDACTED_IP]") 91%N (lit "REDACTED_IP]"))
    with (b := b); try reflexivity; try (vm_compute; lia).
  - exact phone_inside_ip.
  - apply fixed_text_shape.
  - exact H.
Qed.

(** *** The secret pass *)

Import Secret.

Lemma secretRegex_parts : secretRegex = Seq (Group keywords) value_part.
Proof. reflexivity. Qed.

Lemma prefix_same_length {A : Type} (u v a b : list A) :
  u ++ a = v ++ b -> List.length u = List.length v -> u = v /\ a = b.
Proof.
  revert v; induction u as [|x u IH]; intros [|y v] H L; cbn in *;
    try discriminate; [now split|].
  injection H as -> H. injection L as L.
  destruct (IH _ H L) as [-> ->]. now split.
Qed.

(** What a secret match is made of: a keyword, kept by the replacement,
    and a value part. *)
Lemma secret_hit (b : option jschar) (m a : jsstring) (y : mstate) :
  match_here secretRegex b (m ++ a) = Some y ->
  consumed y = List.length m ->
  exists K m2,
    m = K ++ m2
    /\ expand [Capture1; Text (lit ": [REDACTED_SECRET]")] m (capture y)
       = K ++ lit ": [REDACTED_SECRET]"
    /\ K <> [] /\ forallb (alphabet keywords) K = true.
Proof.
  intros H Hlen. apply match_here_sound in H.
  rewrite secretRegex_parts in H. cbn [Run] in H.
  destruct H as (m1 & (y0 & HK & ->) & HV).
  destruct (run_text _ _ _ HK) as (wK & EK & CK & _).
  destruct (run_text _ _ _ HV) as (wV & EV & CV & _).
  cbn in EK, CK, EV, CV. rewrite Nat.add_0_r in CK.
  assert (Hcap : capture y = Some (0, List.length wK)).
  { rewrite (run_capture value_part eq_refl _ _ HV). cbn. now rewrite CK. }
  assert (Hm : m = wK ++ wV).
  { rewrite EV, app_assoc in EK.
    apply (prefix_same_length m (wK ++ wV) a (ahead y)) in EK as [-> _];
      [reflexivity|].
    rewrite length_app, <- Hlen, CV, CK. lia. }
  exists wK, wV. split; [exact Hm|]. split; [|split].
  - rewrite Hcap, Hm. cbn [expand flat_map skipn].
    rewrite Nat.sub_0_r, firstn_app, Nat.sub_diag, firstn_all, firstn_O.
    now rewrite !app_nil_r.
  - pose proof (run_min_len _ _ _ HK) as Hmin. cbn in Hmin.
    rewrite CK in Hmin. destruct wK; [cbn in Hmin; lia|discriminate].
  - apply (run_within (alphabet keywords) keywords (within_alphabet _)
             _ _ wK HK). exact EK.
Qed.

Lemma secret_shape :
  forall b m a y,
    match_here secretRegex b (m ++ a) = Some y ->
    consumed y = List.length m ->
    exists K m2,
      m = K ++ m2
      /\ expand [Capture1; Text (lit ": [REDACTED_SECRET]")] m (capture y)
         = K ++ lit ": [REDACTED_SECRET]".
Proof.
  intros b m a y H L. destruct (secret_hit b m a y H L) as (K & m2 & E & X & _).
  now exists K, m2.
Qed.

(** The secret pass brings no e-mail address and no phone number. *)
Lemma secret_pass_email (s : jsstring) (b b' : option jschar) :
  nm emailRegex b s ->
  nm emailRegex b'
    (replace secretRegex [Capture1; Text (lit ": [REDACTED_SECRET]")] s).
Proof.
  intros H.
  apply (pass_preserves secretRegex
           [Capture1; Text (lit ": [REDACTED_SECRET]")] emailRegex
           (lit ": [REDACTED_SECRET]") 58%N (lit " [REDACTED_SECRET]"))
    with (b := b); try reflexivity; try (vm_compute; lia).
  - exact email_inside_secret.
  - exact secret_shape.
  - exact H.
Qed.

Lemma secret_pass_phone (s : jsstring) (b b' : option jschar) :
  nm phoneRegex b s ->
  nm phoneRegex b'
    (replace secretRegex [Capture1; Text (lit ": [REDACTED_SECRET]")] s).
Proof.
  intros H.
  apply (pass_preserves secretRegex
           [Capture1; Text (lit ": [REDACTED_SECRET]")] phoneRegex
           (lit ": [REDACTED_SECRET]") 58%N (lit " [REDACTED_SECRET]"))
    with (b := b); try reflexivity; try (vm_compute; lia).
  - exact phone_inside_secret.
  - exact secret_shape.
  - exact H.
Qed.

(** The five stretches of a secret match: keyword, separators, an optional
    quotation mark, the value and an optional quotation mark. *)
Lemma secret_structure (b : option jschar) (s : jsstring) (y : mstate) :
  match_here secretRegex b s = Some y ->
  exists wK wS wQ wT wQ',
    s = wK ++ wS ++ wQ ++ wT ++ wQ' ++ ahead y
    /\ consumed y
       = List.length wK + List.length wS + List.length wQ
         + List.length wT + List.length wQ'
    /\ forallb (alphabet keywords) wK = true /\ wK <> []
    /\ forallb secret_sep wS = true /\ wS <> []
    /\ forallb quote wQ = true
    /\ forallb secret_char wT = true /\ 16 <= List.length wT
    /\ forallb quote wQ' = true.
Proof.
  intros H. apply match_here_sound in H.
  rewrite secretRegex_parts in H. cbn [Run] in H.
  destruct H as (m1 & (y0 & HK & ->) & HV).
  destruct (run_text _ _ _ HK) as (wK & EK & CK & _).
  pose proof (run_min_len _ _ _ HK) as Hmin. cbn in Hmin.
  pose proof (run_within (alphabet keywords) keywords (within_alphabet _)
                _ _ wK HK EK) as HwK.
  cbn in EK, CK. rewrite Nat.add_0_r in CK.
  unfold value_part, seq in HV. cbn [fold_right Run] in HV.
  destruct HV as (m2 & (wS & aS & ES & PS & LS & _ & ->) & HV).
  destruct HV as (m3 & (wQ & aQ & EQ & PQ & _ & _ & ->) & HV).
  destruct HV as (m4 & (wT & aT & ET & PT & LT & _ & ->) & HV).
  destruct HV as (m5 & (wQ' & aQ' & EQ' & PQ' & _ & _ & ->) & ->).
  cbn in ES, EQ, ET, EQ' |- *.
  exists wK, wS, wQ, wT, wQ'.
  repeat split; try assumption.
  - now rewrite EK, ES, EQ, ET, EQ'.
  - rewrite CK. lia.
  - intros ->. cbn in CK. lia.
  - intros ->. cbn in LS. lia.
Qed.

(** A stretch made of one class stops before a code unit outside it. *)
Lemma no_cross (p : jschar -> bool) (u v sigma : jsstring) (c : jschar)
  (t : jsstring) :
  u ++ v = sigma ++ c :: t -> forallb p u = true -> p c = false ->
  exists sigma', sigma = u ++ sigma' /\ v = sigma' ++ c :: t.
Proof.
  revert sigma. induction u as [|x u IH]; intros sigma E Hu Hc.
  - exists sigma. now split.
  - cbn [forallb] in Hu. apply andb_true_iff in Hu as [Hx Hu].
    destruct sigma as [|d sigma]; cbn in E.
    + injection E as -> _. congruence.
    + injection E as -> E. destruct (IH _ E Hu Hc) as (s' & -> & ->).
      exists s'. now split.
Qed.

Lemma head_outside (p : jschar -> bool) (u v : jsstring) (c : jschar)
  (t : jsstring) :
  u ++ v = c :: t -> forallb p u = true -> p c = false ->
  u = [] /\ v = c :: t.
Proof.
  intros E Hu Hc. destruct u as [|x u]; [now split|].
  cbn in E, Hu. injection E as -> _.
  apply andb_true_iff in Hu as [Hx _]. congruence.
Qed.

(** A keyword has no separator, no digit and no dot. *)
Lemma keyword_units (c : jschar) :
  alphabet keywords c = true ->
  secret_sep c = false /\ alphabet ipRegex c = false.
Proof.
  intros H.
  assert (Hin : In c (lit "bearpikysctonwdBEARPIKYSCTONWD_-")).
  { cbn [alphabet keywords word_i seq fold_right list_ascii_of_string] in H.
    repeat (apply orb_true_iff in H; destruct H as [H|H]);
      try discriminate H;
      try (apply andb_true_iff in H as [_ H]);
      apply N.eqb_eq in H; subst c; vm_compute; tauto. }
  vm_compute in Hin.
  repeat (destruct Hin as [<-|Hin]; [split; vm_compute; reflexivity|]).
  contradiction.
Qed.

Lemma prefix_of_shorter {A : Type} (u v a b : list A) :
  u ++ a = v ++ b -> List.length u <= List.length v ->
  exists l, v = u ++ l.
Proof.
  revert v. induction u as [|x u IH]; intros v E L.
  - now exists v.
  - destruct v as [|z v]; cbn in L; [lia|].
    cbn in E. injection E as -> E.
    destruct (IH v E) as (l & ->); [lia|]. now exists l.
Qed.

(** In the result of the secret pass, a match that starts before a
    placeholder ends before it. *)
Lemma secret_fit :
  forall sigma out' y,
    match_here secretRegex None (sigma ++ lit ": [REDACTED_SECRET]" ++ out')
    = Some y ->
    consumed y <= List.length sigma.
Proof.
  intros sigma out' y H.
  destruct (secret_structure _ _ _ H)
    as (wK & wS & wQ & wT & wQ' & E & C & HK & _ & HS & HSn & HQ & HT & LT & HQ').
  change (lit ": [REDACTED_SECRET]")
    with (58%N :: 32%N :: 91%N :: lit "REDACTED_SECRET]") in E.
  cbn [app] in E. symmetry in E.
  destruct (no_cross (alphabet keywords) wK _ sigma 58%N _ E HK eq_refl)
    as (s1 & -> & E1).
  assert (Hcase :
            (exists l, s1 = wS ++ l
                       /\ wQ ++ wT ++ wQ' ++ ahead y
                          = l ++ 58%N :: 32%N :: 91%N
                                   :: lit "REDACTED_SECRET]" ++ out')
            \/ (exists c l, wS = s1 ++ c :: l
                            /\ 58%N :: 32%N :: 91%N
                                 :: lit "REDACTED_SECRET]" ++ out'
                               = c :: l ++ wQ ++ wT ++ wQ' ++ ahead y)).
  { apply app_eq_app in E1 as (l & [[E1 E2]|[E1 E2]]).
    - destruct l as [|c l].
      + left. exists []. rewrite app_nil_r in E1. now split; [rewrite E1, app_nil_r|].
      + right. exists c, l. now split.
    - left. exists l. now split. }
  destruct Hcase as [(l & -> & E2)|(c & l & -> & E2)].
  - destruct (no_cross quote wQ _ l 58%N _ E2 HQ eq_refl) as (l2 & -> & E3).
    destruct (no_cross secret_char wT _ l2 58%N _ E3 HT eq_refl)
      as (l3 & -> & E4).
    destruct (no_cross quote wQ' _ l3 58%N _ E4 HQ' eq_refl) as (l4 & -> & _).
    rewrite C, !length_app. lia.
  - exfalso. injection E2 as <- E2.
    rewrite forallb_app in HS. apply andb_true_iff in HS as [_ HS].
    cbn [forallb] in HS. apply andb_true_iff in HS as [_ HS].
    destruct l as [|c2 l].
    + cbn [app] in E2. symmetry in E2.
      destruct (head_outside quote _ _ _ _ E2 HQ eq_refl) as [_ E3].
      destruct (head_outside secret_char _ _ _ _ E3 HT eq_refl) as [-> _].
      cbn in LT. lia.
    + cbn [app] in E2. injection E2 as <- E2.
      destruct l as [|c3 l].
      * cbn [app] in E2. symmetry in E2.
        destruct (head_outside quote _ _ _ _ E2 HQ eq_refl) as [_ E3].
        destruct (head_outside secret_char _ _ _ _ E3 HT eq_refl) as [-> _].
        cbn in LT. lia.
      * cbn [app] in E2. injection E2 as <- _.
        cbn [forallb] in HS. apply andb_true_iff in HS as [_ HS].
        apply andb_true_iff in HS as [HS _]. discriminate HS.
Qed.

(** No secret match starts inside a kept keyword of the result. *)
Lemma secret_inside_keyword (K2 out' : jsstring) :
  forallb (alphabet keywords) K2 = true ->
  match_here secretRegex None (K2 ++ lit ": [REDACTED_SECRET]" ++ out') = None.
Proof.
  intros HK.
  destruct (match_here secretRegex None
              (K2 ++ lit ": [REDACTED_SECRET]" ++ out')) as [y|] eqn:E;
    [|reflexivity].
  exfalso. pose proof (secret_fit _ _ _ E) as Hfit.
  destruct (secret_structure _ _ _ E)
    as (wK & wS & wQ & wT & wQ' & Es & C & _ & _ & HS & HSn & _).
  destruct wS as [|c wS]; [contradiction|].
  cbn [forallb] in HS. apply andb_true_iff in HS as [Hc _].
  assert (Hpre : exists l, K2 = (wK ++ [c]) ++ l).
  { apply (prefix_of_shorter (wK ++ [c]) K2
             (wS ++ wQ ++ wT ++ wQ' ++ ahead y)
             (lit ": [REDACTED_SECRET]" ++ out')).
    - rewrite <- app_assoc. symmetry. exact Es.
    - rewrite length_app. cbn [List.length] in C |- *. lia. }
  destruct Hpre as (l & ->).
  rewrite !forallb_app in HK. cbn [forallb] in HK.
  apply andb_true_iff in HK as [HK _]. apply andb_true_iff in HK as [_ HK].
  apply andb_true_iff in HK as [HK _].
  destruct (keyword_units c HK) as [Hs _]. congruence.
Qed.

(** A pass of a plain pattern against itself, when each match is replaced
    by a kept prefix of it followed by the text [B]. *)
Lemma scan_clean_kept (r : regex) (tpl : list piece) (B : jsstring) :
  plain r = true ->
  (forall b m a y,
      match_here r b (m ++ a) = Some y -> consumed y = List.length m ->
      exists K m2,
        m = K ++ m2 /\ expand tpl m (capture y) = K ++ B
        /\ forall K1 K2 out', K = K1 ++ K2 -> K2 <> [] ->
             match_here r None (K2 ++ B ++ out') = None) ->
  forall b s out, Scan r tpl b s out -> Clean r B s out.
Proof.
  intros Hpl Hshape b s out HS.
  induction HS as [b|b c s out Hc HS IH|b m a y out Hm Hlen Hne HS IH].
  - constructor.
  - constructor; [now apply (plain_behind r b None)|exact IH].
  - destruct (Hshape _ _ _ _ Hm Hlen) as (K & m2 & -> & -> & HK).
    rewrite <- !app_assoc. now constructor.
Qed.

(** After the secret pass no secret match is left. *)
Lemma secret_pass_secret (s : jsstring) (b : option jschar) :
  nm secretRegex b
    (replace secretRegex [Capture1; Text (lit ": [REDACTED_SECRET]")] s).
Proof.
  apply (clean_nm secretRegex (lit ": [REDACTED_SECRET]") eq_refl
           (no_empty_match secretRegex None ltac:(vm_compute; lia))
           secret_inside_secret secret_fit s).
  apply (scan_clean_kept secretRegex
           [Capture1; Text (lit ": [REDACTED_SECRET]")]
           (lit ": [REDACTED_SECRET]") eq_refl) with (b := None).
  - intros b0 m a y H L.
    destruct (secret_hit b0 m a y H L) as (K & m2 & E & X & _ & HK).
    exists K, m2. split; [exact E|]. split; [exact X|].
    intros K1 K2 out' -> _. rewrite forallb_app in HK.
    apply andb_true_iff in HK as [_ HK].
    now apply secret_inside_keyword.
  - apply replace_scan. apply never_empty. vm_compute; lia.
Qed.

(* ===================================================================== *)
(** ** The address pattern and its word boundaries *)
(* ===================================================================== *)

Import Address.

Lemma run_seq_app (l1 l2 : list regex) (x y : mstate) :
  Run (seq (l1 ++ l2)) x y <-> exists m, Run (seq l1) x m /\ Run (seq l2) m y.
Proof.
  revert x. induction l1 as [|a l1 IH]; intros x.
  - cbn [app]. split.
    + intros H. exists x. split; [reflexivity|exact H].
    + intros (m & E & H). cbn in E. now subst m.
  - change (seq ((a :: l1) ++ l2)) with (Seq a (seq (l1 ++ l2))).
    change (seq (a :: l1)) with (Seq a (seq l1)). cbn [Run]. split.
    + intros (m & Ha & H). apply IH in H as (m' & H1 & H2).
      exists m'. split; [exists m; now split|exact H2].
    + intros (m' & (m & Ha & H1) & H2). exists m. split; [exact Ha|].
      apply IH. now exists m'.
Qed.

Lemma ip_run (x y : mstate) :
  Run ipRegex x y
  <-> xorb (word_before x) (word_after x) = true
      /\ Run ip_core x y
      /\ xorb (word_before y) (word_after y) = true.
Proof.
  change ipRegex with (Seq WordBoundary (seq (quad ++ [WordBoundary]))).
  cbn [Run]. split.
  - intros (m & (X & ->) & H). apply run_seq_app in H as (m' & Hc & Hw).
    cbn in Hw. destruct Hw as (m2 & (X2 & ->) & ->). now repeat split.
  - intros (X & Hc & X2). exists x. split; [now split|].
    apply run_seq_app. exists y. split; [exact Hc|].
    cbn. exists y. now repeat split.
Qed.

Lemma digit_word (c : jschar) : is_digit c = true -> is_word c = true.
Proof.
  intros H. unfold is_word, is_alnum. rewrite H.
  now rewrite orb_true_r.
Qed.

Lemma digit_secret_char (c : jschar) :
  is_digit c = true -> secret_char c = true.
Proof.
  intros H. unfold secret_char, is_alnum. rewrite H.
  now rewrite orb_true_r.
Qed.

Lemma digit_address (c : jschar) :
  is_digit c = true -> alphabet ipRegex c = true.
Proof. intros H. cbn. now rewrite H. Qed.

Lemma lastb_class (p : jschar -> bool) (w : jsstring) :
  w <> [] -> forallb p w = true ->
  forall b, exists e, lastb b w = Some e /\ p e = true.
Proof.
  induction w as [|c w IH]; intros Hne Hp b; [contradiction|].
  cbn [forallb] in Hp. apply andb_true_iff in Hp as [Hc Hp].
  destruct w as [|d w].
  - exists c. now split.
  - cbn [lastb]. apply (IH ltac:(discriminate) Hp (Some c)).
Qed.

Lemma lastb_nonempty (w : jsstring) (b1 b2 : option jschar) :
  w <> [] -> lastb b1 w = lastb b2 w.
Proof. destruct w; [contradiction|reflexivity]. Qed.

Lemma headp_app (p : jschar -> bool) (u v : jsstring) :
  u <> [] -> headp p (u ++ v) = headp p u.
Proof. destruct u; [contradiction|reflexivity]. Qed.

(** The numbers of an address start and end with a digit. *)
Lemma ip_core_ends (x y : mstate) :
  Run ip_core x y ->
  headp is_digit (ahead x) = true
  /\ exists e, behind y = Some e /\ is_digit e = true.
Proof.
  unfold ip_core, quad, seq. cbn [fold_right Run].
  intros (m1 & (w1 & a1 & E1 & P1 & L1 & _ & ->)
          & (m2 & _ & (m3 & _ & (m4 & _ & (m5 & _ & (m6 & _
          & (m7 & (w4 & a4 & E4 & P4 & L4 & _ & ->) & ->))))))).
  split.
  - rewrite E1. destruct w1 as [|d w1]; [cbn in L1; lia|].
    cbn in P1 |- *. now apply andb_true_iff in P1 as [P1 _].
  - cbn [behind after]. apply lastb_class; [|exact P4].
    destruct w4; [cbn in L4; lia|discriminate].
Qed.

(** What a match passed, and what is behind its end. *)
Lemma match_here_state (r : regex) (b : option jschar) (s : jsstring)
  (y : mstate) :
  match_here r b s = Some y ->
  exists w, s = w ++ ahead y /\ consumed y = List.length w
            /\ behind y = lastb b w.
Proof.
  intros H. apply match_here_sound in H.
  destruct (run_text _ _ _ H) as (w & Hs & Hc & Hb).
  exists w. cbn in *. rewrite Nat.add_0_r in Hc. auto.
Qed.

(** An address starts with a digit that no word character precedes. *)
Lemma ip_start (b : option jschar) (s : jsstring) (y : mstate) :
  match_here ipRegex b s = Some y ->
  wordb b = false /\ headp is_digit s = true.
Proof.
  intros H. apply match_here_sound, ip_run in H as (X & Hc & _).
  destruct (ip_core_ends _ _ Hc) as [Hd _]. cbn in Hd. split; [|exact Hd].
  unfold word_before, word_after in X. cbn in X.
  destruct s as [|d s]; [discriminate|]. cbn in Hd.
  rewrite (digit_word d Hd) in X. unfold wordb.
  destruct (match b with Some c => is_word c | None => false end);
    [discriminate|reflexivity].
Qed.

(** It ends with a digit that no word character follows. *)
Lemma ip_end (b : option jschar) (s : jsstring) (y : mstate) :
  match_here ipRegex b s = Some y ->
  (exists e, behind y = Some e /\ is_digit e = true)
  /\ headw (ahead y) = false.
Proof.
  intros H. apply match_here_sound, ip_run in H as (_ & Hc & X).
  destruct (ip_core_ends _ _ Hc) as [_ (e & He & Hd)].
  split; [now exists e|].
  unfold word_before, word_after in X. rewrite He, (digit_word e Hd) in X.
  unfold headw. destruct (ahead y) as [|c t]; [reflexivity|].
  destruct (is_word c); [discriminate|reflexivity].
Qed.

(** An address found within [sigma] is found again at the head of another
    text that starts with [sigma], if the word boundaries stay. *)
Lemma ip_transfer (b1 b2 : option jschar) (sigma a1 a2 : jsstring)
  (y : mstate) :
  match_here ipRegex b1 (sigma ++ a1) = Some y ->
  consumed y <= List.length sigma ->
  wordb b2 = false ->
  (consumed y = List.length sigma -> headw a2 = false) ->
  match_here ipRegex b2 (sigma ++ a2) <> None.
Proof.
  intros H Hn Hb Ha.
  destruct (ip_end _ _ _ H) as [_ Hw].
  destruct (match_here_text _ _ _ _ H) as (w & Hs & Hc & Hr).
  apply ip_run in Hr as (_ & Rc & _).
  destruct (prefix_of_shorter w sigma (ahead y) a1) as (s2 & ->);
    [now rewrite Hs|lia|].
  rewrite <- app_assoc in Hs. apply app_inv_head in Hs.
  destruct (run_transfer ip_core eq_refl _ _ w Rc) with (b' := b2)
    (a' := s2 ++ a2) (n' := 0) (cap' := @None (nat * nat))
    as (y' & R & Ay & _).
  { cbn. now rewrite <- Hs, <- app_assoc. }
  rewrite <- app_assoc. apply (match_here_complete ipRegex b2 _ y').
  apply ip_run. destruct (ip_core_ends _ _ R) as [Hd (e & He & Hde)].
  split; [|split; [exact R|]].
  - unfold word_before, word_after. cbn [start behind ahead] in Hd |- *.
    unfold wordb in Hb. rewrite Hb.
    destruct (w ++ s2 ++ a2) as [|d t]; [discriminate|]. cbn in Hd.
    now rewrite (digit_word d Hd).
  - unfold word_before, word_after. rewrite He, (digit_word e Hde), Ay.
    destruct s2 as [|c s2].
    + cbn [app]. unfold headw in Ha. rewrite Ha; [reflexivity|].
      rewrite Hc, length_app. cbn. lia.
    + rewrite <- Hs in Hw. cbn in Hw |- *. now rewrite Hw.
Qed.

(** A match cannot reach a code unit outside the alphabet of the pattern,
    whatever is behind its start. *)
Lemma fit_by_class (r : regex) (c0 : jschar) (B' : jsstring) :
  alphabet r c0 = false ->
  forall b sigma out' y,
    match_here r b (sigma ++ (c0 :: B') ++ out') = Some y ->
    consumed y <= List.length sigma.
Proof.
  intros Hc0 b sigma out' y H.
  destruct (match_here_text _ _ _ _ H) as (w & Hs & Hc & HR).
  assert (Hw : forallb (alphabet r) w = true)
    by (apply (run_within (alphabet r) r (within_alphabet r) _ _ w HR);
        exact Hs).
  rewrite Hc. clear Hc H HR.
  revert sigma Hs. induction w as [|c w IH]; intros sigma Hs; [cbn; lia|].
  cbn [forallb] in Hw. apply andb_true_iff in Hw as [Hc Hw].
  destruct sigma as [|d sigma].
  - cbn in Hs. injection Hs as <- _. congruence.
  - cbn in Hs. injection Hs as _ Hs. cbn. apply le_n_S. now apply IH.
Qed.

Lemma scan_kept_self (r : regex) (tpl : list piece) :
  forall b s out, Scan r tpl b s out -> Kept r tpl r b s out.
Proof.
  induction 1 as [b|b c s out Hc HS IH|b m a y out Hm Hlen Hne HS IH].
  - constructor.
  - now constructor.
  - now apply (kept_hit r tpl r b m a y out).
Qed.

Lemma scan_kept_preserve (r : regex) (tpl : list piece) (r' : regex) :
  forall b s out,
    Scan r tpl b s out -> nm r' b s -> Kept r tpl r' b s out.
Proof.
  induction 1 as [b|b c s out Hc HS IH|b m a y out Hm Hlen Hne HS IH];
    intros Hnm.
  - constructor.
  - destruct Hnm as [H0 Hnm]. constructor; auto.
  - apply (kept_hit r tpl r' b m a y out); auto.
    apply IH. now apply nm_app_inv.
Qed.

Section AddressTarget.
Variable r : regex.
Variable tpl : list piece.
Variable B : jsstring.
Hypothesis Hend : forall b, wordb (lastb b B) = false.
Hypothesis Hhit :
  forall b m a y,
    match_here r b (m ++ a) = Some y -> consumed y = List.length m ->
    exists K m2,
      m = K ++ m2
      /\ expand tpl m (capture y) = K ++ B
      /\ forallb (fun c => negb (alphabet ipRegex c)) (K ++ B) = true
      /\ K ++ B <> []
      /\ (K <> [] \/ wordb b = false)
      /\ (wordb (lastb b m) = false \/ headp is_digit a = false).

(** An address that would start in a kept stretch of the result would
    start at the same place in the subject. *)
Lemma ip_stretch (b : option jschar) (s out : jsstring) :
  Kept r tpl ipRegex b s out ->
  forall sigma bs bo,
    sigma <> [] -> b = lastb bs sigma ->
    match_here ipRegex bs (sigma ++ s) = None ->
    wordb bs = wordb bo \/ headp is_digit sigma = false ->
    match_here ipRegex bo (sigma ++ out) = None.
Proof.
  induction 1 as [b|b c s out Hc HK IH|b m a y out Hm Hlen Hne HK IH];
    intros sigma bs bo Hsig Hb Hs Hinv.
  - destruct (match_here ipRegex bo (sigma ++ [])) as [z|] eqn:E;
      [|reflexivity].
    exfalso. destruct (ip_start _ _ _ E) as [Hbo Hd].
    rewrite (headp_app _ _ _ Hsig) in Hd.
    destruct Hinv as [Hinv|Hinv]; [|congruence].
    apply (ip_transfer bo bs sigma [] [] z E); auto.
    + apply match_here_bound in E. now rewrite app_nil_r in E.
    + congruence.
  - change (sigma ++ c :: out) with (sigma ++ [c] ++ out).
    rewrite app_assoc. apply (IH (sigma ++ [c]) bs bo).
    + destruct sigma; discriminate.
    + now rewrite lastb_app.
    + now rewrite <- app_assoc.
    + now rewrite (headp_app _ _ _ Hsig).
  - destruct (Hhit _ _ _ _ Hm Hlen)
      as (K & m2 & -> & -> & Hal & HKB & HK1 & _).
    destruct (match_here ipRegex bo (sigma ++ (K ++ B) ++ out)) as [z|] eqn:E;
      [|reflexivity].
    exfalso. destruct (ip_start _ _ _ E) as [Hbo Hd].
    rewrite (headp_app _ _ _ Hsig) in Hd.
    destruct Hinv as [Hinv|Hinv]; [|congruence].
    assert (Hfit : consumed z <= List.length sigma).
    { destruct (K ++ B) as [|c0 t] eqn:EKB; [contradiction|].
      cbn [forallb] in Hal. apply andb_true_iff in Hal as [Hc0 _].
      apply negb_true_iff in Hc0.
      apply (fit_by_class ipRegex c0 t Hc0 bo sigma out z E). }
    apply (ip_transfer bo bs sigma ((K ++ B) ++ out) ((K ++ m2) ++ a) z E);
      auto; [congruence|].
    intros Hz.
    destruct (match_here_state _ _ _ _ E) as (w & Ew & Cw & Bw).
    apply prefix_same_length in Ew as [<- Ew]; [|congruence].
    destruct (ip_end _ _ _ E) as [(e & He & Hde) Hw].
    destruct K as [|k K].
    + destruct HK1 as [HK1|HK1]; [contradiction|].
      rewrite Hb, (lastb_nonempty sigma bs bo Hsig), <- Bw, He in HK1.
      cbn in HK1. rewrite (digit_word e Hde) in HK1. discriminate.
    + rewrite <- Ew in Hw. exact Hw.
Qed.

(** After the pass no address starts anywhere. *)
Lemma ip_absent (b : option jschar) (s out : jsstring) :
  Kept r tpl ipRegex b s out ->
  forall bo,
    wordb b = wordb bo \/ headp is_digit s = false ->
    nm ipRegex bo out.
Proof.
  induction 1 as [b|b c s out Hc HK IH|b m a y out Hm Hlen Hne HK IH];
    intros bo Hinv.
  - split; [|exact I]. apply no_empty_match. vm_compute; lia.
  - split.
    + apply (ip_stretch (Some c) s out HK [c] b bo);
        [discriminate|reflexivity|exact Hc|exact Hinv].
    + apply IH. now left.
  - destruct (Hhit _ _ _ _ Hm Hlen)
      as (K & m2 & -> & -> & Hal & HKB & _ & HK2).
    apply nm_app.
    + intros x1 x2 E Hx2.
      destruct (match_here ipRegex (lastb bo x1) (x2 ++ out)) as [z|] eqn:Ez;
        [|reflexivity].
      exfalso. destruct (ip_start _ _ _ Ez) as [_ Hd].
      destruct x2 as [|c x2]; [contradiction|].
      rewrite E, forallb_app in Hal. apply andb_true_iff in Hal as [_ Hal].
      cbn [forallb] in Hal. apply andb_true_iff in Hal as [Hc _].
      apply negb_true_iff in Hc. cbn in Hd.
      rewrite (digit_address c Hd) in Hc. discriminate.
    + apply IH. rewrite (lastb_app bo K B), Hend.
      destruct HK2 as [HK2|HK2]; [left; exact HK2|right; exact HK2].
Qed.

Lemma pass_address (s : jsstring) :
  Kept r tpl ipRegex None s (replace r tpl s) ->
  nm ipRegex None (replace r tpl s).
Proof. intros H. apply (ip_absent None s _ H). now left. Qed.

End AddressTarget.

Lemma headw_digit (s : jsstring) :
  headw s = false -> headp is_digit s = false.
Proof.
  destruct s as [|c s]; [reflexivity|]. cbn. intros H.
  destruct (is_digit c) eqn:E; [|reflexivity].
  now rewrite (digit_word c E) in H.
Qed.

(** After the address pass no address is left. *)
Lemma ip_pass_ip (s : jsstring) :
  nm ipRegex None (replace ipRegex [Text (lit "[REDACTED_IP]")] s).
Proof.
  apply (pass_address ipRegex [Text (lit "[REDACTED_IP]")]
           (lit "[REDACTED_IP]")).
  - intros b. reflexivity.
  - intros b m a y H L. exists [], m.
    split; [reflexivity|]. split; [cbn; apply app_nil_r|].
    split; [vm_compute; reflexivity|].
    split; [intros E; vm_compute in E; discriminate|].
    split; [right; apply (ip_start _ _ _ H)|].
    right. apply headw_digit.
    destruct (match_here_state _ _ _ _ H) as (w & Ew & Cw & _).
    apply prefix_same_length in Ew as [_ ->]; [|congruence].
    apply (ip_end _ _ _ H).
  - apply scan_kept_self, replace_scan, never_empty. vm_compute; lia.
Qed.

(** *** Where a secret match ends *)

Import Secret.

Lemma rep_total (p : jschar -> bool) (k : mstate -> option mstate) :
  (forall x, k x <> None) ->
  forall s b n cap, rep p 0 None s b n cap k <> None.
Proof.
  intros Hk. induction s as [|c s IH]; intros b n cap; cbn [rep].
  - apply Hk.
  - destruct (p c); [|apply Hk]. cbn [pred option_map].
    destruct (rep p 0 None s (Some c) (S n) cap k) eqn:E; [discriminate|].
    now apply IH in E.
Qed.

(** An unbounded quantifier followed by what cannot fail takes all the
    code units of its class. *)
Lemma rep_greedy (p : jschar -> bool) (k : mstate -> option mstate) :
  (forall x, k x <> None) ->
  forall s min b n cap z,
    rep p min None s b n cap k = Some z ->
    k {| ahead := drop_while p s; behind := lastb b (take_while p s);
         consumed := List.length (take_while p s) + n; capture := cap |}
    = Some z.
Proof.
  intros Hk. induction s as [|c s IH]; intros min b n cap z; cbn [rep].
  - destruct min; [|discriminate]. intros H. exact H.
  - cbn [take_while drop_while option_map]. destruct (p c).
    + destruct (rep p (pred min) None s (Some c) (S n) cap k) eqn:E.
      * intros [= ->]. apply IH in E. cbn [lastb List.length].
        now rewrite Nat.add_succ_r in E.
      * destruct min; [|discriminate]. cbn [pred] in E.
        now apply rep_total in E.
    + destruct min; [|discriminate]. intros H. exact H.
Qed.

Lemma drop_while_head (p : jschar -> bool) (s : jsstring) :
  headp p (drop_while p s) = false.
Proof.
  induction s as [|c s IH]; [reflexivity|]. cbn [drop_while].
  destruct (p c) eqn:E; [exact IH|]. cbn. exact E.
Qed.

Lemma rep_none_left (p : jschar -> bool) (s : jsstring)
  (b : option jschar) (n : nat) (cap : option (nat * nat))
  (k : mstate -> option mstate) :
  rep p 0 (Some 0) s b n cap k
  = k {| ahead := s; behind := b; consumed := n; capture := cap |}.
Proof. destruct s; reflexivity. Qed.

Lemma quote_total (x : mstate) :
  matcher (Rep quote 0 (Some 1)) x Some <> None.
Proof.
  destruct x as [s b n cap]. cbn [matcher ahead behind consumed capture].
  destruct s as [|c s]; cbn [rep option_map pred]; [discriminate|].
  rewrite rep_none_left. destruct (quote c); discriminate.
Qed.

Lemma quote_end (x z : mstate) :
  matcher (Rep quote 0 (Some 1)) x Some = Some z ->
  (exists q, behind z = Some q /\ quote q = true) \/ z = x.
Proof.
  destruct x as [s b n cap]. cbn [matcher ahead behind consumed capture].
  destruct s as [|c s]; cbn [rep option_map pred].
  - intros [= <-]. now right.
  - rewrite rep_none_left. destruct (quote c) eqn:Q.
    + intros [= <-]. left. exists c. now split.
    + intros [= <-]. now right.
Qed.

(** A secret match ends with a quotation mark, or before a code unit that
    is not of the class of its value. *)
Lemma secret_end (b : option jschar) (s : jsstring) (z : mstate) :
  match_here secretRegex b s = Some z ->
  (exists q, behind z = Some q /\ quote q = true)
  \/ headp secret_char (ahead z) = false.
Proof.
  unfold match_here. rewrite secretRegex_parts.
  set (x := {| ahead := s; behind := b; consumed := 0; capture := None |}).
  change (matcher (Seq (Group keywords) value_part) x Some)
    with (matcher (Group keywords) x (fun y => matcher value_part y Some)).
  intros H. apply matcher_sound in H as (y1 & _ & H).
  change (matcher (Rep secret_sep 1 None) y1
            (fun y2 =>
               matcher (Rep quote 0 (Some 1)) y2
                 (fun y3 =>
                    matcher (Rep secret_char 16 None) y3
                      (fun y4 => matcher (Rep quote 0 (Some 1)) y4 Some)))
          = Some z) in H.
  apply matcher_sound in H as (y2 & _ & H).
  apply matcher_sound in H as (y3 & _ & H).
  change (rep secret_char 16 None (ahead y3) (behind y3) (consumed y3)
            (capture y3)
            (fun y4 => matcher (Rep quote 0 (Some 1)) y4 Some) = Some z) in H.
  apply (rep_greedy secret_char _ quote_total) in H.
  apply quote_end in H as [H| ->]; [now left|right].
  cbn [ahead]. apply drop_while_head.
Qed.

Lemma quote_not_word (q : jschar) : quote q = true -> is_word q = false.
Proof.
  unfold quote. intros H. apply orb_true_iff in H as [H|H];
    apply N.eqb_eq in H; subst q; reflexivity.
Qed.

(** The secret pass brings no address. *)
Lemma secret_pass_ip (s : jsstring) :
  nm ipRegex None s ->
  nm ipRegex None
    (replace secretRegex [Capture1; Text (lit ": [REDACTED_SECRET]")] s).
Proof.
  intros Hnm.
  apply (pass_address secretRegex
           [Capture1; Text (lit ": [REDACTED_SECRET]")]
           (lit ": [REDACTED_SECRET]")).
  - intros b. reflexivity.
  - intros b m a y H L.
    destruct (secret_hit b m a y H L) as (K & m2 & E & X & HK & Hkw).
    exists K, m2. split; [exact E|]. split; [exact X|].
    split; [|split; [|split; [now left|]]].
    + rewrite forallb_app. apply andb_true_iff. split; [|reflexivity].
      apply forallb_forall. intros c Hc.
      rewrite forallb_forall in Hkw.
      destruct (keyword_units c (Hkw c Hc)) as [_ Hip]. now rewrite Hip.
    + destruct K; [contradiction|discriminate].
    + destruct (match_here_state _ _ _ _ H) as (w & Ew & Cw & Bw).
      apply prefix_same_length in Ew as [<- ->]; [|congruence].
      destruct (secret_end _ _ _ H) as [(q & Hq & Qq)|Hh].
      * left. rewrite <- Bw, Hq. cbn. now apply quote_not_word.
      * right. destruct (ahead y) as [|c t]; [reflexivity|].
        cbn in Hh |- *. destruct (is_digit c) eqn:D; [|reflexivity].
        now rewrite (digit_secret_char c D) in Hh.
  - apply scan_kept_preserve; [|exact Hnm].
    apply replace_scan, never_empty. vm_compute; lia.
Qed.

(** *** The four passes, twice *)

(** What is left in a redacted text: no e-mail address, no phone number,
    no address and no secret. *)
Lemma redact_leaves_nothing (t : jsstring) :
  nm emailRegex None (redact t) /\ nm phoneRegex None (redact t)
  /\ nm ipRegex None (redact t) /\ nm secretRegex None (redact t).
Proof.
  unfold redact.
  set (t1 := replace emailRegex [Text (lit "[REDACTED_EMAIL]")] t).
  set (t2 := replace phoneRegex [Text (lit "[REDACTED_PHONE]")] t1).
  set (t3 := replace ipRegex [Text (lit "[REDACTED_IP]")] t2).
  pose proof (email_pass_email t None) as E1. fold t1 in E1.
  pose proof (phone_pass_email t1 None None E1) as E2. fold t2 in E2.
  pose proof (phone_pass_phone t1 None) as P2. fold t2 in P2.
  pose proof (ip_pass_email t2 None None E2) as E3. fold t3 in E3.
  pose proof (ip_pass_phone t2 None None P2) as P3. fold t3 in P3.
  pose proof (ip_pass_ip t2) as I3. fold t3 in I3.
  split; [exact (secret_pass_email t3 None None E3)|].
  split; [exact (secret_pass_phone t3 None None P3)|].
  split; [exact (secret_pass_ip t3 I3)|].
  exact (secret_pass_secret t3 None).
Qed.

(** C5.  The redaction is idempotent: for every text [t], each of the four
    substitutions leaves [redact t] as it is, no placeholder being matched
    again by any of the patterns, and so the four in their order give
    [redact t] again. *)
Theorem redact_idempotent (t : jsstring) :
  replace emailRegex [Text (lit "[REDACTED_EMAIL]")] (redact t) = redact t
  /\ replace phoneRegex [Text (lit "[REDACTED_PHONE]")] (redact t) = redact t
  /\ replace ipRegex [Text (lit "[REDACTED_IP]")] (redact t) = redact t
  /\ replace secretRegex [Capture1; Text (lit ": [REDACTED_SECRET]")]
       (redact t) = redact t
  /\ redact (redact t) = redact t.
Proof.
  destruct (redact_leaves_nothing t) as (He & Hp & Hi & Hs).
  assert (E : replace emailRegex [Text (lit "[REDACTED_EMAIL]")] (redact t)
              = redact t) by (apply replace_nm; exact He).
  assert (P : replace phoneRegex [Text (lit "[REDACTED_PHONE]")] (redact t)
              = redact t) by (apply replace_nm; exact Hp).
  assert (I : replace ipRegex [Text (lit "[REDACTED_IP]")] (redact t)
              = redact t) by (apply replace_nm; exact Hi).
  assert (S : replace secretRegex
                [Capture1; Text (lit ": [REDACTED_SECRET]")] (redact t)
              = redact t) by (apply replace_nm; exact Hs).
  repeat split; try assumption.
  unfold redact at 1. now rewrite E, P, I, S.
Qed.

(* ===================================================================== *)
(** ** What the redactor leaves, and what the handler reports *)
(* ===================================================================== *)

Lemma nm_position (r : regex) (s : jsstring) :
  forall b, nm r b s ->
  forall i, match_here r (lastb b (firstn i s)) (skipn i s) = None.
Proof.
  induction s as [|c s IH]; intros b H i.
  - destruct i; cbn; apply H.
  - destruct i as [|i]; [apply H|]. cbn [firstn skipn lastb].
    apply IH. apply H.
Qed.

(** X1.  A redacted text holds nothing the four patterns match: at no
    position of [redact t] does an e-mail address, a phone number, an IPv4
    address or a secret start, whatever the text [t] was. *)
Theorem redacted_text_matches_nowhere (t : jsstring) (i : nat) :
  let out := redact t in
  let behind := lastb None (firstn i out) in
  match_here emailRegex behind (skipn i out) = None
  /\ match_here phoneRegex behind (skipn i out) = None
  /\ match_here ipRegex behind (skipn i out) = None
  /\ match_here secretRegex behind (skipn i out) = None.
Proof.
  cbv zeta. destruct (redact_leaves_nothing t) as (He & Hp & Hi & Hs).
  repeat split; now apply nm_position.
Qed.

(** X2.  A text in which none of the four patterns matches anywhere goes
    through the redactor unchanged, and the handler reports that nothing
    was found (or, for the empty text, that there is nothing to
    redact). *)
Theorem clean_text_is_left_alone (t : jsstring) :
  nm emailRegex None t -> nm phoneRegex None t ->
  nm ipRegex None t -> nm secretRegex None t ->
  redact t = t
  /\ redact_click t
     = (t, if nonempty t then NoneFound else NothingToRedact).
Proof.
  intros He Hp Hi Hs.
  assert (R : redact t = t).
  { unfold redact, replace.
    now rewrite (replace_nm _ _ _ None He), (replace_nm _ _ _ None Hp),
      (replace_nm _ _ _ None Hi), (replace_nm _ _ _ None Hs). }
  split; [exact R|].
  unfold redact_click. destruct (nonempty t); [|reflexivity].
  cbn [negb]. rewrite R, Nat.eqb_refl, str_eqb_refl. reflexivity.
Qed.

Lemma clean_text_is_left_alone_witness :
  redact (lit "see you at noon") = lit "see you at noon"
  /\ redact_click (lit "see you at noon")
     = (lit "see you at noon",
        if nonempty (lit "see you at noon") then NoneFound
        else NothingToRedact).
Proof.
  refine (clean_text_is_left_alone (lit "see you at noon") _ _ _ _);
    vm_compute; repeat split; reflexivity.
Defined.

(** X3.  The handler never reports a redaction that did not happen: when
    its toast is the one of a redaction, the text it puts in the input box
    differs from the text that was there. *)
Theorem reported_redaction_changed_the_text (v : jsstring) :
  snd (redact_click v) = Redacted ->
  str_eqb (fst (redact_click v)) v = false.
Proof.
  unfold redact_click. destruct (nonempty v); cbn [negb]; [|discriminate].
  rewrite str_eqb_refl. cbn [negb]. rewrite orb_false_r.
  destruct (Nat.eqb (List.length (redact v)) (List.length v)) eqn:E;
    cbn [negb fst snd]; [discriminate|].
  intros _. destruct (str_eqb (redact v) v) eqn:S; [|reflexivity].
  apply str_eqb_eq in S. rewrite S, Nat.eqb_refl in E. discriminate.
Qed.

Lemma reported_redaction_changed_the_text_witness :
  str_eqb (fst (redact_click (lit "mail bob@example.org now")))
    (lit "mail bob@example.org now") = false.
Proof.
  refine (reported_redaction_changed_the_text
            (lit "mail bob@example.org now") _).
  vm_compute. reflexivity.
Defined.

Import Found.

(** X21.  A text with a match does not pass unchanged: when one of the
    four patterns matches somewhere in the text, the redacted text
    differs from it, and it is the redacted text that the handler puts in
    the input box. *)
Theorem text_with_a_match_is_changed (t : jsstring) (i : nat) :
  matches_at emailRegex t i || matches_at phoneRegex t i
  || matches_at ipRegex t i || matches_at secretRegex t i = true ->
  str_eqb (redact t) t = false
  /\ fst (redact_click t) = redact t.
Proof.
  intros H.
  assert (Hne : str_eqb (redact t) t = false).
  { destruct (str_eqb (redact t) t) eqn:E; [|reflexivity].
    apply str_eqb_eq in E. exfalso.
    destruct (redact_leaves_nothing t) as (He & Hp & Hi & Hs).
    rewrite E in He, Hp, Hi, Hs.
    apply (nm_position _ _ _) with (i := i) in He, Hp, Hi, Hs.
    unfold matches_at in H. rewrite He, Hp, Hi, Hs in H. discriminate H. }
  split; [exact Hne|].
  unfold redact_click. destruct (nonempty t) eqn:N; cbn [negb].
  - now destruct (negb (Nat.eqb _ _) || _).
  - destruct t; [|discriminate N]. discriminate Hne.
Qed.

Lemma text_with_a_match_is_changed_witness :
  str_eqb (redact (lit "abcdefgh@ijkl.mn")) (lit "abcdefgh@ijkl.mn") = false
  /\ fst (redact_click (lit "abcdefgh@ijkl.mn"))
     = redact (lit "abcdefgh@ijkl.mn").
Proof.
  refine (text_with_a_match_is_changed (lit "abcdefgh@ijkl.mn") 0 _).
  vm_compute. reflexivity.
Defined.

(* ===================================================================== *)
(** ** The copy button: encoding, the inline handler and decoding *)
(* ===================================================================== *)

Import Uri.

Lemma hex_value_hex_digit (n : N) :
  (n < 16)%N -> hex_value (hex_digit n) = Some n.
Proof.
  intros H. destruct n as [|p]; [reflexivity|].
  do 4 (try destruct p as [p|p|]); try reflexivity; exfalso; lia.
Qed.

Lemma take_percent_percent (b : N) (rest : jsstring) :
  (b < 256)%N -> take_percent (percent b ++ rest) = Some (b, rest).
Proof.
  intros H. unfold percent. cbn [app take_percent].
  rewrite N.eqb_refl.
  assert (H1 : (b / 16 < 16)%N) by (apply N.Div0.div_lt_upper_bound; lia).
  assert (H2 : (b mod 16 < 16)%N) by (apply N.mod_lt; lia).
  rewrite (hex_value_hex_digit _ H1), (hex_value_hex_digit _ H2).
  do 2 f_equal. rewrite N.mul_comm. symmetry. apply N.div_mod. lia.
Qed.

Lemma decode_plain (f : nat) (c : jschar) (s : jsstring) :
  (c =? 37)%N = false ->
  decode (S f) (c :: s) = option_map (cons c) (decode f s).
Proof. intros H. cbn [decode]. now rewrite H. Qed.

(** One escape at the head of the text. *)
Lemma decode_escape (f : nat) (b : N) (rest : jsstring) :
  (b < 256)%N ->
  decode (S f) (percent b ++ rest)
  = if (b <? 128)%N then option_map (cons b) (decode f rest)
    else if (b <? 192)%N then None
    else
      let '(n, lo, v) :=
        if (b <? 224)%N then (1%nat, 128%N, (b - 192)%N)
        else if (b <? 240)%N then (2%nat, 2048%N, (b - 224)%N)
        else (3%nat, 65536%N, (b - 240)%N) in
      if (248 <=? b)%N then None
      else
        match take_continuations n v rest with
        | None => None
        | Some (cp, rest') =>
            if ((lo <=? cp) && (cp <=? 1114111)
                && negb ((55296 <=? cp) && (cp <=? 57343)))%N
            then option_map (app (utf16 cp)) (decode f rest')
            else None
        end.
Proof.
  intros H.
  change (percent b ++ rest)
    with (37%N :: hex_digit (b / 16) :: hex_digit (b mod 16) :: rest).
  cbn [decode]. change (negb (37 =? 37)%N) with false. cbv iota.
  change (37%N :: hex_digit (b / 16) :: hex_digit (b mod 16) :: rest)
    with (percent b ++ rest).
  now rewrite (take_percent_percent b rest H).
Qed.

Lemma take_continuations_cons (n : nat) (v b : N) (rest : jsstring) :
  (128 <= b < 192)%N ->
  take_continuations (S n) v (percent b ++ rest)
  = take_continuations n (v * 64 + (b - 128))%N rest.
Proof.
  intros [H1 H2]. cbn [take_continuations].
  rewrite take_percent_percent by lia.
  rewrite (proj2 (N.leb_le _ _) H1), (proj2 (N.ltb_lt _ _) H2).
  reflexivity.
Qed.

Ltac divmod a b q r :=
  let H1 := fresh "Hdm" in
  let H2 := fresh "Hlt" in
  assert (H1 := N.div_mod a b ltac:(lia));
  assert (H2 := N.mod_lt a b ltac:(lia));
  set (q := (a / b)%N) in *; set (r := (a mod b)%N) in *;
  clearbody q r.

Ltac test_true := rewrite (proj2 (N.ltb_lt _ _)) by lia.
Ltac test_false := rewrite (proj2 (N.ltb_ge _ _)) by lia.

(** The escapes of a code point that is no surrogate decode to it. *)
Lemma decode_scalar (f : nat) (cp : N) (rest : jsstring) :
  (cp < 1114112)%N -> (cp < 55296 \/ 57344 <= cp)%N ->
  decode (S f) (flat_map percent (utf8 cp) ++ rest)
  = option_map (app (utf16 cp)) (decode f rest).
Proof.
  intros Hmax Hsur. unfold utf8.
  destruct (cp <? 128)%N eqn:E1.
  { apply N.ltb_lt in E1. cbn [flat_map]. rewrite app_nil_r.
    rewrite decode_escape by lia. test_true.
    unfold utf16. test_true. reflexivity. }
  apply N.ltb_ge in E1.
  destruct (cp <? 2048)%N eqn:E2.
  { apply N.ltb_lt in E2. cbn [flat_map]. rewrite app_nil_r, <- app_assoc.
    divmod cp 64%N q r.
    rewrite decode_escape by lia.
    test_false. test_false. test_true.
    rewrite (proj2 (N.leb_gt _ _)) by lia.
    rewrite take_continuations_cons by lia. cbn [take_continuations].
    replace ((192 + q - 192) * 64 + (128 + r - 128))%N with cp by lia.
    rewrite (proj2 (N.leb_le 128 cp)) by lia.
    rewrite (proj2 (N.leb_le cp 1114111)) by lia.
    replace ((55296 <=? cp) && (cp <=? 57343))%N with false; [reflexivity|].
    symmetry. apply andb_false_iff. left. apply N.leb_gt. lia. }
  apply N.ltb_ge in E2.
  destruct (cp <? 65536)%N eqn:E3.
  { apply N.ltb_lt in E3. cbn [flat_map]. rewrite app_nil_r, <- !app_assoc.
    replace (cp / 4096)%N with (cp / 64 / 64)%N
      by (now rewrite N.Div0.div_div).
    divmod cp 64%N q r. divmod q 64%N q2 r2.
    rewrite decode_escape by lia.
    test_false. test_false. test_false. test_true.
    rewrite (proj2 (N.leb_gt _ _)) by lia.
    rewrite take_continuations_cons by lia.
    rewrite take_continuations_cons by lia. cbn [take_continuations].
    replace (((224 + q2 - 224) * 64 + (128 + r2 - 128)) * 64
             + (128 + r - 128))%N with cp by lia.
    rewrite (proj2 (N.leb_le 2048 cp)) by lia.
    rewrite (proj2 (N.leb_le cp 1114111)) by lia.
    replace ((55296 <=? cp) && (cp <=? 57343))%N with false; [reflexivity|].
    symmetry. apply andb_false_iff.
    destruct Hsur; [left; apply N.leb_gt|right; apply N.leb_gt]; lia. }
  apply N.ltb_ge in E3.
  cbn [flat_map]. rewrite app_nil_r, <- !app_assoc.
  replace (cp / 262144)%N with (cp / 64 / 64 / 64)%N
    by (now rewrite !N.Div0.div_div).
  replace (cp / 4096)%N with (cp / 64 / 64)%N
    by (now rewrite N.Div0.div_div).
  divmod cp 64%N q r. divmod q 64%N q2 r2. divmod q2 64%N q3 r3.
  rewrite decode_escape by lia.
  test_false. test_false. test_false. test_false.
  rewrite (proj2 (N.leb_gt _ _)) by lia.
  rewrite take_continuations_cons by lia.
  rewrite take_continuations_cons by lia.
  rewrite take_continuations_cons by lia. cbn [take_continuations].
  replace ((((240 + q3 - 240) * 64 + (128 + r3 - 128)) * 64
            + (128 + r2 - 128)) * 64 + (128 + r - 128))%N with cp by lia.
  rewrite (proj2 (N.leb_le 65536 cp)) by lia.
  rewrite (proj2 (N.leb_le cp 1114111)) by lia.
  replace ((55296 <=? cp) && (cp <=? 57343))%N with false; [reflexivity|].
  symmetry. apply andb_false_iff. right. apply N.leb_gt. lia.
Qed.

Lemma unreserved_not_percent (c : jschar) :
  unreserved c = true -> (c =? 37)%N = false.
Proof.
  intros H. destruct (c =? 37)%N eqn:E; [|reflexivity].
  apply N.eqb_eq in E. subst c. discriminate H.
Qed.

Lemma utf16_pair (c d : jschar) :
  is_lead c = true -> is_trail d = true ->
  utf16 ((c - 55296) * 1024 + (d - 56320) + 65536)%N = [c; d].
Proof.
  unfold is_lead, is_trail. intros Hc Hd.
  apply andb_true_iff in Hc as [Hc1 Hc2].
  apply andb_true_iff in Hd as [Hd1 Hd2].
  apply N.leb_le in Hc1, Hc2, Hd1, Hd2.
  unfold utf16. test_false.
  replace ((c - 55296) * 1024 + (d - 56320) + 65536 - 65536)%N
    with (1024 * (c - 55296) + (d - 56320))%N by lia.
  rewrite <- (N.div_unique (1024 * (c - 55296) + (d - 56320)) 1024
                (c - 55296) (d - 56320)) by lia.
  rewrite <- (N.mod_unique (1024 * (c - 55296) + (d - 56320)) 1024
                (c - 55296) (d - 56320)) by lia.
  f_equal; [lia|f_equal; lia].
Qed.

(** Decoding what [encodeURIComponent] made gives the text back. *)
Lemma decode_encode (n : nat) :
  forall s, List.length s <= n ->
  forallb (fun u => (u <? 65536)%N) s = true ->
  forall e, encodeURIComponent s = Some e ->
  forall f, List.length e <= f -> decode f e = Some s.
Proof.
  induction n as [|n IH]; intros s Hn Hu e He f Hf.
  - destruct s; [|cbn in Hn; lia]. injection He as <-.
    destruct f; reflexivity.
  - destruct s as [|c s]; [injection He as <-; destruct f; reflexivity|].
    cbn [forallb] in Hu. apply andb_true_iff in Hu as [Hc Hu].
    apply N.ltb_lt in Hc. cbn [List.length] in Hn.
    cbn [encodeURIComponent] in He.
    destruct (unreserved c) eqn:U.
    { destruct (encodeURIComponent s) as [e'|] eqn:E'; [|discriminate].
      injection He as <-. destruct f as [|f]; [cbn in Hf; lia|].
      rewrite (decode_plain f c e' (unreserved_not_percent c U)).
      rewrite (IH s ltac:(lia) Hu e' E' f ltac:(cbn in Hf; lia)).
      reflexivity. }
    destruct (is_trail c) eqn:T; [discriminate|].
    destruct (is_lead c) eqn:L.
    { destruct s as [|d s]; [discriminate|].
      destruct (is_trail d) eqn:Td; [|discriminate].
      destruct (encodeURIComponent s) as [e'|] eqn:E'; [|discriminate].
      injection He as <-.
      cbn [forallb] in Hu. apply andb_true_iff in Hu as [_ Hu].
      assert (Hcp : (65536 <= (c - 55296) * 1024 + (d - 56320) + 65536
                     < 1114112)%N).
      { unfold is_lead, is_trail in L, Td.
        apply andb_true_iff in L as [L1 L2].
        apply andb_true_iff in Td as [T1 T2].
        apply N.leb_le in L1, L2, T1, T2. lia. }
      assert (Hlen : 0 < List.length
                (flat_map percent
                   (utf8 ((c - 55296) * 1024 + (d - 56320) + 65536)%N))).
      { unfold utf8. test_false. test_false. test_false. cbn. lia. }
      rewrite length_app in Hf.
      destruct f as [|f]; [lia|].
      rewrite decode_scalar by lia.
      rewrite (IH s ltac:(cbn in Hn; lia) Hu e' E' f).
      - cbn [option_map]. now rewrite (utf16_pair c d L Td).
      - unfold utf8 in Hf |- *. revert Hf.
        test_false. test_false. test_false. cbn. lia. }
    destruct (encodeURIComponent s) as [e'|] eqn:E'; [|discriminate].
    injection He as <-.
    assert (Hs : (c < 55296 \/ 57344 <= c)%N).
    { unfold is_lead, is_trail in L, T.
      apply andb_false_iff in L as [L|L];
        apply andb_false_iff in T as [T|T];
        apply N.leb_gt in L, T; lia. }
    assert (Hlen : 0 < List.length (flat_map percent (utf8 c))).
    { unfold utf8. destruct (c <? 128)%N; [cbn; lia|].
      destruct (c <? 2048)%N; [cbn; lia|].
      destruct (c <? 65536)%N; cbn; lia. }
    rewrite length_app in Hf. destruct f as [|f]; [lia|].
    rewrite decode_scalar by lia.
    rewrite (IH s ltac:(lia) Hu e' E' f).
    + cbn [option_map]. unfold utf16. test_true. reflexivity.
    + assert (2 < List.length (flat_map percent (utf8 c))); [|lia].
      unfold utf8. destruct (c <? 128)%N; [cbn; lia|].
      destruct (c <? 2048)%N; [cbn; lia|].
      destruct (c <? 65536)%N; cbn; lia.
Qed.

Lemma decodeURIComponent_encodeURIComponent (s e : jsstring) :
  forallb (fun u => (u <? 65536)%N) s = true ->
  encodeURIComponent s = Some e -> decodeURIComponent e = Some s.
Proof.
  intros Hu He. unfold decodeURIComponent.
  now apply (decode_encode (List.length s) s (le_n _) Hu e He).
Qed.

(** *** The text of the handler *)









(* ===================================================================== *)
(** ** The page: copy buttons, the end of a send *)
(* ===================================================================== *)

Lemma nodes_retire (k : nat) (w : world) : nodes (retire k w) = nodes w.
Proof.
  unfold retire. destruct (nth_error (pending w) k); reflexivity.
Qed.

Lemma set_shown_node (n : nat) (v : option jsstring) (w : world) (nd : node) :
  nth_error (nodes w) n = Some nd ->
  nth_error (nodes (set_shown n v w)) n
  = Some {| node_role := node_role nd; shown := v; onclick := onclick nd |}.
Proof.
  intros H. unfold set_shown. rewrite H. cbn.
  now apply (nth_error_set_nth_eq (nodes w) n _ nd).
Qed.

Lemma set_onclick_node (n : nat) (h : jsstring) (w : world) (nd : node) :
  nth_error (nodes w) n = Some nd ->
  nth_error (nodes (set_onclick n h w)) n
  = Some {| node_role := node_role nd; shown := shown nd; onclick := h |}.
Proof.
  intros H. unfold set_onclick. rewrite H. cbn.
  now apply (nth_error_set_nth_eq (nodes w) n _ nd).
Qed.

Section PageProperties.
Context {ops : NumberOps} {markup : Markup}.



End PageProperties.



(** *** A send up to its request *)

(** What a send that went through left: one more request, one more
    suspended call, the input box empty and the button disabled. *)
Lemma begin_suspended (cfg : config) (inp : send_input) (w w1 : world)
  (p : pending_send) :
  handleSend_begin cfg inp w = Suspended w1 p ->
  exists s earlier,
    nth_error (heap w1) (p_session p) = Some s
    /\ messages s
       = earlier ++ [{| role_of := user; content := trim (chatInput w) |}]
    /\ requests w1
       = requests w
         ++ [{| bearer := fst (ensureApiKey cfg (prompt_reply inp) w);
                sent_messages := messages s |}]
    /\ nonempty (fst (ensureApiKey cfg (prompt_reply inp) w)) = true
    /\ pending w1 = pending w ++ [p]
    /\ waiting p = true
    /\ sendDisabled w1 = true
    /\ chatInput w1 = []
    /\ exists nd, nth_error (nodes w1) (p_bot p) = Some nd
                  /\ node_role nd = bot.
Proof.
  unfold handleSend_begin. set (c := trim (chatInput w)).
  destruct (nonempty c) eqn:Hc; cbn [negb]; [|discriminate].
  pose proof (ensureApiKey_store cfg (prompt_reply inp) w) as He.
  destruct (ensureApiKey cfg (prompt_reply inp) w) as [apiKey wk].
  cbn [snd fst] in *. destruct He as (_ & _ & Hp1 & _ & _ & Hr1).
  destruct (nonempty apiKey) eqn:Hkey; cbn [negb]; [|discriminate].
  set (o := if no_current (currentSessionId wk)
            then createNewSession (now_id inp) (now_stamp inp) wk
            else Returned wk).
  assert (Ho : requests (world_of o) = requests w
               /\ pending (world_of o) = pending w).
  { unfold o. destruct (no_current (currentSessionId wk)).
    - destruct (createNewSession_effect (now_id inp) (now_stamp inp) wk)
        as (_ & Hp & _ & _ & Hr).
      split; congruence.
    - cbn. split; congruence. }
  destruct Ho as (Hr2 & Hp2).
  destruct o as [w2|w2]; cbn [before world_of] in *; [|discriminate].
  destruct (currentSessionId w2) as [cur|]; [|discriminate].
  destruct (find_session (heap w2) (sessions w2) cur) as [r|] eqn:Hf;
    [|discriminate].
  destruct (nth_error (heap w2) r) as [s|] eqn:Hs; [|discriminate].
  destruct (push_and_title w2 cur c (now_user inp) r s Hf Hs)
    as (Hh3 & Hp3 & Hr3 & _).
  cbv zeta in Hh3, Hp3, Hr3.
  set (w3 := updateSessionTitle cur c _) in *.
  pose proof (appendMessage_store user c w3) as Ha.
  destruct (appendMessage user c w3) as [w4|w4]; cbn [before world_of] in *;
    [|discriminate].
  set (w5 := set_input [] true w4).
  pose proof (appendMessage_store bot thinking w5) as Hb.
  unfold appendMessage in Hb |- *.
  destruct (Uri.encodeURIComponent thinking) as [et|]; cbn [before];
    [|discriminate].
  cbn [world_of] in Hb.
  set (w6 := set_nodes _ _ w5) in *.
  assert (Hh6 : heap w6 = set_nth r (after_user_message c (now_user inp) s)
                            (heap w2)).
  { rewrite (store_heap _ _ Hb). change (heap w5) with (heap w4).
    now rewrite (store_heap _ _ Ha). }
  assert (Hr6 : requests w6 = requests w).
  { rewrite (store_requests _ _ Hb). change (requests w5) with (requests w4).
    now rewrite (store_requests _ _ Ha), Hr3, Hr2. }
  assert (Hp6 : pending w6 = pending w).
  { rewrite (store_pending _ _ Hb). change (pending w5) with (pending w4).
    now rewrite (store_pending _ _ Ha), Hp3, Hp2. }
  assert (Hn6 : exists nd, nth_error (nodes w6) (List.length (nodes w6) - 1)
                           = Some nd /\ node_role nd = bot).
  { unfold w6. cbn [nodes set_nodes]. rewrite length_app. cbn [List.length].
    replace (List.length (nodes w5) + 1 - 1) with (List.length (nodes w5))
      by lia.
    rewrite nth_error_app2, Nat.sub_diag by lia. cbn. eexists. now split. }
  assert (Hd6 : sendDisabled w6 = true) by reflexivity.
  assert (Hi6 : chatInput w6 = []) by reflexivity.
  clearbody w6. intros H. injection H as <- <-.
  cbn [heap set_requests p_session requests pending waiting sendDisabled
       chatInput nodes p_bot].
  rewrite Hh6, (nth_error_set_nth_eq (heap w2) r _ s Hs), Hr6, Hp6.
  exists (after_user_message c (now_user inp) s), (messages s).
  repeat split; assumption.
Qed.

Import More.

Lemma updateSessionTitle_page (i c : jsstring) (w : world) :
  let w' := updateSessionTitle i c w in
  chatInput w' = chatInput w /\ sendDisabled w' = sendDisabled w
  /\ nodes w' = nodes w /\ chatMessages w' = chatMessages w
  /\ currentSessionId w' = currentSessionId w
  /\ toasts w' = toasts w /\ clipboard w' = clipboard w.
Proof.
  cbv zeta. unfold updateSessionTitle.
  destruct (find_session (heap w) (sessions w) i); [|now repeat split].
  destruct (nth_error (heap w) n); [|now repeat split].
  destruct (Nat.eqb (List.length (messages s)) 1); now repeat split.
Qed.

(** X6.  A send that goes through issues exactly one request.  It is
    authorized with the key that [ensureApiKey] resolved, which is not
    empty, and it carries (after the fixed system message) all the
    messages of the session the send holds, the new user message, trimmed,
    being the last. *)
Theorem request_carries_history (cfg : config) (inp : send_input)
  (w w1 : world) (p : pending_send) :
  handleSend_begin cfg inp w = Suspended w1 p ->
  exists s earlier,
    nth_error (heap w1) (p_session p) = Some s
    /\ messages s
       = earlier ++ [{| role_of := user; content := trim (chatInput w) |}]
    /\ requests w1
       = requests w
         ++ [{| bearer := fst (ensureApiKey cfg (prompt_reply inp) w);
                sent_messages := messages s |}]
    /\ nonempty (fst (ensureApiKey cfg (prompt_reply inp) w)) = true.
Proof.
  intros H.
  destruct (begin_suspended cfg inp w w1 p H)
    as (s & earlier & H1 & H2 & H3 & H4 & _).
  exists s, earlier. now repeat split.
Qed.

Lemma request_carries_history_witness :
  exists s earlier,
    nth_error (heap one_suspended) (p_session first_send) = Some s
    /\ messages s
       = earlier
         ++ [{| role_of := user; content := trim (chatInput typed_45) |}]
    /\ requests one_suspended
       = requests typed_45
         ++ [{| bearer := fst (ensureApiKey sample_config
                                 (prompt_reply sample_input) typed_45);
                sent_messages := messages s |}]
    /\ nonempty (fst (ensureApiKey sample_config
                        (prompt_reply sample_input) typed_45)) = true.
Proof.
  refine (request_carries_history sample_config sample_input typed_45
            one_suspended first_send _).
  vm_compute. reflexivity.
Defined.

(** X8.  A message that cannot be encoded stops its send, and stays in
    the session.  With a key and a current session at hand, a send whose
    trimmed input holds an unpaired surrogate throws in [appendMessage],
    after the message was pushed to the session: the session ends with
    the message (so that a later send of that session carries it), this
    send issues no request, no node is added, and the input box and the
    send button stay as they were. *)
Theorem unencodable_message_stops_the_send (cfg : config)
  (inp : send_input) (w : world) (cur : jsstring) (r : nat) (s : session) :
  nonempty (trim (chatInput w)) = true ->
  nonempty (getApiKey cfg w) = true ->
  currentSessionId w = Some cur -> nonempty cur = true ->
  find_session (heap w) (sessions w) cur = Some r ->
  nth_error (heap w) r = Some s ->
  Uri.encodeURIComponent (trim (chatInput w)) = None ->
  exists w',
    handleSend_begin cfg inp w = Stopped (Threw w')
    /\ nth_error (heap w') r
       = Some (after_user_message (trim (chatInput w)) (now_user inp) s)
    /\ requests w' = requests w /\ pending w' = pending w
    /\ nodes w' = nodes w /\ chatInput w' = chatInput w
    /\ sendDisabled w' = sendDisabled w.
Proof.
  intros Hc Hk Hcur Hne Hf Hs He.
  unfold handleSend_begin, ensureApiKey. set (c := trim (chatInput w)) in *.
  rewrite Hc, Hk. cbn [negb]. rewrite Hk. cbn [negb].
  unfold no_current. rewrite Hcur, Hne. cbn [negb before].
  rewrite Hcur, Hf, Hs.
  destruct (push_and_title w cur c (now_user inp) r s Hf Hs)
    as (Hh3 & Hp3 & Hr3 & _).
  cbv zeta in Hh3, Hp3, Hr3.
  destruct (updateSessionTitle_page cur c
              (set_heap
                 (set_nth r
                    (push_message {| role_of := user; content := c |}
                       (now_user inp) s) (heap w)) w))
    as (Hi & Hd & Hn & _).
  set (w3 := updateSessionTitle cur c _) in *.
  unfold appendMessage. rewrite He. cbn [before].
  exists w3. split; [reflexivity|].
  rewrite Hh3, (nth_error_set_nth_eq (heap w) r _ s Hs).
  repeat split; assumption.
Qed.

Lemma unencodable_message_stops_the_send_witness :
  exists w',
    handleSend_begin sample_config sample_input typed_surrogate
    = Stopped (Threw w')
    /\ nth_error (heap w') 0
       = Some (after_user_message (trim (chatInput typed_surrogate))
                 (now_user sample_input) fresh_session)
    /\ requests w' = requests typed_surrogate
    /\ pending w' = pending typed_surrogate
    /\ nodes w' = nodes typed_surrogate
    /\ chatInput w' = chatInput typed_surrogate
    /\ sendDisabled w' = sendDisabled typed_surrogate.
Proof.
  refine (unencodable_message_stops_the_send sample_config sample_input
            typed_surrogate (lit "1700000000000") 0 fresh_session
            _ _ _ _ _ _ _);
    vm_compute; reflexivity.
Defined.

Section SettleProperties.
Context {ops : NumberOps} {markup : Markup}.

Lemma sendDisabled_fail_send (p : pending_send) (msg : jsstring) (w : world) :
  sendDisabled (fail_send p msg w) = false.
Proof. reflexivity. Qed.

(** X7.  The send button follows the send.  A send that goes through
    empties the input box and disables the button; however its request
    settles (failure of the request, error status, stream read to its end
    or broken), the button is enabled again. *)
Theorem send_button_follows_the_send (cfg : config) (inp : send_input)
  (w w1 : world) (p : pending_send) :
  handleSend_begin cfg inp w = Suspended w1 p ->
  sendDisabled w1 = true
  /\ chatInput w1 = []
  /\ forall (resp : response) (now : N),
       sendDisabled
         (handleSend_settle (List.length (pending w)) resp now w1)
       = false.
Proof.
  intros H.
  destruct (begin_suspended cfg inp w w1 p H)
    as (s & earlier & _ & _ & _ & _ & Hp & Hw & Hd & Hi & _).
  split; [exact Hd|]. split; [exact Hi|].
  intros resp now. unfold handleSend_settle.
  rewrite Hp, nth_error_app2, Nat.sub_diag by lia. cbn [nth_error].
  rewrite Hw. cbn [negb].
  destruct resp as [msg|status body|chunks [msg|]]; try reflexivity.
  - destruct (status =? 401)%N; reflexivity.
  - destruct (Uri.encodeURIComponent _); reflexivity.
Qed.

End SettleProperties.

Lemma send_button_follows_the_send_witness :
  sendDisabled one_suspended = true
  /\ chatInput one_suspended = []
  /\ forall (resp : response) (now : N),
       sendDisabled
         (handleSend_settle (ops := lexeme_ops) (markup := plain_markup)
            (List.length (pending typed_45)) resp now one_suspended)
       = false.
Proof.
  refine (send_button_follows_the_send (ops := lexeme_ops) (markup := plain_markup)
      sample_config
            sample_input typed_45 one_suspended first_send _).
  vm_compute. reflexivity.
Defined.

(** *** The end of a send *)

Lemma retire_frame (k : nat) (w : world) :
  heap (retire k w) = heap w /\ sessions (retire k w) = sessions w
  /\ stored_sessions (retire k w) = stored_sessions w
  /\ toasts (retire k w) = toasts w /\ requests (retire k w) = requests w
  /\ stored_key (retire k w) = stored_key w.
Proof.
  unfold retire. destruct (nth_error (pending w) k); now repeat split.
Qed.

Lemma set_shown_frame (n : nat) (v : option jsstring) (w : world) :
  heap (set_shown n v w) = heap w /\ sessions (set_shown n v w) = sessions w
  /\ stored_sessions (set_shown n v w) = stored_sessions w
  /\ toasts (set_shown n v w) = toasts w
  /\ requests (set_shown n v w) = requests w
  /\ stored_key (set_shown n v w) = stored_key w.
Proof.
  unfold set_shown. destruct (nth_error (nodes w) n); now repeat split.
Qed.

Lemma set_onclick_frame (n : nat) (h : jsstring) (w : world) :
  heap (set_onclick n h w) = heap w
  /\ sessions (set_onclick n h w) = sessions w
  /\ stored_sessions (set_onclick n h w) = stored_sessions w
  /\ toasts (set_onclick n h w) = toasts w.
Proof.
  unfold set_onclick. destruct (nth_error (nodes w) n); now repeat split.
Qed.

(** The [catch] block on a page where the reply's node is there. *)
Lemma fail_send_effect (p : pending_send) (msg : jsstring) (w : world)
  (nd : node) :
  nth_error (nodes w) (p_bot p) = Some nd ->
  let w' := fail_send p msg w in
  heap w' = heap w /\ sessions w' = sessions w
  /\ stored_sessions w' = stored_sessions w
  /\ requests w' = requests w
  /\ toasts w' = toasts w ++ [(msg, true)]
  /\ nth_error (nodes w') (p_bot p)
     = Some {| node_role := node_role nd;
               shown := Some (lit "**Error:** " ++ msg);
               onclick := onclick nd |}.
Proof.
  intros Hn. cbv zeta. unfold fail_send.
  destruct (set_shown_frame (p_bot p) (Some (lit "**Error:** " ++ msg)) w)
    as (H1 & H2 & H3 & H4 & H5 & _).
  pose proof (set_shown_node (p_bot p) (Some (lit "**Error:** " ++ msg)) w
                nd Hn) as H6.
  set (w1 := set_shown _ _ w) in *. clearbody w1.
  cbn. rewrite H1, H2, H3, H4, H5, H6. now repeat split.
Qed.

Lemma fail_send_key (p : pending_send) (msg : jsstring) (w : world) :
  stored_key (fail_send p msg w) = stored_key w.
Proof.
  unfold fail_send, set_shown.
  destruct (nth_error (nodes w) (p_bot p)); reflexivity.
Qed.

Section EndProperties.
Context {ops : NumberOps} {markup : Markup}.

(** X9.  When the stream of a reply ends without error and the reply can
    be encoded (it holds no unpaired surrogate), the reply is committed:
    the session the send holds gets one more message, of role
    [assistant], whose content is the text accumulated from the stream,
    with the clock reading as [updatedAt]; storage is then written and
    holds the sessions as they are in memory; the node of the reply shows
    that same text (or nothing, if no fragment was ever rendered); its
    copy button carries the encoding of the text, unless the markup of
    the reply holds an element of class [action-icon], in which case the
    button keeps the handler it had; no toast is shown. *)
Theorem reply_is_committed (w : world) (k : nat) (p : pending_send)
  (nd : node) (s : session) (chunks : list jsstring) (now : N)
  (e : jsstring) :
  nth_error (pending w) k = Some p ->
  waiting p = true ->
  nth_error (nodes w) (p_bot p) = Some nd ->
  nth_error (heap w) (p_session p) = Some s ->
  Uri.encodeURIComponent (botResponse (consume Stream.start chunks))
  = Some e ->
  let st := consume Stream.start chunks in
  let w' := handleSend_settle k (HttpOk chunks None) now w in
  nth_error (heap w') (p_session p)
  = Some (push_message {| role_of := assistant; content := botResponse st |}
            now s)
  /\ stored_sessions w' = Some (deref (heap w') (sessions w'))
  /\ nth_error (nodes w') (p_bot p)
     = Some {| node_role := node_role nd;
               shown := match renders st with
                        | [] => None
                        | _ :: _ => Some (botResponse st)
                        end;
               onclick := if icon_in_reply st then onclick nd
                          else Uri.copy_handler e |}
  /\ toasts w' = toasts w.
Proof.
  intros Hk Hw Hn Hs He. cbv zeta. unfold handleSend_settle.
  rewrite Hk, Hw, He. cbn [negb]. cbv zeta.
  destruct (retire_frame k w) as (R1 & R2 & R3 & R4 & _).
  assert (N1 : nth_error (nodes (retire k w)) (p_bot p) = Some nd)
    by now rewrite nodes_retire.
  set (w1 := retire k w) in *. clearbody w1.
  destruct (set_shown_frame (p_bot p) None w1) as (S1 & S2 & S3 & S4 & _).
  pose proof (set_shown_node (p_bot p) None w1 nd N1) as N2.
  set (w2 := set_shown (p_bot p) None w1) in *. clearbody w2.
  set (st := consume Stream.start chunks) in *.
  set (w3 := match renders st with
             | [] => w2
             | _ :: _ => set_shown (p_bot p) (Some (botResponse st)) w2
             end).
  assert (F3 : heap w3 = heap w /\ sessions w3 = sessions w
               /\ toasts w3 = toasts w
               /\ nth_error (nodes w3) (p_bot p)
                  = Some {| node_role := node_role nd;
                            shown := match renders st with
                                     | [] => None
                                     | _ :: _ => Some (botResponse st)
                                     end;
                            onclick := onclick nd |}).
  { unfold w3. destruct (renders st).
    - repeat split; congruence.
    - destruct (set_shown_frame (p_bot p) (Some (botResponse st)) w2)
        as (T1 & T2 & _ & T4 & _).
      rewrite T1, T2, T4,
        (set_shown_node (p_bot p) (Some (botResponse st)) w2 _ N2).
      repeat split; congruence. }
  clearbody w3. destruct F3 as (H1 & H2 & H4 & N3).
  rewrite H1, Hs.
  set (w4 := set_heap _ w3).
  assert (F4 : heap w4
               = set_nth (p_session p)
                   (push_message
                      {| role_of := assistant; content := botResponse st |}
                      now s) (heap w)) by reflexivity.
  assert (G4 : sessions w4 = sessions w) by exact H2.
  assert (T4 : toasts w4 = toasts w) by exact H4.
  assert (N4 : nth_error (nodes (saveSessions w4)) (p_bot p) = _)
    by exact N3.
  destruct (icon_in_reply st).
  { cbn [heap sessions stored_sessions nodes toasts set_input saveSessions
         set_stored_sessions].
    rewrite F4, T4. split.
    { now apply (nth_error_set_nth_eq (heap w) _ _ s). }
    split; [reflexivity|]. split; [exact N4|reflexivity]. }
  pose proof (set_onclick_node (p_bot p) (Uri.copy_handler e) _ _ N4) as N5.
  destruct (set_onclick_frame (p_bot p) (Uri.copy_handler e) (saveSessions w4))
    as (O1 & O2 & O3 & O4).
  set (w5 := set_onclick _ _ (saveSessions w4)) in *. clearbody w5.
  cbn [heap sessions stored_sessions nodes toasts set_input].
  rewrite O1, O2, O3, O4, N5. cbn [saveSessions heap sessions stored_sessions
    set_stored_sessions toasts node_role shown].
  rewrite F4, T4. split.
  { now apply (nth_error_set_nth_eq (heap w) _ _ s). }
  now repeat split.
Qed.

(** X10.  A failed send stores no reply.  When the request fails, the
    status is an error or the reader breaks before the end of the stream,
    no session changes and the stored sessions are not written (what was
    streamed so far is dropped); the stored key is removed when the status
    is 401 and is as it was otherwise; one error toast is shown, and the
    node of the reply shows the error message in place of the reply, its
    copy button unchanged. *)
Theorem failed_send_stores_no_reply (w : world) (k : nat) (p : pending_send)
  (nd : node) (resp : response) (now : N) :
  nth_error (pending w) k = Some p ->
  waiting p = true ->
  nth_error (nodes w) (p_bot p) = Some nd ->
  is_failure resp = true ->
  let w' := handleSend_settle k resp now w in
  heap w' = heap w /\ sessions w' = sessions w
  /\ stored_sessions w' = stored_sessions w
  /\ stored_key w'
     = match resp with
       | HttpError status _ =>
           if (status =? 401)%N then None else stored_key w
       | _ => stored_key w
       end
  /\ requests w' = requests w
  /\ exists msg,
       toasts w' = toasts w ++ [(msg, true)]
       /\ nth_error (nodes w') (p_bot p)
          = Some {| node_role := node_role nd;
                    shown := Some (lit "**Error:** " ++ msg);
                    onclick := onclick nd |}.
Proof.
  intros Hk Hw Hn Hf. cbv zeta. unfold handleSend_settle.
  rewrite Hk, Hw. cbn [negb]. cbv zeta.
  destruct (retire_frame k w) as (R1 & R2 & R3 & R4 & R5 & R6).
  assert (N1 : nth_error (nodes (retire k w)) (p_bot p) = Some nd)
    by now rewrite nodes_retire.
  set (w1 := retire k w) in *. clearbody w1.
  destruct resp as [msg|status body|chunks [msg|]]; [| | |discriminate].
  - destruct (fail_send_effect p msg w1 nd N1) as (F1 & F2 & F3 & F4 & F5 & F6).
    rewrite F1, F2, F3, F4, fail_send_key. repeat split; try assumption.
    exists msg. split; [congruence|exact F6].
  - destruct (status =? 401)%N.
    + destruct (fail_send_effect p
                  (lit "Invalid API Key. Please refresh and enter a valid key.")
                  (set_stored_key None w1) nd N1)
        as (F1 & F2 & F3 & F4 & F5 & F6).
      rewrite F1, F2, F3, F4, fail_send_key. repeat split; try assumption.
      eexists. split; [rewrite F5; cbn; now rewrite R4|exact F6].
    + match goal with
      | |- context [fail_send p ?m w1] =>
          destruct (fail_send_effect p m w1 nd N1)
            as (F1 & F2 & F3 & F4 & F5 & F6);
          rewrite F1, F2, F3, F4, fail_send_key;
          repeat split; try assumption;
          exists m; split; [congruence|exact F6]
      end.
  - destruct (set_shown_frame (p_bot p) None w1)
      as (S1 & S2 & S3 & S4 & S5 & S6).
    pose proof (set_shown_node (p_bot p) None w1 nd N1) as N2.
    set (w2 := set_shown (p_bot p) None w1) in *. clearbody w2.
    set (st := consume Stream.start chunks).
    set (w3 := match renders st with
               | [] => w2
               | _ :: _ => set_shown (p_bot p) (Some (botResponse st)) w2
               end).
    assert (K3 : stored_key w3 = stored_key w).
    { unfold w3. destruct (renders st); [congruence|].
      destruct (set_shown_frame (p_bot p) (Some (botResponse st)) w2)
        as (_ & _ & _ & _ & _ & T6). congruence. }
    assert (F3 : heap w3 = heap w /\ sessions w3 = sessions w
                 /\ stored_sessions w3 = stored_sessions w
                 /\ toasts w3 = toasts w /\ requests w3 = requests w
                 /\ exists nd3, nth_error (nodes w3) (p_bot p) = Some nd3
                                /\ node_role nd3 = node_role nd
                                /\ onclick nd3 = onclick nd).
    { unfold w3. destruct (renders st).
      - repeat split; try congruence. eexists. split; [exact N2|now split].
      - destruct (set_shown_frame (p_bot p) (Some (botResponse st)) w2)
          as (T1 & T2 & T3 & T4 & T5 & _).
        rewrite T1, T2, T3, T4, T5. repeat split; try congruence.
        eexists. split; [apply (set_shown_node _ _ w2 _ N2)|now split]. }
    clearbody w3. destruct F3 as (H1 & H2 & H3 & H4 & H5 & nd3 & N3 & Hr & Ho).
    destruct (fail_send_effect p msg w3 nd3 N3)
      as (F1 & F2 & F3 & F4 & F5 & F6).
    rewrite F1, F2, F3, F4, fail_send_key. repeat split; try assumption.
    exists msg. split; [congruence|]. rewrite F6. now rewrite Hr, Ho.
Qed.

End EndProperties.

Lemma reply_is_committed_witness :
  let chunks := [unlines [qlit "data: {'choices':[{'delta':{'content':'4'}}]}"]] in
  let st := consume (ops := lexeme_ops) Stream.start chunks in
  let w' := handleSend_settle (ops := lexeme_ops) (markup := plain_markup)
      0 (HttpOk chunks None)
              1700000000005 one_suspended in
  nth_error (heap w') (p_session first_send)
  = Some (push_message {| role_of := assistant; content := botResponse st |}
            1700000000005
            (after_user_message (trim (chatInput typed_45))
               1700000000002 fresh_session))
  /\ stored_sessions w' = Some (deref (heap w') (sessions w'))
  /\ nth_error (nodes w') (p_bot first_send)
     = Some {| node_role := bot;
               shown := match renders st with
                        | [] => None
                        | _ :: _ => Some (botResponse st)
                        end;
               onclick :=
                 if icon_in_reply (markup := plain_markup) st
                 then Uri.copy_handler
                        (lit "%3Ci%20class%3D%22fas%20fa-circle-notch%20fa-spin%22%3E%3C%2Fi%3E%20Thinking...")
                 else Uri.copy_handler (lit "4") |}
  /\ toasts w' = toasts one_suspended.
Proof.
  refine (reply_is_committed (ops := lexeme_ops) (markup := plain_markup)
      one_suspended 0 first_send
            {| node_role := bot; shown := Some thinking;
               onclick := Uri.copy_handler
                            (lit "%3Ci%20class%3D%22fas%20fa-circle-notch%20fa-spin%22%3E%3C%2Fi%3E%20Thinking...") |}
            (after_user_message (trim (chatInput typed_45))
               1700000000002 fresh_session)
            [unlines [qlit "data: {'choices':[{'delta':{'content':'4'}}]}"]]
            1700000000005 (lit "4") _ _ _ _ _);
    vm_compute; reflexivity.
Defined.

Lemma failed_send_stores_no_reply_witness :
  let w' := handleSend_settle (ops := lexeme_ops) (markup := plain_markup) 0
              (HttpError 500 None) 1700000000005 one_suspended in
  heap w' = heap one_suspended /\ sessions w' = sessions one_suspended
  /\ stored_sessions w' = stored_sessions one_suspended
  /\ stored_key w'
     = match HttpError 500 None with
       | HttpError status _ =>
           if (status =? 401)%N then None else stored_key one_suspended
       | _ => stored_key one_suspended
       end
  /\ requests w' = requests one_suspended
  /\ exists msg,
       toasts w' = toasts one_suspended ++ [(msg, true)]
       /\ nth_error (nodes w') (p_bot first_send)
          = Some {| node_role := bot;
                    shown := Some (lit "**Error:** " ++ msg);
                    onclick := Uri.copy_handler
                                 (lit "%3Ci%20class%3D%22fas%20fa-circle-notch%20fa-spin%22%3E%3C%2Fi%3E%20Thinking...") |}.
Proof.
  refine (failed_send_stores_no_reply (ops := lexeme_ops) (markup := plain_markup)
      one_suspended 0
            first_send
            {| node_role := bot; shown := Some thinking;
               onclick := Uri.copy_handler
                            (lit "%3Ci%20class%3D%22fas%20fa-circle-notch%20fa-spin%22%3E%3C%2Fi%3E%20Thinking...") |}
            (HttpError 500 None) 1700000000005 _ _ _ _);
    vm_compute; reflexivity.
Defined.

(** *** The history list and the sessions *)

Lemma insert_desc_perm (h : list session) (r : nat) (l : list nat) :
  Permutation (r :: l) (insert_desc h r l).
Proof.
  induction l as [|x l IH]; cbn [insert_desc]; [apply Permutation_refl|].
  destruct (stamp h x <=? stamp h r)%N; [apply Permutation_refl|].
  eapply Permutation_trans; [apply perm_swap|]. now apply perm_skip.
Qed.

Lemma sort_desc_perm (h : list session) (l : list nat) :
  Permutation l (sort_desc h l).
Proof.
  induction l as [|x l IH]; cbn; [apply Permutation_refl|].
  eapply Permutation_trans; [apply perm_skip, IH|apply insert_desc_perm].
Qed.

Lemma insert_desc_descending (h : list session) (r : nat) (l : list nat) :
  descending h l -> descending h (insert_desc h r l).
Proof.
  induction l as [|x l IH]; intros H; cbn [insert_desc].
  - cbn. split; [intros ? []|exact I].
  - destruct H as [Hx Hl].
    destruct (stamp h x <=? stamp h r)%N eqn:E.
    + apply N.leb_le in E. cbn [descending]. split; [|now split].
      intros y [<-|Hy]; [exact E|]. specialize (Hx y Hy). lia.
    + apply N.leb_gt in E. cbn [descending]. split; [|now apply IH].
      intros y Hy.
      apply (Permutation_in y (Permutation_sym (insert_desc_perm h r l)))
        in Hy.
      destruct Hy as [<-|Hy]; [lia|now apply Hx].
Qed.

Lemma sort_desc_descending (h : list session) (l : list nat) :
  descending h (sort_desc h l).
Proof.
  induction l as [|x l IH]; cbn; [exact I|].
  now apply insert_desc_descending.
Qed.

Lemma insert_desc_stable (h : list session) (t : N) (r : nat) (l : list nat) :
  filter (fun x => (stamp h x =? t)%N) (insert_desc h r l)
  = filter (fun x => (stamp h x =? t)%N) (r :: l).
Proof.
  induction l as [|x l IH]; cbn [insert_desc]; [reflexivity|].
  destruct (stamp h x <=? stamp h r)%N eqn:E; [reflexivity|].
  apply N.leb_gt in E. cbn [filter] in *. rewrite IH.
  destruct (stamp h x =? t)%N eqn:Ex; [|reflexivity].
  destruct (stamp h r =? t)%N eqn:Er; [|reflexivity].
  apply N.eqb_eq in Ex, Er. lia.
Qed.

Lemma sort_desc_stable (h : list session) (t : N) (l : list nat) :
  filter (fun x => (stamp h x =? t)%N) (sort_desc h l)
  = filter (fun x => (stamp h x =? t)%N) l.
Proof.
  induction l as [|x l IH]; [reflexivity|].
  change (sort_desc h (x :: l)) with (insert_desc h x (sort_desc h l)).
  rewrite insert_desc_stable. cbn [filter]. now rewrite IH.
Qed.

(** X11.  [renderHistory] orders the sessions and loses none: the array
    holds the same references as before, no session is followed by one
    with a later [updatedAt], sessions with the same [updatedAt] keep
    their order, and the session objects themselves are untouched. *)
Theorem renderHistory_orders_sessions (w : world) :
  Permutation (sessions w) (sessions (renderHistory w))
  /\ descending (heap w) (sessions (renderHistory w))
  /\ (forall t : N,
        filter (fun x => (stamp (heap w) x =? t)%N) (sessions (renderHistory w))
        = filter (fun x => (stamp (heap w) x =? t)%N) (sessions w))
  /\ heap (renderHistory w) = heap w
  /\ stored_sessions (renderHistory w) = stored_sessions w.
Proof.
  unfold renderHistory. cbn [sessions set_sessions heap stored_sessions].
  split; [apply sort_desc_perm|]. split; [apply sort_desc_descending|].
  split; [intros t; apply sort_desc_stable|]. now split.
Qed.

Lemma drawn_new (old new : list node) (w : world) :
  nodes w = old ++ new ->
  chatMessages w = List.seq (List.length old) (List.length new) ->
  drawn w = map (fun nd => (node_role nd, shown nd)) new.
Proof.
  unfold drawn. intros -> ->. clear w.
  revert old. induction new as [|x new IH]; intros old; [reflexivity|].
  cbn [List.length List.seq flat_map map].
  rewrite nth_error_app2, Nat.sub_diag by lia. cbn [nth_error app].
  f_equal. specialize (IH (old ++ [x])).
  rewrite <- app_assoc, length_app in IH. cbn [List.length app] in IH.
  replace (List.length old + 1) with (S (List.length old)) in IH by lia.
  exact IH.
Qed.

(** Drawing messages that can all be encoded adds their nodes, in order. *)
Lemma appendMessages_draws (ms : list message) :
  forallb encodable ms = true ->
  forall w, exists w' new,
    appendMessages ms w = Returned w'
    /\ nodes w' = nodes w ++ new
    /\ chatMessages w'
       = chatMessages w ++ List.seq (List.length (nodes w)) (List.length new)
    /\ map (fun nd => (node_role nd, shown nd)) new
       = map (fun m => (role_of m, Some (content m))) ms
    /\ store w' = store w.
Proof.
  induction ms as [|m ms IH]; intros He w.
  - exists w, []. cbn. rewrite !app_nil_r. now repeat split.
  - cbn [forallb] in He. apply andb_true_iff in He as [Hm He].
    unfold encodable in Hm. cbn [appendMessages]. unfold appendMessage.
    destruct (Uri.encodeURIComponent (content m)) as [e|]; [|discriminate].
    cbn [andThen].
    set (nd := {| node_role := role_of m; shown := Some (content m);
                  onclick := Uri.copy_handler e |}).
    set (w1 := set_nodes (nodes w ++ [nd])
                 (chatMessages w ++ [List.length (nodes w)]) w).
    destruct (IH He w1) as (w' & new & H1 & H2 & H3 & H4 & H5).
    exists w', (nd :: new). split; [exact H1|].
    split; [rewrite H2; unfold w1; cbn; now rewrite <- app_assoc|].
    split.
    + rewrite H3. unfold w1. cbn [chatMessages set_nodes nodes].
      rewrite <- app_assoc, length_app. cbn [List.length app List.seq].
      now replace (List.length (nodes w) + 1) with (S (List.length (nodes w)))
        by lia.
    + split; [cbn [map]; now rewrite H4|]. rewrite H5. reflexivity.
Qed.

(** X12.  [loadSession] redraws the session: for the id of a session
    whose messages can all be encoded, it makes the session the current
    one and the chat shows exactly its messages, in their order, each with
    its role.  The session objects and storage are not touched; the
    array of sessions is sorted again, by the [renderHistory] that ends
    the call. *)
Theorem loadSession_draws_the_session (i : jsstring) (w : world) (r : nat)
  (s : session) :
  find_session (heap w) (sessions w) i = Some r ->
  nth_error (heap w) r = Some s ->
  forallb encodable (messages s) = true ->
  exists w',
    loadSession i w = Returned w'
    /\ currentSessionId w' = Some i
    /\ drawn w' = map (fun m => (role_of m, Some (content m))) (messages s)
    /\ heap w' = heap w
    /\ sessions w' = sort_desc (heap w) (sessions w)
    /\ stored_sessions w' = stored_sessions w.
Proof.
  intros Hf Hs He. unfold loadSession.
  cbn [heap sessions set_nodes set_current]. rewrite Hf, Hs.
  set (w0 := set_nodes _ [] _).
  destruct (appendMessages_draws (messages s) He w0)
    as (w1 & new & H1 & H2 & H3 & H4 & H5).
  rewrite H1. cbn [andThen]. exists (renderHistory w1).
  split; [reflexivity|].
  assert (Hd : drawn (renderHistory w1)
               = map (fun nd => (node_role nd, shown nd)) new).
  { apply (drawn_new (nodes w0) new); [exact H2|exact H3]. }
  rewrite Hd, H4. cbn [renderHistory currentSessionId set_sessions heap
    stored_sessions sessions].
  rewrite (store_current _ _ H5), (store_heap _ _ H5), (store_stored _ _ H5),
    (store_sessions _ _ H5).
  now repeat split.
Qed.

Lemma loadSession_draws_the_session_witness :
  exists w',
    loadSession (lit "1690000000000") (boot (Some three_sessions) None)
    = Returned w'
    /\ currentSessionId w' = Some (lit "1690000000000")
    /\ drawn w'
       = map (fun m => (role_of m, Some (content m)))
           (messages earlier_exchange)
    /\ heap w' = heap (boot (Some three_sessions) None)
    /\ sessions w'
       = sort_desc (heap (boot (Some three_sessions) None))
           (sessions (boot (Some three_sessions) None))
    /\ stored_sessions w' = stored_sessions (boot (Some three_sessions) None).
Proof.
  refine (loadSession_draws_the_session (lit "1690000000000")
            (boot (Some three_sessions) None) 1 earlier_exchange _ _ _);
    vm_compute; reflexivity.
Defined.

Lemma find_session_heap_app (h extra : list session) (l : list nat)
  (i : jsstring) :
  forallb (fun r => r <? List.length h) l = true ->
  find_session (h ++ extra) l i = find_session h l i.
Proof.
  induction l as [|r l IH]; intros H; [reflexivity|].
  cbn [forallb] in H. apply andb_true_iff in H as [Hr H].
  apply Nat.ltb_lt in Hr. cbn [find_session].
  rewrite nth_error_app1 by exact Hr. now rewrite (IH H).
Qed.

Lemma find_session_app_none (h : list session) (l1 l2 : list nat)
  (i : jsstring) :
  find_session h l1 i = None ->
  find_session h (l1 ++ l2) i = find_session h l2 i.
Proof.
  induction l1 as [|r l IH]; intros H; [reflexivity|].
  cbn [find_session app] in *. destruct (nth_error h r) as [s|].
  - destruct (str_eqb (id s) i); [discriminate|now apply IH].
  - now apply IH.
Qed.

Lemma deref_heap_app (h extra : list session) (l : list nat) :
  forallb (fun r => r <? List.length h) l = true ->
  deref (h ++ extra) l = deref h l.
Proof.
  induction l as [|r l IH]; intros H; [reflexivity|].
  cbn [forallb] in H. apply andb_true_iff in H as [Hr H].
  apply Nat.ltb_lt in Hr. unfold deref in *. cbn [flat_map].
  rewrite nth_error_app1 by exact Hr. now rewrite (IH H).
Qed.

Lemma deref_app (h : list session) (l1 l2 : list nat) :
  deref h (l1 ++ l2) = deref h l1 ++ deref h l2.
Proof. unfold deref. apply flat_map_app. Qed.

(** X13.  [createNewSession] on a page whose sessions have other ids: the
    new session, without message and titled [New Chat], is added to the
    sessions, storage is written and holds the earlier sessions followed
    by the new one, the new session becomes the current one and the chat
    is empty. *)
Theorem createNewSession_opens_an_empty_chat (a b : N) (w : world) :
  forallb (fun r => r <? List.length (heap w)) (sessions w) = true ->
  find_session (heap w) (sessions w) (Number_toString a) = None ->
  let fresh := {| id := Number_toString a; title := lit "New Chat";
                  messages := []; updatedAt := b |} in
  exists w',
    createNewSession a b w = Returned w'
    /\ heap w' = heap w ++ [fresh]
    /\ Permutation (sessions w') (sessions w ++ [List.length (heap w)])
    /\ stored_sessions w' = Some (deref (heap w) (sessions w) ++ [fresh])
    /\ currentSessionId w' = Some (Number_toString a)
    /\ drawn w' = [].
Proof.
  intros Hv Hf. cbv zeta. unfold createNewSession, loadSession.
  cbn [id heap sessions set_nodes set_current saveSessions
       set_stored_sessions set_sessions set_heap].
  rewrite (find_session_app_none _ _ _ _
             ltac:(rewrite find_session_heap_app; [exact Hf|exact Hv])).
  cbn [find_session]. rewrite nth_error_app2, Nat.sub_diag by lia.
  cbn [nth_error id]. rewrite str_eqb_refl.
  rewrite nth_error_app2, Nat.sub_diag by lia.
  cbn [nth_error messages appendMessages andThen].
  eexists. split; [reflexivity|].
  cbn [renderHistory heap sessions set_sessions set_nodes set_current
       stored_sessions set_stored_sessions currentSessionId].
  split; [reflexivity|]. split; [apply Permutation_sym, sort_desc_perm|].
  split.
  { unfold saveSessions.
    cbn [stored_sessions set_stored_sessions heap sessions set_sessions
         set_heap].
    rewrite deref_app, (deref_heap_app _ _ _ Hv). unfold deref at 2.
    cbn [flat_map]. rewrite nth_error_app2, Nat.sub_diag by lia.
    reflexivity. }
  split; reflexivity.
Qed.

Lemma createNewSession_opens_an_empty_chat_witness :
  let w := boot (Some three_sessions) None in
  let fresh := {| id := Number_toString 1700000000000;
                  title := lit "New Chat";
                  messages := []; updatedAt := 1700000000001 |} in
  exists w',
    createNewSession 1700000000000 1700000000001 w = Returned w'
    /\ heap w' = heap w ++ [fresh]
    /\ Permutation (sessions w') (sessions w ++ [List.length (heap w)])
    /\ stored_sessions w' = Some (deref (heap w) (sessions w) ++ [fresh])
    /\ currentSessionId w' = Some (Number_toString 1700000000000)
    /\ drawn w' = [].
Proof.
  refine (createNewSession_opens_an_empty_chat 1700000000000 1700000000001
            (boot (Some three_sessions) None) _ _);
    vm_compute; reflexivity.
Defined.

(* ===================================================================== *)
(** ** The key *)
(* ===================================================================== *)

Lemma getApiKey_stored (cfg : config) (w : world) :
  nonempty (getApiKey cfg w) = false ->
  forall w2, getApiKey cfg w2
             = match stored_key w2 with Some k => k | None => [] end.
Proof.
  unfold getApiKey. intros H w2.
  destruct (meta_key cfg) as [|c m]; cbn [nonempty] in *; [|discriminate].
  destruct (process_key cfg) as [|d q]; cbn [nonempty] in *;
    [reflexivity|discriminate].
Qed.

(** X14.  A key that [ensureApiKey] resolved is the key of the next
    calls: when it returns a key (injected, stored, or just typed in and
    saved), [getApiKey] returns that key on the page it leaves, and a
    further [ensureApiKey] returns it again without a prompt, a toast or
    any other change. *)
Theorem resolved_key_is_kept (cfg : config) (reply : option jsstring)
  (w : world) :
  nonempty (fst (ensureApiKey cfg reply w)) = true ->
  let k := fst (ensureApiKey cfg reply w) in
  let w' := snd (ensureApiKey cfg reply w) in
  getApiKey cfg w' = k
  /\ forall reply', ensureApiKey cfg reply' w' = (k, w').
Proof.
  intros H. cbv zeta.
  assert (G : getApiKey cfg (snd (ensureApiKey cfg reply w))
              = fst (ensureApiKey cfg reply w)).
  { revert H. unfold ensureApiKey.
    destruct (nonempty (getApiKey cfg w)) eqn:K; [reflexivity|].
    destruct reply as [u|]; [|discriminate].
    destruct (nonempty u && nonempty (trim u)); [|discriminate].
    intros _. cbn [fst snd]. now rewrite (getApiKey_stored cfg w K). }
  split; [exact G|]. intros reply'.
  unfold ensureApiKey at 1. rewrite G, H. reflexivity.
Qed.

Lemma resolved_key_is_kept_witness :
  let k := fst (ensureApiKey sample_config (Some (lit "  sk-typed ")) 
                  (boot None None)) in
  let w' := snd (ensureApiKey sample_config (Some (lit "  sk-typed "))
                   (boot None None)) in
  getApiKey sample_config w' = k
  /\ forall reply', ensureApiKey sample_config reply' w' = (k, w').
Proof.
  refine (resolved_key_is_kept sample_config (Some (lit "  sk-typed "))
            (boot None None) _).
  vm_compute. reflexivity.
Defined.

(** *** What is kept in storage *)








Section KeyProperties.
Context {ops : NumberOps} {markup : Markup}.




End KeyProperties.


(** X19.  Without a key there is no send.  With something typed, no key
    injected or stored, and a prompt that is cancelled or answered with
    white space only, the send stops after the prompt: an error toast is
    shown, nothing is stored, no session is created or changed, no
    request is issued, no node is added and the input box keeps its
    text. *)
Theorem no_key_no_send (cfg : config) (inp : send_input) (w : world) :
  nonempty (trim (chatInput w)) = true ->
  nonempty (getApiKey cfg w) = false ->
  match prompt_reply inp with
  | Some u => nonempty (trim u)
  | None => false
  end = false ->
  exists w',
    handleSend_begin cfg inp w = Stopped (Returned w')
    /\ prompts w' = S (prompts w)
    /\ toasts w' = toasts w ++ [(lit "API Key is required to chat.", true)]
    /\ stored_key w' = stored_key w
    /\ heap w' = heap w /\ sessions w' = sessions w
    /\ stored_sessions w' = stored_sessions w
    /\ requests w' = requests w /\ nodes w' = nodes w
    /\ chatInput w' = chatInput w.
Proof.
  intros Hc Hk Hr. unfold handleSend_begin, ensureApiKey.
  rewrite Hc, Hk. cbn [negb].
  destruct (prompt_reply inp) as [u|].
  - rewrite Hr, andb_false_r. cbn [nonempty negb].
    eexists. split; [reflexivity|]. now repeat split.
  - cbn [nonempty negb]. eexists. split; [reflexivity|]. now repeat split.
Qed.

Lemma no_key_no_send_witness :
  exists w',
    handleSend_begin sample_config
      {| prompt_reply := Some (lit "   "); now_id := 1; now_stamp := 2;
         now_user := 3 |}
      (set_input (lit "hello") false (boot None None))
    = Stopped (Returned w')
    /\ prompts w' = S (prompts (set_input (lit "hello") false (boot None None)))
    /\ toasts w'
       = toasts (set_input (lit "hello") false (boot None None))
         ++ [(lit "API Key is required to chat.", true)]
    /\ stored_key w'
       = stored_key (set_input (lit "hello") false (boot None None))
    /\ heap w' = heap (set_input (lit "hello") false (boot None None))
    /\ sessions w' = sessions (set_input (lit "hello") false (boot None None))
    /\ stored_sessions w'
       = stored_sessions (set_input (lit "hello") false (boot None None))
    /\ requests w' = requests (set_input (lit "hello") false (boot None None))
    /\ nodes w' = nodes (set_input (lit "hello") false (boot None None))
    /\ chatInput w'
       = chatInput (set_input (lit "hello") false (boot None None)).
Proof.
  refine (no_key_no_send sample_config
            {| prompt_reply := Some (lit "   "); now_id := 1; now_stamp := 2;
               now_user := 3 |}
            (set_input (lit "hello") false (boot None None)) _ _ _);
    vm_compute; reflexivity.
Defined.

(* ===================================================================== *)
(** ** What is written to storage is read back *)
(* ===================================================================== *)

Import Persist.

(** Induction on a JSON value, with the property at hand for the items of
    an array and for the values of the members of an object. *)
Lemma value_induction (P : value -> Prop) :
  P JNull -> (forall b, P (JBool b)) -> (forall l, P (JNum l)) ->
  (forall s, P (JStr s)) ->
  (forall items, Forall P items -> P (JArr items)) ->
  (forall ms, Forall (fun kv => P (snd kv)) ms -> P (JObj ms)) ->
  forall v, P v.
Proof.
  intros Hnull Hbool Hnum Hstr Harr Hobj.
  fix IH 1. intros [ |b|l|s|items|ms];
    [apply Hnull|apply Hbool|apply Hnum|apply Hstr| | ].
  - apply Harr. induction items as [|x items IHl]; constructor;
      [apply IH|exact IHl].
  - apply Hobj. induction ms as [|kv ms IHl]; constructor;
      [apply IH|exact IHl].
Qed.

Lemma run_ws (t rest : jsstring) (st : list frame) (m : mode) :
  forallb is_ws t = true ->
  match m with
  | MValue _ | MKey _ | MColon | MAfter => True
  | _ => False
  end ->
  Json.run {| stack := st; mode_of := m |} (t ++ rest)
  = Json.run {| stack := st; mode_of := m |} rest.
Proof.
  intros Ht Hm. induction t as [|c t IH]; [reflexivity|].
  cbn [forallb] in Ht. apply andb_true_iff in Ht as [Hc Ht].
  cbn [app Json.run].
  assert (E : Json.step {| stack := st; mode_of := m |} c
              = Some {| stack := st; mode_of := m |}).
  { destruct m; try contradiction; cbn [Json.step mode_of stack step_after];
      now rewrite Hc. }
  rewrite E. now apply IH.
Qed.

(** *** Strings *)

Lemma hex_value_hex_lower (n : N) :
  (n < 16)%N -> Uri.hex_value (hex_lower n) = Some n.
Proof.
  intros H. destruct n as [|p]; [reflexivity|].
  do 4 (try destruct p as [p|p|]); try reflexivity; exfalso; lia.
Qed.

Lemma run_unicode_escape (c : jschar) (st : list frame) (k : bool)
  (acc rest : jsstring) :
  (c < 65536)%N ->
  Json.run {| stack := st; mode_of := MStr k acc Plain |}
    (unicode_escape c ++ rest)
  = Json.run {| stack := st; mode_of := MStr k (c :: acc) Plain |} rest.
Proof.
  intros H. unfold unicode_escape. cbn [app Json.run].
  change (Json.step {| stack := st; mode_of := MStr k acc Plain |} 92%N)
    with (Some {| stack := st; mode_of := MStr k acc Esc |}).
  cbv iota.
  change (Json.step {| stack := st; mode_of := MStr k acc Esc |} 117%N)
    with (Some {| stack := st; mode_of := MStr k acc (Hex 0 0) |}).
  cbv iota.
  replace (c / 4096)%N with (c / 16 / 16 / 16)%N
    by (now rewrite !N.Div0.div_div).
  replace (c / 256)%N with (c / 16 / 16)%N by (now rewrite N.Div0.div_div).
  divmod c 16%N q1 r1. divmod q1 16%N q2 r2. divmod q2 16%N q3 r3.
  assert (H3 : (q3 < 16)%N) by lia.
  assert (E3 : (q3 mod 16 = q3)%N) by (apply N.mod_small; lia).
  cbn [Json.step mode_of stack].
  rewrite (hex_value_hex_lower q3 H3). cbn [Nat.eqb Json.run Json.step
    mode_of stack].
  rewrite (hex_value_hex_lower r3 Hlt1). cbn [Nat.eqb Json.run Json.step
    mode_of stack].
  rewrite (hex_value_hex_lower r2 Hlt0). cbn [Nat.eqb Json.run Json.step
    mode_of stack].
  rewrite (hex_value_hex_lower r1 Hlt). cbn [Nat.eqb].
  replace ((((0 * 16 + q3) * 16 + r3) * 16 + r2) * 16 + r1)%N with c by lia.
  reflexivity.
Qed.

Lemma run_short_escape (e u : jschar) (st : list frame) (k : bool)
  (acc rest : jsstring) :
  escape_of e = Some u -> (e =? 117)%N = false ->
  Json.run {| stack := st; mode_of := MStr k acc Plain |} (92%N :: e :: rest)
  = Json.run {| stack := st; mode_of := MStr k (u :: acc) Plain |} rest.
Proof.
  intros He Hu. cbn [Json.run].
  change (Json.step {| stack := st; mode_of := MStr k acc Plain |} 92%N)
    with (Some {| stack := st; mode_of := MStr k acc Esc |}).
  cbv iota. cbn [Json.step mode_of stack]. now rewrite Hu, He.
Qed.

Lemma run_plain_unit (c : jschar) (st : list frame) (k : bool)
  (acc rest : jsstring) :
  (c =? 34)%N = false -> (c =? 92)%N = false -> (c <? 32)%N = false ->
  Json.run {| stack := st; mode_of := MStr k acc Plain |} (c :: rest)
  = Json.run {| stack := st; mode_of := MStr k (c :: acc) Plain |} rest.
Proof.
  intros H1 H2 H3. cbn [Json.run Json.step mode_of stack].
  now rewrite H1, H2, H3.
Qed.

Lemma rev_cons_app {A : Type} (c : A) (s acc : list A) :
  rev (c :: s) ++ acc = rev s ++ c :: acc.
Proof. cbn [rev]. now rewrite <- app_assoc. Qed.

(** The reader, inside a string, takes the characters of a quoted string
    for the code units that were quoted. *)
Lemma run_quote_units (n : nat) :
  forall s, List.length s <= n ->
  forall st k acc rest,
    Json.run {| stack := st; mode_of := MStr k acc Plain |}
      (quote_units s ++ rest)
    = Json.run {| stack := st; mode_of := MStr k (rev s ++ acc) Plain |} rest.
Proof.
  induction n as [|n IH]; intros s Hn st k acc rest.
  - destruct s; [reflexivity|cbn in Hn; lia].
  - destruct s as [|c s]; [reflexivity|]. cbn [List.length] in Hn.
    rewrite rev_cons_app. cbn [quote_units].
    destruct (c =? 8)%N eqn:E8.
    { apply N.eqb_eq in E8. subst c. cbn [app].
      rewrite (run_short_escape 98%N 8%N) by reflexivity. apply IH. lia. }
    destruct (c =? 9)%N eqn:E9.
    { apply N.eqb_eq in E9. subst c. cbn [app].
      rewrite (run_short_escape 116%N 9%N) by reflexivity. apply IH. lia. }
    destruct (c =? 10)%N eqn:E10.
    { apply N.eqb_eq in E10. subst c. cbn [app].
      rewrite (run_short_escape 110%N 10%N) by reflexivity. apply IH. lia. }
    destruct (c =? 12)%N eqn:E12.
    { apply N.eqb_eq in E12. subst c. cbn [app].
      rewrite (run_short_escape 102%N 12%N) by reflexivity. apply IH. lia. }
    destruct (c =? 13)%N eqn:E13.
    { apply N.eqb_eq in E13. subst c. cbn [app].
      rewrite (run_short_escape 114%N 13%N) by reflexivity. apply IH. lia. }
    destruct (c =? 34)%N eqn:E34.
    { apply N.eqb_eq in E34. subst c. cbn [app].
      rewrite (run_short_escape 34%N 34%N) by reflexivity. apply IH. lia. }
    destruct (c =? 92)%N eqn:E92.
    { apply N.eqb_eq in E92. subst c. cbn [app].
      rewrite (run_short_escape 92%N 92%N) by reflexivity. apply IH. lia. }
    destruct (c <? 32)%N eqn:E32.
    { apply N.ltb_lt in E32. rewrite <- app_assoc.
      rewrite run_unicode_escape by lia. apply IH. lia. }
    destruct (Uri.is_lead c) eqn:L.
    { assert (Hc : (c < 65536)%N).
      { unfold Uri.is_lead in L. apply andb_true_iff in L as [_ L].
        apply N.leb_le in L. lia. }
      destruct s as [|d s].
      - rewrite run_unicode_escape by lia. reflexivity.
      - destruct (Uri.is_trail d) eqn:T.
        + cbn [app]. rewrite (run_plain_unit c) by assumption.
          assert (Hd : (56320 <= d)%N).
          { unfold Uri.is_trail in T. apply andb_true_iff in T as [T _].
            now apply N.leb_le in T. }
          rewrite (run_plain_unit d);
            [|apply N.eqb_neq; lia|apply N.eqb_neq; lia|apply N.ltb_ge; lia].
          rewrite (IH s ltac:(cbn in Hn; lia)).
          now rewrite rev_cons_app.
        + rewrite <- app_assoc. rewrite run_unicode_escape by lia.
          apply IH. lia. }
    destruct (Uri.is_trail c) eqn:T.
    { assert (Hc : (c < 65536)%N).
      { unfold Uri.is_trail in T. apply andb_true_iff in T as [_ T].
        apply N.leb_le in T. lia. }
      rewrite <- app_assoc. rewrite run_unicode_escape by lia.
      apply IH. lia. }
    cbn [app]. rewrite (run_plain_unit c) by assumption. apply IH. lia.
Qed.

Lemma run_quote (s : jsstring) (st : list frame) (b : bool)
  (rest : jsstring) :
  Json.run {| stack := st; mode_of := MValue b |} (quote s ++ rest)
  = resume (JStr s) st rest.
Proof.
  unfold quote, resume. cbn [app Json.run].
  change (Json.step {| stack := st; mode_of := MValue b |} 34%N)
    with (Some {| stack := st; mode_of := MStr false [] Plain |}).
  cbv iota. rewrite <- app_assoc.
  rewrite (run_quote_units (List.length s) s (le_n _)).
  cbn [app Json.run].
  change (Json.step
            {| stack := st; mode_of := MStr false (rev s ++ []) Plain |} 34%N)
    with (complete (JStr (rev (rev s ++ []))) st).
  now rewrite app_nil_r, rev_involutive.
Qed.

Lemma run_key (k : jsstring) (ms : list (jsstring * value))
  (st : list frame) (b : bool) (rest : jsstring) :
  Json.run {| stack := FObj ms :: st; mode_of := MKey b |} (quote k ++ rest)
  = Json.run {| stack := FObjKey ms k :: st; mode_of := MColon |} rest.
Proof.
  unfold quote. cbn [app Json.run].
  change (Json.step {| stack := FObj ms :: st; mode_of := MKey b |} 34%N)
    with (Some {| stack := FObj ms :: st; mode_of := MStr true [] Plain |}).
  cbv iota. rewrite <- app_assoc.
  rewrite (run_quote_units (List.length k) k (le_n _)).
  cbn [app Json.run].
  change (Json.step
            {| stack := FObj ms :: st;
               mode_of := MStr true (rev k ++ []) Plain |} 34%N)
    with (Some {| stack := FObjKey ms (rev (rev k ++ [])) :: st;
                  mode_of := MColon |}).
  cbv iota. now rewrite app_nil_r, rev_involutive.
Qed.

(** *** Numbers *)

Lemma run_num_tail (t : jsstring) :
  forall n n' st lexr,
    num_run n t = Some n' ->
    Json.run {| stack := st; mode_of := MNum lexr n |} t
    = Some {| stack := st; mode_of := MNum (rev t ++ lexr) n' |}.
Proof.
  induction t as [|c t IH]; intros n n' st lexr H.
  - cbn in H. injection H as <-. reflexivity.
  - cbn [num_run] in H. destruct (num_next n c) as [n1|] eqn:E;
      [|discriminate].
    cbn [Json.run Json.step mode_of stack]. rewrite E.
    rewrite (IH n1 n' st (c :: lexr) H). now rewrite rev_cons_app.
Qed.

Lemma step_num_start (c : jschar) (n : numst) (st : list frame) (b : bool) :
  num_start c = Some n ->
  Json.step {| stack := st; mode_of := MValue b |} c
  = Some {| stack := st; mode_of := MNum [c] n |}.
Proof.
  unfold num_start. intros H.
  destruct (c =? 45)%N eqn:E45.
  { apply N.eqb_eq in E45. subst c. injection H as <-. reflexivity. }
  destruct (c =? 48)%N eqn:E48.
  { apply N.eqb_eq in E48. subst c. injection H as <-. reflexivity. }
  destruct (is_digit c) eqn:D; [|discriminate]. injection H as <-.
  assert (Hc : (48 <= c <= 57)%N).
  { unfold is_digit in D. apply andb_true_iff in D as [D1 D2].
    apply N.leb_le in D1, D2. lia. }
  cbn [Json.step mode_of stack]. unfold is_ws.
  repeat match goal with
         | |- context [(c =? ?k)%N] =>
             rewrite (proj2 (N.eqb_neq c k)) by lia
         end.
  cbn [orb]. now rewrite E48, D.
Qed.

Lemma run_number (lexeme : jsstring) (st : list frame) (b : bool) :
  number_ok lexeme = true ->
  exists n,
    Json.run {| stack := st; mode_of := MValue b |} lexeme
    = Some {| stack := st; mode_of := MNum (rev lexeme) n |}
    /\ num_final n = true.
Proof.
  unfold number_ok. destruct lexeme as [|c t]; [discriminate|].
  destruct (num_start c) as [n0|] eqn:E0; [|discriminate].
  destruct (num_run n0 t) as [n|] eqn:E1; [|discriminate].
  intros Hf. exists n. split; [|exact Hf].
  cbn [Json.run]. rewrite (step_num_start c n0 st b E0).
  rewrite (run_num_tail t n0 n st [c] E1). reflexivity.
Qed.

Lemma num_next_delimiter (n : numst) (c : jschar) :
  delimiter c = true -> num_next n c = None.
Proof.
  unfold delimiter, is_ws. intros H.
  repeat (apply orb_true_iff in H; destruct H as [H|H]);
    apply N.eqb_eq in H; subst c; destruct n; reflexivity.
Qed.

Lemma step_completed (v : value) (st : list frame) (s : state) (c : jschar) :
  complete v st = Some s ->
  Json.step s c = step_after (stack s) (mode_of s) c.
Proof.
  destruct st as [|[items|ms|ms k] st]; cbn [complete]; intros H;
    try discriminate; injection H as <-; reflexivity.
Qed.

(** Past the text of a value, before a delimiter, the reader stands where
    the complete value leaves it. *)
Lemma settled_next (v : value) (st : list frame) (r : option state)
  (c : jschar) (rest : jsstring) :
  settled v st r -> delimiter c = true ->
  match r with
  | Some s => Json.run s (c :: rest)
  | None => None
  end = resume v st (c :: rest).
Proof.
  intros [->|(lexeme & n & -> & -> & Hf)] Hc; [reflexivity|].
  unfold resume. cbn [Json.run Json.step mode_of stack].
  rewrite (num_next_delimiter n c Hc), Hf, rev_involutive.
  destruct (complete (JNum lexeme) st) as [s|] eqn:E; [|reflexivity].
  now rewrite (step_completed _ _ _ c E).
Qed.

Lemma settled_tail (v : value) (st : list frame) (r : option state)
  (tail : jsstring) :
  settled v st r ->
  (exists d rest, tail = d :: rest /\ delimiter d = true) ->
  match r with
  | Some s => Json.run s tail
  | None => None
  end = resume v st tail.
Proof.
  intros Hs (d & rest & -> & Hd). now apply settled_next.
Qed.

Lemma settled_end (v : value) (r : option state) :
  settled v [] r ->
  match r with
  | Some s => finish s
  | None => None
  end = Some v.
Proof.
  intros [->|(lexeme & n & -> & -> & Hf)]; [reflexivity|].
  cbn [finish mode_of stack]. now rewrite Hf, rev_involutive.
Qed.

(** *** Values *)

Lemma printable_items (items : list value) :
  printable (JArr items) <-> Forall printable items.
Proof.
  induction items as [|x items IH]; cbn [printable].
  - split; [constructor|trivial].
  - split.
    + intros [Hx H]. constructor; [exact Hx|now apply IH].
    + intros H. inversion H as [|? ? Hx Hl]; subst.
      split; [exact Hx|now apply IH].
Qed.

Lemma printable_members (ms : list (jsstring * value)) :
  printable (JObj ms) <-> Forall (fun kv => printable (snd kv)) ms.
Proof.
  induction ms as [|kv ms IH]; cbn [printable].
  - split; [constructor|trivial].
  - split.
    + intros [Hx H]. constructor; [exact Hx|now apply IH].
    + intros H. inversion H as [|? ? Hx Hl]; subst.
      split; [exact Hx|now apply IH].
Qed.

Lemma option_run_nil (o : option state) :
  match o with Some s => Json.run s [] | None => None end = o.
Proof. now destruct o. Qed.

Section Reading.
Variable gap : jsstring.
Hypothesis Hgap : forallb is_ws gap = true.

Lemma newline_ws (indent : jsstring) :
  forallb is_ws indent = true -> forallb is_ws (newline gap indent) = true.
Proof. intros H. unfold newline. destruct gap; [reflexivity|exact H]. Qed.

(** The line break before a closing bracket, and the bracket. *)
Lemma run_close_array (indent : jsstring) (acc : list value)
  (st : list frame) :
  forallb is_ws indent = true ->
  Json.run {| stack := FArr acc :: st; mode_of := MAfter |}
    (newline gap indent ++ [93%N])
  = complete (JArr (rev acc)) st.
Proof.
  intros Hi. rewrite run_ws; [|now apply newline_ws|exact I].
  cbn [Json.run]. 
  change (Json.step {| stack := FArr acc :: st; mode_of := MAfter |} 93%N)
    with (complete (JArr (rev acc)) st).
  apply option_run_nil.
Qed.

Lemma run_close_object (indent : jsstring) (acc : list (jsstring * value))
  (st : list frame) :
  forallb is_ws indent = true ->
  Json.run {| stack := FObj acc :: st; mode_of := MAfter |}
    (newline gap indent ++ [125%N])
  = complete (JObj (rev acc)) st.
Proof.
  intros Hi. rewrite run_ws; [|now apply newline_ws|exact I].
  cbn [Json.run].
  change (Json.step {| stack := FObj acc :: st; mode_of := MAfter |} 125%N)
    with (complete (JObj (rev acc)) st).
  apply option_run_nil.
Qed.

Lemma closing_delimiter (indent : jsstring) (close : jschar) :
  delimiter close = true ->
  exists d rest, newline gap indent ++ [close] = d :: rest
                 /\ delimiter d = true.
Proof.
  intros H. unfold newline. destruct gap.
  - exists close, []. now split.
  - exists 10%N, (indent ++ [close]). now split.
Qed.

Lemma run_items (inner indent : jsstring) (st : list frame) :
  forallb is_ws inner = true -> forallb is_ws indent = true ->
  forall items x acc b,
    Forall (reads gap) (x :: items) -> Forall printable (x :: items) ->
    Json.run {| stack := FArr acc :: st; mode_of := MValue b |}
      (join (44%N :: newline gap inner)
         (map (stringify gap inner) (x :: items))
       ++ newline gap indent ++ [93%N])
    = complete (JArr (rev acc ++ x :: items)) st.
Proof.
  intros Hin Hi. induction items as [|y items IH]; intros x acc b Hr Hp.
  - cbn [map join]. rewrite run_app.
    inversion Hr as [|? ? Hx _]; subst. inversion Hp as [|? ? Px _]; subst.
    pose proof (Hx Px inner (FArr acc :: st) b Hin) as Hs.
    etransitivity;
      [exact (settled_tail x _ _ _ Hs (closing_delimiter indent 93%N eq_refl))|].
    unfold resume. cbn [complete].
    etransitivity; [exact (run_close_array indent (x :: acc) st Hi)|].
    reflexivity.
  - inversion Hr as [|? ? Hx Hr']; subst.
    inversion Hp as [|? ? Px Hp']; subst.
    change (map (stringify gap inner) (x :: y :: items))
      with (stringify gap inner x :: map (stringify gap inner) (y :: items)).
    change (join (44%N :: newline gap inner)
              (stringify gap inner x
               :: map (stringify gap inner) (y :: items)))
      with (stringify gap inner x
            ++ (44%N :: newline gap inner)
            ++ join (44%N :: newline gap inner)
                 (map (stringify gap inner) (y :: items))).
    rewrite <- !app_assoc. rewrite run_app.
    pose proof (Hx Px inner (FArr acc :: st) b Hin) as Hs.
    cbn [app].
    etransitivity; [exact (settled_next x _ _ 44%N _ Hs eq_refl)|].
    unfold resume. cbn [complete Json.run].
    change (Json.step {| stack := FArr (x :: acc) :: st; mode_of := MAfter |}
              44%N)
      with (Some {| stack := FArr (x :: acc) :: st;
                    mode_of := MValue false |}).
    cbv iota. rewrite run_ws; [|now apply newline_ws|exact I].
    etransitivity; [exact (IH y (x :: acc) false Hr' Hp')|].
    now rewrite rev_cons_app.
Qed.

Lemma run_colon (st : list frame) (rest : jsstring) :
  Json.run {| stack := st; mode_of := MColon |} (colon gap ++ rest)
  = Json.run {| stack := st; mode_of := MValue false |} rest.
Proof. unfold colon. destruct gap; reflexivity. Qed.

Lemma run_members (inner indent : jsstring) (st : list frame) :
  forallb is_ws inner = true -> forallb is_ws indent = true ->
  forall ms kv acc b,
    Forall (fun kv => reads gap (snd kv)) (kv :: ms) ->
    Forall (fun kv => printable (snd kv)) (kv :: ms) ->
    Json.run {| stack := FObj acc :: st; mode_of := MKey b |}
      (join (44%N :: newline gap inner)
         (map (fun kv => quote (fst kv) ++ colon gap
                         ++ stringify gap inner (snd kv)) (kv :: ms))
       ++ newline gap indent ++ [125%N])
    = complete (JObj (rev acc ++ kv :: ms)) st.
Proof.
  intros Hin Hi. induction ms as [|kv' ms IH]; intros [k v] acc b Hr Hp.
  - cbn [map join fst snd]. rewrite <- !app_assoc.
    rewrite run_key, run_colon, run_app.
    inversion Hr as [|? ? Hx _]; subst. inversion Hp as [|? ? Px _]; subst.
    cbn [snd] in Hx, Px.
    pose proof (Hx Px inner (FObjKey acc k :: st) false Hin) as Hs.
    etransitivity;
      [exact (settled_tail v _ _ _ Hs
                (closing_delimiter indent 125%N eq_refl))|].
    unfold resume. cbn [complete].
    etransitivity; [exact (run_close_object indent ((k, v) :: acc) st Hi)|].
    reflexivity.
  - inversion Hr as [|? ? Hx Hr']; subst.
    inversion Hp as [|? ? Px Hp']; subst. cbn [snd] in Hx, Px.
    set (g := fun kv : jsstring * value =>
                quote (fst kv) ++ colon gap ++ stringify gap inner (snd kv)).
    change (map g ((k, v) :: kv' :: ms))
      with (g (k, v) :: map g (kv' :: ms)).
    change (join (44%N :: newline gap inner) (g (k, v) :: map g (kv' :: ms)))
      with (g (k, v) ++ (44%N :: newline gap inner)
            ++ join (44%N :: newline gap inner) (map g (kv' :: ms))).
    unfold g at 1. cbn [fst snd]. rewrite <- !app_assoc.
    rewrite run_key, run_colon, run_app.
    pose proof (Hx Px inner (FObjKey acc k :: st) false Hin) as Hs.
    cbn [app].
    etransitivity; [exact (settled_next v _ _ 44%N _ Hs eq_refl)|].
    unfold resume. cbn [complete Json.run].
    change (Json.step
              {| stack := FObj ((k, v) :: acc) :: st; mode_of := MAfter |}
              44%N)
      with (Some {| stack := FObj ((k, v) :: acc) :: st;
                    mode_of := MKey false |}).
    cbv iota. rewrite run_ws; [|now apply newline_ws|exact I].
    etransitivity; [exact (IH kv' ((k, v) :: acc) false Hr' Hp')|].
    now rewrite rev_cons_app.
Qed.

(** The reader of [JSON.parse] on the text [JSON.stringify] makes of a
    value, from the place of a value. *)
Lemma run_value (v : value) : reads gap v.
Proof.
  induction v as [ |b|l|s|items IHi|ms IHm] using value_induction;
    intros Hp indent st b0 Hi.
  - left. destruct st as [|[a|a|a k] st]; vm_compute; reflexivity.
  - left. destruct b; destruct st as [|[a|a|a k] st]; vm_compute;
      reflexivity.
  - right. cbn [printable] in Hp.
    destruct (run_number l st b0 Hp) as (n & Hr & Hf).
    exists l, n. cbn [stringify]. now repeat split.
  - left. cbn [stringify]. rewrite <- (app_nil_r (quote s)), run_quote.
    unfold resume. apply option_run_nil.
  - left. destruct items as [|x items].
    + destruct st as [|[a|a|a k] st]; vm_compute; reflexivity.
    + cbn [stringify]. cbn [app Json.run].
      change (Json.step {| stack := st; mode_of := MValue b0 |} 91%N)
        with (Some {| stack := FArr [] :: st; mode_of := MValue true |}).
      cbv iota.
      assert (Hin : forallb is_ws (indent ++ gap) = true)
        by (rewrite forallb_app, Hi, Hgap; reflexivity).
      rewrite run_ws; [|now apply newline_ws|exact I].
      apply (run_items (indent ++ gap) indent st Hin Hi items x [] true IHi).
      now apply printable_items.
  - left. destruct ms as [|kv ms].
    + destruct st as [|[a|a|a k] st]; vm_compute; reflexivity.
    + cbn [stringify]. cbn [app Json.run].
      change (Json.step {| stack := st; mode_of := MValue b0 |} 123%N)
        with (Some {| stack := FObj [] :: st; mode_of := MKey true |}).
      cbv iota.
      assert (Hin : forallb is_ws (indent ++ gap) = true)
        by (rewrite forallb_app, Hi, Hgap; reflexivity).
      rewrite run_ws; [|now apply newline_ws|exact I].
      apply (run_members (indent ++ gap) indent st Hin Hi ms kv [] true IHm).
      now apply printable_members.
Qed.

(** [JSON.parse] reads the text [JSON.stringify] makes of a value as that
    value. *)
Lemma parse_stringify (v : value) :
  printable v -> Json.parse (stringify gap [] v) = Some v.
Proof.
  intros Hp. unfold Json.parse, initial.
  apply settled_end. now apply run_value.
Qed.

End Reading.

(** *** Clock readings *)

Lemma lit_cons (c : ascii) (s : string) :
  lit (String c s) = N_of_ascii c :: lit s.
Proof. reflexivity. Qed.

Lemma digits_run (d : Decimal.uint) :
  num_run NInt (lit (NilEmpty.string_of_uint d)) = Some NInt.
Proof.
  induction d; cbn [NilEmpty.string_of_uint]; [reflexivity|..];
    rewrite lit_cons; exact IHd.
Qed.

Lemma nzhead_shape (d : Decimal.uint) :
  match Decimal.nzhead d with Decimal.D0 _ => False | _ => True end.
Proof. induction d; cbn; auto. Qed.

Lemma unorm_shape (d : Decimal.uint) :
  match Decimal.unorm d with
  | Decimal.Nil => False
  | Decimal.D0 Decimal.Nil => True
  | Decimal.D0 _ => False
  | _ => True
  end.
Proof.
  unfold Decimal.unorm. pose proof (nzhead_shape d) as H.
  destruct (Decimal.nzhead d); cbn in *; try exact I; contradiction.
Qed.

Lemma to_uint_unorm (n : N) : N.to_uint n = Decimal.unorm (N.to_uint n).
Proof.
  rewrite <- (DecimalN.Unsigned.to_of (N.to_uint n)).
  now rewrite DecimalN.Unsigned.of_to.
Qed.

(** The decimal text of a clock reading is the lexeme of a JSON number. *)
Lemma number_ok_toString (n : N) : number_ok (Number_toString n) = true.
Proof.
  unfold Number_toString. pose proof (unorm_shape (N.to_uint n)) as H.
  rewrite <- to_uint_unorm in H.
  destruct (N.to_uint n) as [|d|d|d|d|d|d|d|d|d|d]; try contradiction;
    try (unfold NilZero.string_of_uint; cbn [NilEmpty.string_of_uint];
         rewrite lit_cons; unfold number_ok;
         match goal with
         | |- context [num_start ?c] => change (num_start c) with (Some NInt)
         end;
         cbv iota; now rewrite digits_run).
  destruct d; try contradiction. reflexivity.
Qed.

Lemma printable_session (s : session) : printable (session_value s).
Proof.
  cbn [printable session_value snd]. repeat split.
  - induction (messages s) as [|m ms IH]; cbn; [exact I|].
    split; [now repeat split|exact IH].
  - apply number_ok_toString.
Qed.

Lemma printable_sessions (l : list session) :
  printable (JArr (map session_value l)).
Proof.
  apply printable_items. induction l as [|s l IH]; constructor;
    [apply printable_session|exact IH].
Qed.

(** *** The sessions *)

Lemma lit_inj (a b : string) : lit a = lit b -> a = b.
Proof.
  revert b. induction a as [|c a IH]; intros [|d b] H; try discriminate H;
    [reflexivity|].
  rewrite !lit_cons in H. injection H as Hc H.
  apply (f_equal ascii_of_N) in Hc. rewrite !ascii_N_embedding in Hc.
  subst d. f_equal. now apply IH.
Qed.

Lemma to_uint_nonnil (n : N) : N.to_uint n <> Decimal.Nil.
Proof.
  pose proof (unorm_shape (N.to_uint n)) as H.
  rewrite <- to_uint_unorm in H. intros E. now rewrite E in H.
Qed.

Lemma Number_toString_inj (n m : N) :
  Number_toString n = Number_toString m -> n = m.
Proof.
  unfold Number_toString. intros H. apply lit_inj in H.
  apply (f_equal NilZero.uint_of_string) in H.
  rewrite !NilZero.usu in H by apply to_uint_nonnil.
  injection H as H. now apply DecimalN.Unsigned.to_uint_inj.
Qed.

Lemma role_text_inj (r r' : role) : role_text r = role_text r' -> r = r'.
Proof. destruct r, r'; intros H; try reflexivity; discriminate H. Qed.

Lemma message_value_inj (m m' : message) :
  message_value m = message_value m' -> m = m'.
Proof.
  destruct m as [r c], m' as [r' c']. unfold message_value. cbn.
  intros H. injection H as Hr Hc. apply role_text_inj in Hr. now subst.
Qed.

Lemma map_inj {A B : Type} (f : A -> B) :
  (forall x y, f x = f y -> x = y) ->
  forall l l', map f l = map f l' -> l = l'.
Proof.
  intros Hf. induction l as [|x l IH]; intros [|y l'] H; try discriminate H;
    [reflexivity|].
  cbn in H. injection H as Hx H. f_equal; [now apply Hf|now apply IH].
Qed.

Lemma session_value_inj (s s' : session) :
  session_value s = session_value s' -> s = s'.
Proof.
  destruct s as [i t ms u], s' as [i' t' ms' u']. unfold session_value. cbn.
  intros H. injection H as Hi Ht Hm Hu.
  apply (map_inj message_value message_value_inj) in Hm.
  apply Number_toString_inj in Hu. now subst.
Qed.

(** X16.  What [saveSessions] stores is read back.  [JSON.parse] reads the
    text that [JSON.stringify] makes of the sessions as the array of their
    objects: the same ids, titles, messages (role and content, in order)
    and clock readings, whatever the code units of the texts are
    (quotation marks, backslashes, control characters, unpaired
    surrogates).  Two lists of sessions with the same stored text are the
    same list. *)
Theorem saved_sessions_are_read_back (l : list session) :
  Json.parse (sessions_text l) = Some (JArr (map session_value l))
  /\ forall l', sessions_text l' = sessions_text l -> l' = l.
Proof.
  assert (P : forall l0, Json.parse (sessions_text l0)
                         = Some (JArr (map session_value l0))).
  { intros l0. unfold sessions_text.
    apply (parse_stringify [] eq_refl). apply printable_sessions. }
  split; [apply P|].
  intros l' H. apply (f_equal Json.parse) in H. rewrite !P in H.
  injection H as H. now apply (map_inj session_value session_value_inj).
Qed.

(* ===================================================================== *)
(** ** The exported file *)
(* ===================================================================== *)

(** *** What the text of a value is made of *)

Section StringifyAll.
Variable Q : jsstring -> Prop.
Hypothesis Qnil : Q [].
Hypothesis Qapp : forall a b, Q a -> Q b -> Q (a ++ b).
Hypothesis Qascii : forall c : jschar, (c < 128)%N -> Q [c].
Variable gap : jsstring.
Hypothesis Hgap : forallb (fun c => (c <? 128)%N) gap = true.

Lemma Qplain (t : jsstring) :
  forallb (fun c => (c <? 128)%N) t = true -> Q t.
Proof.
  induction t as [|c t IH]; intros H; [exact Qnil|].
  cbn [forallb] in H. apply andb_true_iff in H as [Hc H].
  apply N.ltb_lt in Hc. change (c :: t) with ([c] ++ t).
  apply Qapp; [now apply Qascii|now apply IH].
Qed.

Lemma Qjoin (sep : jsstring) (parts : list jsstring) :
  Q sep -> Forall Q parts -> Q (join sep parts).
Proof.
  intros Hs. induction parts as [|p ps IH]; intros H; [exact Qnil|].
  inversion H as [|? ? Hp Hps]; subst. destruct ps as [|p' ps]; [exact Hp|].
  change (join sep (p :: p' :: ps)) with (p ++ sep ++ join sep (p' :: ps)).
  apply Qapp; [exact Hp|]. apply Qapp; [exact Hs|now apply IH].
Qed.

Lemma Qnewline (indent : jsstring) :
  forallb (fun c => (c <? 128)%N) indent = true -> Q (newline gap indent).
Proof.
  intros H. apply Qplain. unfold newline. destruct gap; [reflexivity|].
  cbn [forallb]. now rewrite H.
Qed.

Lemma Qcolon : Q (colon gap).
Proof. apply Qplain. unfold colon. now destruct gap. Qed.

(** A property of texts that concatenation keeps and that the ASCII
    characters have holds of the text of a value, if it holds of its
    quoted strings and of its numbers. *)
Lemma stringify_all (v : value) :
  (forall s, In s (strings v) -> Q (quote s)) ->
  (forall l, In l (numbers v) -> Q l) ->
  forall indent,
    forallb (fun c => (c <? 128)%N) indent = true ->
    Q (stringify gap indent v).
Proof.
  induction v as [ |b|l|s|items IHi|ms IHm] using value_induction;
    intros Hs Hn indent Hi.
  - now apply Qplain.
  - destruct b; now apply Qplain.
  - apply Hn. now left.
  - apply Hs. now left.
  - destruct items as [|x items]; [now apply Qplain|].
    assert (Hin : forallb (fun c => (c <? 128)%N) (indent ++ gap) = true)
      by (rewrite forallb_app, Hi, Hgap; reflexivity).
    cbn [stringify]. change (91%N :: ?t) with ([91%N] ++ t).
    apply Qapp; [now apply Qascii|]. apply Qapp; [now apply Qnewline|].
    apply Qapp; [|apply Qapp; [now apply Qnewline|now apply Qascii]].
    apply Qjoin.
    + change (44%N :: ?t) with ([44%N] ++ t).
      apply Qapp; [now apply Qascii|now apply Qnewline].
    + apply Forall_map. rewrite Forall_forall in *. intros y Hy.
      apply (IHi y Hy); [| |exact Hin].
      * intros s H. apply Hs. cbn [strings]. apply in_flat_map.
        now exists y.
      * intros l H. apply Hn. cbn [numbers]. apply in_flat_map.
        now exists y.
  - destruct ms as [|kv ms]; [now apply Qplain|].
    assert (Hin : forallb (fun c => (c <? 128)%N) (indent ++ gap) = true)
      by (rewrite forallb_app, Hi, Hgap; reflexivity).
    cbn [stringify]. change (123%N :: ?t) with ([123%N] ++ t).
    apply Qapp; [now apply Qascii|]. apply Qapp; [now apply Qnewline|].
    apply Qapp; [|apply Qapp; [now apply Qnewline|now apply Qascii]].
    apply Qjoin.
    + change (44%N :: ?t) with ([44%N] ++ t).
      apply Qapp; [now apply Qascii|now apply Qnewline].
    + apply Forall_map. rewrite Forall_forall in *. intros y Hy.
      apply Qapp; [|apply Qapp; [apply Qcolon|]].
      * apply Hs. cbn [strings]. apply in_flat_map. exists y.
        split; [exact Hy|now left].
      * apply (IHm y Hy); [| |exact Hin].
        -- intros s H. apply Hs. cbn [strings]. apply in_flat_map.
           exists y. split; [exact Hy|now right].
        -- intros l H. apply Hn. cbn [numbers]. apply in_flat_map.
           now exists y.
Qed.

End StringifyAll.

(** *** Surrogates in the text of a value *)

Lemma well_paired_cons (c : jschar) (t : jsstring) :
  (c < 55296)%N -> well_paired (c :: t) = well_paired t.
Proof.
  intros H. cbn [well_paired]. unfold Uri.is_lead, Uri.is_trail.
  rewrite (proj2 (N.leb_gt 55296 c)) by lia.
  rewrite (proj2 (N.leb_gt 56320 c)) by lia. reflexivity.
Qed.

Lemma well_paired_app (n : nat) :
  forall a, List.length a <= n ->
  forall b, well_paired a = true -> well_paired b = true ->
            well_paired (a ++ b) = true.
Proof.
  induction n as [|n IH]; intros a Hn b Ha Hb.
  - destruct a; [exact Hb|cbn in Hn; lia].
  - destruct a as [|c a]; [exact Hb|]. cbn [List.length] in Hn.
    cbn [well_paired app] in *. destruct (Uri.is_lead c).
    + destruct a as [|d a]; [discriminate|]. cbn [app].
      apply andb_true_iff in Ha as [Hd Ha]. rewrite Hd. cbn [andb].
      apply IH; [cbn in Hn; lia|exact Ha|exact Hb].
    + apply andb_true_iff in Ha as [Hc Ha]. rewrite Hc. cbn [andb].
      apply IH; [lia|exact Ha|exact Hb].
Qed.

Lemma well_paired_concat (a b : jsstring) :
  well_paired a = true -> well_paired b = true ->
  well_paired (a ++ b) = true.
Proof. apply (well_paired_app (List.length a) a (le_n _)). Qed.

Lemma well_paired_ascii (c : jschar) : (c < 128)%N -> well_paired [c] = true.
Proof. intros H. now rewrite well_paired_cons by lia. Qed.

Lemma hex_lower_ascii (n : N) : (n < 16)%N -> (hex_lower n < 128)%N.
Proof.
  intros H. unfold hex_lower. destruct (n <? 10)%N; lia.
Qed.

Lemma unicode_escape_ascii (c : jschar) :
  (c < 65536)%N ->
  forallb (fun u => (u <? 128)%N) (unicode_escape c) = true.
Proof.
  intros H. unfold unicode_escape. cbn [forallb].
  assert (H1 : (c / 4096 < 16)%N) by (apply N.Div0.div_lt_upper_bound; lia).
  assert (H2 : ((c / 256) mod 16 < 16)%N) by (apply N.mod_lt; lia).
  assert (H3 : ((c / 16) mod 16 < 16)%N) by (apply N.mod_lt; lia).
  assert (H4 : (c mod 16 < 16)%N) by (apply N.mod_lt; lia).
  rewrite (proj2 (N.ltb_lt _ _) (hex_lower_ascii _ H1)),
    (proj2 (N.ltb_lt _ _) (hex_lower_ascii _ H2)),
    (proj2 (N.ltb_lt _ _) (hex_lower_ascii _ H3)),
    (proj2 (N.ltb_lt _ _) (hex_lower_ascii _ H4)).
  reflexivity.
Qed.

Lemma well_paired_plain (t : jsstring) :
  forallb (fun u => (u <? 128)%N) t = true -> well_paired t = true.
Proof.
  apply (Qplain (fun t => well_paired t = true) eq_refl well_paired_concat
           well_paired_ascii).
Qed.

(** A quoted string has no unpaired surrogate, whatever was quoted. *)
Lemma well_paired_quote_units (n : nat) :
  forall s, List.length s <= n -> well_paired (quote_units s) = true.
Proof.
  induction n as [|n IH]; intros s Hn.
  - destruct s; [reflexivity|cbn in Hn; lia].
  - destruct s as [|c s]; [reflexivity|]. cbn [List.length] in Hn.
    assert (Hs : well_paired (quote_units s) = true) by (apply IH; lia).
    assert (Hesc : forall e, well_paired (92%N :: e :: quote_units s)
                             = well_paired (e :: quote_units s))
      by (intros e; now rewrite well_paired_cons by lia).
    cbn [quote_units].
    destruct (c =? 8)%N; [now rewrite Hesc, well_paired_cons by lia|].
    destruct (c =? 9)%N; [now rewrite Hesc, well_paired_cons by lia|].
    destruct (c =? 10)%N; [now rewrite Hesc, well_paired_cons by lia|].
    destruct (c =? 12)%N; [now rewrite Hesc, well_paired_cons by lia|].
    destruct (c =? 13)%N; [now rewrite Hesc, well_paired_cons by lia|].
    destruct (c =? 34)%N; [now rewrite Hesc, well_paired_cons by lia|].
    destruct (c =? 92)%N; [now rewrite Hesc, well_paired_cons by lia|].
    destruct (c <? 32)%N eqn:E32.
    { apply N.ltb_lt in E32. apply well_paired_concat; [|exact Hs].
      apply well_paired_plain, unicode_escape_ascii. lia. }
    destruct (Uri.is_lead c) eqn:L.
    { assert (Hc : (c < 65536)%N).
      { unfold Uri.is_lead in L. apply andb_true_iff in L as [_ L].
        apply N.leb_le in L. lia. }
      destruct s as [|d s].
      - now apply well_paired_plain, unicode_escape_ascii.
      - destruct (Uri.is_trail d) eqn:T.
        + cbn [well_paired]. rewrite L, T. cbn [andb].
          apply IH. cbn in Hn. lia.
        + apply well_paired_concat; [|exact Hs].
          now apply well_paired_plain, unicode_escape_ascii. }
    destruct (Uri.is_trail c) eqn:T.
    { assert (Hc : (c < 65536)%N).
      { unfold Uri.is_trail in T. apply andb_true_iff in T as [_ T].
        apply N.leb_le in T. lia. }
      apply well_paired_concat; [|exact Hs].
      now apply well_paired_plain, unicode_escape_ascii. }
    cbn [well_paired]. rewrite L, T. exact Hs.
Qed.

Lemma well_paired_quote (s : jsstring) : well_paired (quote s) = true.
Proof.
  unfold quote. rewrite well_paired_cons by lia.
  apply well_paired_concat; [|reflexivity].
  apply (well_paired_quote_units (List.length s) s (le_n _)).
Qed.

(** [encodeURIComponent] throws on unpaired surrogates only. *)
Lemma encode_well_paired (n : nat) :
  forall t, List.length t <= n -> well_paired t = true ->
  exists e, Uri.encodeURIComponent t = Some e.
Proof.
  induction n as [|n IH]; intros t Hn Ht.
  - destruct t; [now exists []|cbn in Hn; lia].
  - destruct t as [|c t]; [now exists []|]. cbn [List.length] in Hn.
    cbn [well_paired] in Ht. cbn [Uri.encodeURIComponent].
    destruct (Uri.unreserved c) eqn:U.
    { assert (Hl : Uri.is_lead c = false).
      { destruct (Uri.is_lead c) eqn:L; [|reflexivity].
        unfold Uri.is_lead in L. apply andb_true_iff in L as [L1 L2].
        apply N.leb_le in L1, L2. exfalso.
        unfold Uri.unreserved, is_alnum, is_alpha, is_upper, is_lower,
          is_digit, one_of in U.
        repeat (apply orb_true_iff in U; destruct U as [U|U]);
          try discriminate U;
          try (apply andb_true_iff in U as [U1 U2];
               apply N.leb_le in U1, U2; lia);
          apply N.eqb_eq in U; subst c; vm_compute in L1; now apply L1. }
      rewrite Hl in Ht. apply andb_true_iff in Ht as [_ Ht].
      destruct (IH t ltac:(lia) Ht) as (e & ->). now eexists. }
    destruct (Uri.is_lead c) eqn:L.
    { destruct t as [|d t]; [discriminate|].
      apply andb_true_iff in Ht as [Td Ht].
      assert (Tc : Uri.is_trail c = false).
      { unfold Uri.is_lead, Uri.is_trail in *.
        apply andb_true_iff in L as [L1 L2]. apply N.leb_le in L1, L2.
        apply andb_false_iff. left. apply N.leb_gt. lia. }
      rewrite Tc, Td.
      destruct (IH t ltac:(cbn in Hn; lia) Ht) as (e & ->). now eexists. }
    apply andb_true_iff in Ht as [Tc Ht]. apply negb_true_iff in Tc.
    rewrite Tc. destruct (IH t ltac:(lia) Ht) as (e & ->). now eexists.
Qed.

(** *** Code units of the text of a value *)

Lemma units_app (a b : jsstring) :
  units a = true -> units b = true -> units (a ++ b) = true.
Proof.
  unfold units. intros Ha Hb. rewrite forallb_app.
  apply andb_true_iff. now split.
Qed.

Lemma units_ascii (c : jschar) : (c < 128)%N -> units [c] = true.
Proof.
  intros H. unfold units. cbn. rewrite (proj2 (N.ltb_lt c 65536)) by lia.
  reflexivity.
Qed.

Lemma units_plain (t : jsstring) :
  forallb (fun u => (u <? 128)%N) t = true -> units t = true.
Proof.
  apply (Qplain (fun t => units t = true) eq_refl units_app units_ascii).
Qed.

Lemma units_cons (c : jschar) (t : jsstring) :
  (c < 65536)%N -> units t = true -> units (c :: t) = true.
Proof.
  intros Hc Ht. unfold units in *. cbn [forallb].
  apply andb_true_iff. split; [now apply N.ltb_lt|exact Ht].
Qed.

Lemma units_quote_units (n : nat) :
  forall s, List.length s <= n -> units s = true ->
            units (quote_units s) = true.
Proof.
  induction n as [|n IH]; intros s Hn Hu.
  - destruct s; [reflexivity|cbn in Hn; lia].
  - destruct s as [|c s]; [reflexivity|]. cbn [List.length] in Hn.
    unfold units in Hu. cbn [forallb] in Hu.
    apply andb_true_iff in Hu as [Hc Hu]. apply N.ltb_lt in Hc.
    assert (Hs : units (quote_units s) = true) by (apply IH; [lia|exact Hu]).
    assert (Hesc : forall e, (e < 65536)%N ->
                             units (92%N :: e :: quote_units s) = true)
      by (intros e He; apply units_cons; [lia|now apply units_cons]).
    cbn [quote_units].
    destruct (c =? 8)%N; [apply Hesc; lia|].
    destruct (c =? 9)%N; [apply Hesc; lia|].
    destruct (c =? 10)%N; [apply Hesc; lia|].
    destruct (c =? 12)%N; [apply Hesc; lia|].
    destruct (c =? 13)%N; [apply Hesc; lia|].
    destruct (c =? 34)%N; [apply Hesc; lia|].
    destruct (c =? 92)%N; [apply Hesc; lia|].
    assert (He : units (unicode_escape c) = true)
      by (apply units_plain, unicode_escape_ascii; exact Hc).
    destruct (c <? 32)%N; [now apply units_app|].
    destruct (Uri.is_lead c).
    { destruct s as [|d s]; [exact He|].
      destruct (Uri.is_trail d); [|now apply units_app].
      cbn [forallb] in Hu. apply andb_true_iff in Hu as [Hd Hu].
      apply N.ltb_lt in Hd.
      apply units_cons; [exact Hc|]. apply units_cons; [exact Hd|].
      apply IH; [cbn in Hn; lia|exact Hu]. }
    destruct (Uri.is_trail c); [now apply units_app|].
    now apply units_cons.
Qed.

Lemma units_quote (s : jsstring) : units s = true -> units (quote s) = true.
Proof.
  intros H. unfold quote. apply units_cons; [lia|].
  apply units_app; [|reflexivity].
  now apply (units_quote_units (List.length s) s (le_n _)).
Qed.

Lemma digits_ascii (d : Decimal.uint) :
  forallb (fun u => (u <? 128)%N) (lit (NilEmpty.string_of_uint d)) = true.
Proof.
  induction d; cbn [NilEmpty.string_of_uint]; [reflexivity|..];
    rewrite lit_cons; cbn [forallb]; rewrite IHd; reflexivity.
Qed.

Lemma Number_toString_ascii (n : N) :
  forallb (fun u => (u <? 128)%N) (Number_toString n) = true.
Proof.
  unfold Number_toString, NilZero.string_of_uint.
  destruct (N.to_uint n); [reflexivity|..]; apply digits_ascii.
Qed.

(** *** The text of a session *)

Lemma numbers_messages (ms : list message) :
  flat_map numbers (map message_value ms) = [].
Proof. induction ms as [|m ms IH]; [reflexivity|exact IH]. Qed.

Lemma numbers_session (s : session) :
  numbers (session_value s) = [Number_toString (updatedAt s)].
Proof.
  cbn [numbers session_value flat_map snd app].
  now rewrite numbers_messages.
Qed.

Lemma strings_messages (ms : list message) (x : jsstring) :
  forallb (fun m => units (content m)) ms = true ->
  In x (flat_map strings (map message_value ms)) -> units x = true.
Proof.
  induction ms as [|m ms IH]; intros H Hx; [contradiction|].
  cbn [forallb] in H. apply andb_true_iff in H as [Hm H].
  cbn [map flat_map message_value strings fst snd app] in Hx.
  destruct Hx as [<-|[<-|[<-|[<-|Hx]]]]; try reflexivity.
  - now destruct (role_of m).
  - exact Hm.
  - now apply IH.
Qed.

Lemma export_text_well_paired (gap : jsstring) (s : session) :
  forallb (fun c => (c <? 128)%N) gap = true ->
  well_paired (stringify gap [] (session_value s)) = true.
Proof.
  intros Hg.
  apply (stringify_all (fun t => well_paired t = true) eq_refl
           well_paired_concat well_paired_ascii gap Hg).
  - intros x _. apply well_paired_quote.
  - rewrite numbers_session. intros l [<-|[]].
    apply well_paired_plain, Number_toString_ascii.
  - reflexivity.
Qed.

Lemma export_text_units (gap : jsstring) (s : session) :
  forallb (fun c => (c <? 128)%N) gap = true ->
  session_units s = true ->
  units (stringify gap [] (session_value s)) = true.
Proof.
  intros Hg Hs. unfold session_units in Hs.
  apply andb_true_iff in Hs as [Hs Hm]. apply andb_true_iff in Hs as [Hi Ht].
  apply (stringify_all (fun t => units t = true) eq_refl units_app
           units_ascii gap Hg).
  - intros x Hx. apply units_quote.
    cbn [strings session_value flat_map fst snd app] in Hx.
    destruct Hx as [<-|[<-|[<-|[<-|[<-|Hx]]]]]; try reflexivity;
      try assumption.
    apply in_app_or in Hx as [Hx|[<-|[]]]; [|reflexivity].
    now apply (strings_messages (messages s)).
  - rewrite numbers_session. intros l [<-|[]].
    apply units_plain, Number_toString_ascii.
  - reflexivity.
Qed.

(** X17.  The exported file holds the session.  The export never fails
    on the texts of a session: [JSON.stringify] escapes unpaired
    surrogates, so [encodeURIComponent] does not throw on its result.
    What the link carries after [data:text/json;charset=utf-8,] decodes
    to the indented JSON text of the session, and that text parses as the
    session: same id, title, messages and clock reading. *)
Theorem exported_file_holds_the_session (s : session) :
  session_units s = true ->
  exists e,
    export_href s = Some (lit "data:text/json;charset=utf-8," ++ e)
    /\ Uri.decodeURIComponent e = Some (export_text s)
    /\ Json.parse (export_text s) = Some (session_value s).
Proof.
  intros Hu. unfold export_href.
  destruct (encode_well_paired (List.length (export_text s)) (export_text s)
              (le_n _) (export_text_well_paired (lit "  ") s eq_refl))
    as (e & He).
  exists e. rewrite He. split; [reflexivity|]. split.
  - apply decodeURIComponent_encodeURIComponent; [|exact He].
    apply (export_text_units (lit "  ") s eq_refl Hu).
  - apply (parse_stringify (lit "  ") eq_refl). apply printable_session.
Qed.

Lemma exported_file_holds_the_session_witness :
  exists e,
    export_href awkward_session
    = Some (lit "data:text/json;charset=utf-8," ++ e)
    /\ Uri.decodeURIComponent e = Some (export_text awkward_session)
    /\ Json.parse (export_text awkward_session)
       = Some (session_value awkward_session).
Proof.
  refine (exported_file_holds_the_session awkward_session _).
  vm_compute. reflexivity.
Defined.

(* ===================================================================== *)
(** ** More on the stream consumer *)
(* ===================================================================== *)

Import Notices Wire.

Lemma finish_done (s : state) (v : value) :
  finish s = Some v ->
  stack s = []
  /\ (mode_of s = MDone v
      \/ exists lexr n, mode_of s = MNum lexr n /\ num_final n = true
                        /\ v = JNum (rev lexr)).
Proof.
  destruct s as [st m]. unfold finish. cbn [mode_of stack].
  destruct m; try discriminate.
  - destruct st; [|discriminate]. intros [= ->]. split; [reflexivity|now left].
  - destruct st; [|discriminate]. destruct (num_final n) eqn:E;
      [|discriminate].
    intros [= <-]. split; [reflexivity|]. right. now exists lex_rev, n.
Qed.

(** White space after a document changes nothing. *)
Lemma run_trailing_ws (t : jsstring) :
  forallb is_ws t = true ->
  forall s v, finish s = Some v ->
  exists s', Json.run s t = Some s' /\ finish s' = Some v.
Proof.
  induction t as [|c t IH]; intros Ht s v Hf; [now exists s|].
  cbn [forallb] in Ht. apply andb_true_iff in Ht as [Hc Ht].
  destruct s as [st m]. destruct (finish_done _ _ Hf) as [Hst Hm].
  cbn [stack mode_of] in Hst, Hm. subst st.
  assert (E : Json.step {| stack := []; mode_of := m |} c
              = Some {| stack := []; mode_of := MDone v |}).
  { destruct Hm as [->|(lexr & n & -> & Hn & ->)].
    - cbn [Json.step mode_of stack step_after]. now rewrite Hc.
    - cbn [Json.step mode_of stack].
      rewrite (num_next_delimiter n c), Hn;
        [|unfold delimiter; now rewrite Hc].
      cbn [complete stack mode_of step_after]. now rewrite Hc. }
  cbn [Json.run]. rewrite E. now apply IH.
Qed.

Lemma parse_trailing_ws (t ws : jsstring) (v : value) :
  forallb is_ws ws = true ->
  Json.parse t = Some v -> Json.parse (t ++ ws) = Some v.
Proof.
  unfold Json.parse. intros Hw H. rewrite run_app.
  destruct (Json.run initial t) as [s|]; [|discriminate].
  destruct (run_trailing_ws ws Hw s v H) as (s' & -> & Hf). exact Hf.
Qed.

Lemma not_done_with_cr (l : jsstring) :
  str_eqb (l ++ [13%N]) (lit "data: [DONE]") = false.
Proof.
  destruct (str_eqb (l ++ [13%N]) (lit "data: [DONE]")) eqn:E;
    [|reflexivity].
  apply str_eqb_eq in E.
  change (lit "data: [DONE]") with (lit "data: [DONE" ++ [93%N]) in E.
  apply app_inj_tail in E as [_ E]. discriminate E.
Qed.

(** The text of a quoted string holds no line feed. *)
Lemma quote_units_no_lf (n : nat) :
  forall s, List.length s <= n ->
            forallb (fun c => negb (N.eqb c 10)) (quote_units s) = true.
Proof.
  assert (Hh : forall k, negb (N.eqb (hex_lower k) 10) = true).
  { intros k. unfold hex_lower. apply negb_true_iff, N.eqb_neq.
    destruct (k <? 10)%N; lia. }
  assert (Hu : forall c r,
             forallb (fun c => negb (N.eqb c 10)) r = true ->
             forallb (fun c => negb (N.eqb c 10)) (unicode_escape c ++ r)
             = true).
  { intros c r Hr. unfold unicode_escape. cbn [app forallb].
    rewrite !Hh, Hr. reflexivity. }
  induction n as [|n IH]; intros s Hn.
  - destruct s; [reflexivity|cbn in Hn; lia].
  - destruct s as [|c s]; [reflexivity|]. cbn [List.length] in Hn.
    assert (Hs : forallb (fun c => negb (N.eqb c 10)) (quote_units s) = true)
      by (apply IH; lia).
    cbn [quote_units].
    repeat match goal with
           | |- context [if (c =? ?k)%N then _ else _] =>
               destruct (c =? k)%N eqn:?; [cbn [forallb]; now rewrite Hs|]
           end.
    destruct (c <? 32)%N; [now apply Hu|].
    destruct (Uri.is_lead c).
    + destruct s as [|d s]; [now apply (Hu c [])|].
      destruct (Uri.is_trail d) eqn:Ed; [|now apply Hu].
      cbn [forallb]. cbn [List.length] in Hn.
      rewrite (IH s) by lia.
      assert (c <> 10%N) by (intros ->; discriminate).
      assert (d <> 10%N) by (intros ->; discriminate).
      rewrite (proj2 (N.eqb_neq c 10)), (proj2 (N.eqb_neq d 10)) by assumption.
      reflexivity.
    + destruct (Uri.is_trail c); [now apply Hu|].
      cbn [forallb]. rewrite Hs.
      assert (c <> 10%N) by (intros ->; discriminate).
      now rewrite (proj2 (N.eqb_neq c 10)).
Qed.

Lemma delta_record_text (f : jsstring) :
  delta_record f
  = lit "data: " ++ qlit "{'choices':[{'delta':{'content':"
    ++ quote f ++ lit "}}]}".
Proof.
  unfold delta_record, delta_value.
  cbn [stringify newline colon join map fst snd].
  generalize (quote f) as q. intros q.
  apply (f_equal (app (lit "data: "))).
  change (quote (lit "choices")) with (qlit "'choices'").
  change (quote (lit "delta")) with (qlit "'delta'").
  change (quote (lit "content")) with (qlit "'content'").
  repeat (progress (rewrite <- ?app_assoc; cbn [app])). reflexivity.
Qed.

Lemma delta_record_no_lf (f : jsstring) :
  forallb (fun c => negb (N.eqb c 10)) (delta_record f) = true.
Proof.
  rewrite delta_record_text. unfold quote.
  pose proof (quote_units_no_lf (List.length f) f (le_n _)) as H.
  repeat (rewrite forallb_app; cbn [forallb]).
  repeat (apply andb_true_iff; split); try reflexivity. exact H.
Qed.

Lemma printable_delta_value (f : jsstring) : printable (delta_value f).
Proof. cbn. tauto. Qed.

(** The lines of a chunk of whole events: each record, and the empty line
    after it, and the empty text after the last line feed. *)
Lemma split_chunk_of (g : list jsstring) :
  split 10%N (chunk_of g)
  = flat_map (fun f => [delta_record f; []]) g ++ [[]].
Proof.
  induction g as [|f g IH]; [reflexivity|].
  unfold chunk_of in *. cbn [map List.concat flat_map].
  unfold event at 1. rewrite <- !app_assoc.
  change ([10%N; 10%N] ++ ?r) with (10%N :: [] ++ 10%N :: r).
  rewrite !split_app_sep, IH, (split_no_sep _ _ (delta_record_no_lf f)).
  reflexivity.
Qed.


Section StreamMore.
Context {ops : NumberOps}.

(** X18.  Records that end with a carriage return are read all the same:
    a record whose payload parses is handled in the same way with a
    carriage return at its end (as when the stream ends its lines with CR
    LF), the white space after a JSON text being ignored.  The terminator
    is not: with a carriage return it is no longer the terminator, its
    payload does not parse, and an error is logged. *)
Theorem carriage_return_is_tolerated (st : consumer) (line : jsstring)
  (data : value) :
  startsWith (lit "data: ") line = true ->
  Json.parse (slice 6 line) = Some data ->
  handle_line st (line ++ [13%N]) = handle_line st line
  /\ handle_line st (lit "data: [DONE]" ++ [13%N]) = log_error st.
Proof.
  intros Hs Hp. split; [|reflexivity].
  apply startsWith_inv in Hs as (p & ->).
  change (slice 6 (lit "data: " ++ p)) with p in Hp.
  unfold handle_line. rewrite <- app_assoc, !startsWith_app.
  rewrite app_assoc, not_done_with_cr, <- app_assoc.
  change (slice 6 (lit "data: " ++ p ++ [13%N])) with (p ++ [13%N]).
  change (slice 6 (lit "data: " ++ p)) with p.
  rewrite (parse_trailing_ws p [13%N] data eq_refl Hp), Hp.
  destruct (str_eqb (lit "data: " ++ p) (lit "data: [DONE]")) eqn:E;
    [|reflexivity].
  apply str_eqb_eq in E.
  change (lit "data: [DONE]") with (lit "data: " ++ lit "[DONE]") in E.
  apply app_inv_head in E. subst p. discriminate Hp.
Qed.

Lemma handle_line_outcome (st : consumer) (line : jsstring) :
  handle_line st line
  = match line_outcome line with
    | Some (Append f) => append f st
    | Some Throw => log_error st
    | _ => st
    end.
Proof.
  unfold handle_line, line_outcome.
  destruct (startsWith (lit "data: ") line
            && negb (str_eqb line (lit "data: [DONE]"))); [|reflexivity].
  destruct (Json.parse (slice 6 line)); reflexivity.
Qed.

Lemma fold_handle_line (lines : list jsstring) :
  forall st,
    let st' := fold_left handle_line lines st in
    botResponse st' = botResponse st ++ List.concat (appended lines)
    /\ renders st'
       = renders st ++ running (botResponse st) (appended lines)
    /\ logged st' = logged st + thrown lines.
Proof.
  induction lines as [|l lines IH]; intros st; cbv zeta.
  - cbn. rewrite !app_nil_r. repeat split. lia.
  - cbn [fold_left]. specialize (IH (handle_line st l)). cbv zeta in IH.
    destruct IH as (H1 & H2 & H3). rewrite H1, H2, H3.
    rewrite handle_line_outcome. unfold appended, thrown.
    cbn [flat_map filter].
    destruct (line_outcome l) as [[ | |f]|]; cbn [app List.concat running
      botResponse renders logged log_error append List.length];
      rewrite ?app_nil_r, <- ?app_assoc; repeat split; try lia.
Qed.

Lemma line_outcome_record (f : jsstring) :
  line_outcome (delta_record f)
  = Some (if nonempty f then Append f else Skip).
Proof.
  unfold line_outcome.
  change (startsWith (lit "data: ") (delta_record f)) with true.
  change (slice 6 (delta_record f))
    with (stringify [] [] (delta_value f)).
  rewrite (parse_stringify [] eq_refl _ (printable_delta_value f)).
  replace (str_eqb (delta_record f) (lit "data: [DONE]")) with false.
  - cbn [andb negb]. now destruct f.
  - symmetry. rewrite delta_record_text. reflexivity.
Qed.

Lemma appended_app (a b : list jsstring) :
  appended (a ++ b) = appended a ++ appended b.
Proof. apply flat_map_app. Qed.

Lemma thrown_app (a b : list jsstring) :
  thrown (a ++ b) = thrown a + thrown b.
Proof. unfold thrown. now rewrite filter_app, length_app. Qed.

Lemma lines_of_app (a b : list jsstring) :
  lines_of (a ++ b) = lines_of a ++ lines_of b.
Proof. apply flat_map_app. Qed.

Lemma chunk_of_lines (g : list jsstring) :
  appended (split 10%N (chunk_of g)) = filter nonempty g
  /\ thrown (split 10%N (chunk_of g)) = 0.
Proof.
  rewrite split_chunk_of, appended_app, thrown_app.
  change (appended [[]]) with (@nil jsstring).
  change (thrown [[]]) with 0. rewrite app_nil_r, Nat.add_0_r.
  induction g as [|f g [IH1 IH2]]; [now split|].
  cbn [flat_map].
  change ([delta_record f; []] ++ ?r) with ([delta_record f] ++ [[]] ++ r).
  rewrite !appended_app, !thrown_app, IH1, IH2.
  unfold appended at 1, thrown at 1. cbn [flat_map filter].
  rewrite line_outcome_record.
  change (appended [[]]) with (@nil jsstring).
  change (thrown [[]]) with 0. cbn [filter].
  destruct (nonempty f); now split.
Qed.

Lemma concat_filter_nonempty (l : list jsstring) :
  List.concat (filter nonempty l) = List.concat l.
Proof.
  induction l as [|[|c f] l IH]; [reflexivity|exact IH|].
  cbn [filter nonempty List.concat]. now rewrite IH.
Qed.

(** X22.  A stream of whole events is reassembled.  When each record is
    the JSON text of a fragment of the reply, with its quotation marks,
    line feeds, control characters and surrogates escaped as a JSON
    encoder escapes them, and each transport chunk holds any number of
    whole events, the response at the end is the fragments put back
    together, whatever code units they hold; the renderer was handed the
    text accumulated at each fragment that is not empty, and nothing is
    logged. *)
Theorem whole_events_are_reassembled (groups : list (list jsstring)) :
  let st := consume Stream.start (map chunk_of groups ++ [done_event]) in
  botResponse st = List.concat (List.concat groups)
  /\ renders st = running [] (filter nonempty (List.concat groups))
  /\ logged st = 0.
Proof.
  cbv zeta. rewrite consume_lines.
  destruct (fold_handle_line
              (lines_of (map chunk_of groups ++ [done_event])) Stream.start)
    as (H1 & H2 & H3).
  cbn [botResponse renders logged Stream.start app Nat.add] in H1, H2, H3.
  rewrite H1, H2, H3. clear H1 H2 H3.
  rewrite lines_of_app, appended_app, thrown_app.
  change (appended (lines_of [done_event])) with (@nil jsstring).
  change (thrown (lines_of [done_event])) with 0.
  rewrite app_nil_r, Nat.add_0_r.
  assert (H : appended (lines_of (map chunk_of groups))
              = filter nonempty (List.concat groups)
              /\ thrown (lines_of (map chunk_of groups)) = 0).
  { induction groups as [|g groups [IH1 IH2]]; [now split|].
    cbn [map List.concat].
    change (lines_of (chunk_of g :: ?r))
      with (split 10%N (chunk_of g) ++ lines_of r).
    rewrite appended_app, thrown_app, filter_app, IH1, IH2.
    destruct (chunk_of_lines g) as [-> ->]. now split. }
  destruct H as [-> ->]. rewrite concat_filter_nonempty. now repeat split.
Qed.

Lemma number_no_lf (l : jsstring) :
  number_ok l = true -> forallb (fun c => negb (N.eqb c 10)) l = true.
Proof.
  assert (R : forall t n, num_run n t <> None ->
                forallb (fun c => negb (N.eqb c 10)) t = true).
  { induction t as [|c t IH]; intros n H; [reflexivity|].
    cbn [num_run] in H. cbn [forallb].
    destruct (N.eqb c 10) eqn:E.
    - apply N.eqb_eq in E. subst c.
      rewrite (num_next_delimiter n 10%N eq_refl) in H. now elim H.
    - destruct (num_next n c) as [n'|]; [|now elim H].
      cbn [negb andb]. now apply (IH n'). }
  destruct l as [|c t]; [discriminate|]. unfold number_ok.
  destruct (num_start c) as [n|] eqn:Es; [|discriminate].
  destruct (num_run n t) as [n'|] eqn:Er; [|discriminate]. intros _.
  cbn [forallb]. rewrite (R t n) by (rewrite Er; discriminate).
  destruct (N.eqb c 10) eqn:E; [|reflexivity].
  apply N.eqb_eq in E. subst c. discriminate Es.
Qed.

Lemma join_no_lf (sep : jsstring) (parts : list jsstring) :
  forallb (fun c => negb (N.eqb c 10)) sep = true ->
  Forall (fun p => forallb (fun c => negb (N.eqb c 10)) p = true) parts ->
  forallb (fun c => negb (N.eqb c 10)) (join sep parts) = true.
Proof.
  intros Hs. induction parts as [|p ps IH]; intros H; [reflexivity|].
  inversion H as [|? ? Hp Hps]; subst. destruct ps as [|p' ps]; [exact Hp|].
  change (join sep (p :: p' :: ps)) with (p ++ sep ++ join sep (p' :: ps)).
  rewrite !forallb_app. apply andb_true_iff. split; [exact Hp|].
  apply andb_true_iff. split; [exact Hs|exact (IH Hps)].
Qed.

Lemma quote_no_lf (s : jsstring) :
  forallb (fun c => negb (N.eqb c 10)) (quote s) = true.
Proof.
  unfold quote. cbn [forallb]. apply andb_true_iff. split; [reflexivity|].
  rewrite forallb_app. apply andb_true_iff. split; [|reflexivity].
  exact (quote_units_no_lf (List.length s) s (le_n _)).
Qed.

(** Without a gap, the text of a value is one line. *)
Lemma stringify_no_lf (v : value) :
  forallb number_ok (numbers v) = true ->
  forall indent,
    forallb (fun c => negb (N.eqb c 10)) (stringify [] indent v) = true.
Proof.
  induction v as [ |b|l|s|items IHi|ms IHm] using value_induction;
    intros Hn indent.
  - reflexivity.
  - now destruct b.
  - cbn [numbers forallb] in Hn. apply andb_true_iff in Hn as [Hn _].
    now apply number_no_lf.
  - apply quote_no_lf.
  - destruct items as [|x items]; [reflexivity|].
    cbn [stringify newline app]. cbn [forallb].
    apply andb_true_iff. split; [reflexivity|]. rewrite forallb_app.
    apply andb_true_iff. split; [|reflexivity].
    apply join_no_lf; [reflexivity|].
    apply Forall_map. rewrite Forall_forall in *. intros y Hy.
    apply (IHi y Hy). cbn [numbers] in Hn.
    rewrite forallb_forall in *. intros n Hin. apply Hn.
    apply in_flat_map. now exists y.
  - destruct ms as [|kv ms]; [reflexivity|].
    cbn [stringify newline app]. cbn [forallb].
    apply andb_true_iff. split; [reflexivity|]. rewrite forallb_app.
    apply andb_true_iff. split; [|reflexivity].
    apply join_no_lf; [reflexivity|].
    apply Forall_map. rewrite Forall_forall in *. intros y Hy.
    rewrite !forallb_app. apply andb_true_iff. split; [apply quote_no_lf|].
    apply andb_true_iff. split; [reflexivity|].
    apply (IHm y Hy). cbn [numbers] in Hn.
    rewrite forallb_forall in *. intros n Hin. apply Hn.
    apply in_flat_map. now exists y.
Qed.

Lemma printable_numbers (v : value) :
  forallb number_ok (numbers v) = true -> printable v.
Proof.
  induction v as [ |b|l|s|items IHi|ms IHm] using value_induction;
    intros Hn; try exact I.
  - cbn [numbers forallb] in Hn. now apply andb_true_iff in Hn as [Hn _].
  - apply printable_items. rewrite Forall_forall in *. intros y Hy.
    apply (IHi y Hy). cbn [numbers] in Hn.
    rewrite forallb_forall in *. intros n Hin. apply Hn.
    apply in_flat_map. now exists y.
  - apply printable_members. rewrite Forall_forall in *. intros y Hy.
    apply (IHm y Hy). cbn [numbers] in Hn.
    rewrite forallb_forall in *. intros n Hin. apply Hn.
    apply in_flat_map. now exists y.
Qed.

Lemma record_line_no_lf (r : record) :
  admissible r = true ->
  forallb (fun c => negb (N.eqb c 10)) (record_line r) = true.
Proof.
  destruct r as [v|p]; cbn [admissible record_line]; intros H;
    apply andb_true_iff in H as [H _]; rewrite forallb_app;
    apply andb_true_iff; (split; [reflexivity|]).
  - now apply stringify_no_lf.
  - exact H.
Qed.

(** The lines of a chunk of whole events. *)
Lemma split_chunk_of_records (g : list record) :
  forallb admissible g = true ->
  split 10%N (chunk_of_records g)
  = flat_map (fun r => [record_line r; []]) g ++ [[]].
Proof.
  induction g as [|r g IH]; intros H; [reflexivity|].
  cbn [forallb] in H. apply andb_true_iff in H as [Hr Hg].
  unfold chunk_of_records in *. cbn [map List.concat flat_map].
  rewrite <- !app_assoc.
  change ([10%N; 10%N] ++ ?x) with (10%N :: [] ++ 10%N :: x).
  rewrite !split_app_sep, (IH Hg), (split_no_sep _ _ (record_line_no_lf r Hr)).
  reflexivity.
Qed.

(** The consumer reads of a record of the API the fragment the API puts
    in it. *)
Lemma delta_step_content (v : value) (f : jsstring) :
  content_of v = Some f ->
  delta_step v = if nonempty f then Append f else Skip.
Proof.
  destruct v as [ | | | | |ms]; try discriminate.
  unfold content_of, delta_step. cbn [get].
  destruct (lookup (lit "choices") ms) as [c|]; [|now intros [= <-]].
  destruct c as [ | | | |items| ]; try discriminate; [now intros [= <-]|].
  destruct items as [|x items]; [discriminate|].
  destruct x as [ | | | | |cs]; try discriminate.
  cbn [truthy negb get str_eqb N.eqb lit].
  change (str_eqb (lit "0") (lit "0")) with true. cbv iota. cbn [get].
  destruct (lookup (lit "delta") cs) as [d|]; [|now intros [= <-]].
  destruct d as [ | | | | |ds]; try discriminate; [now intros [= <-]|].
  cbn [truthy negb get].
  destruct (lookup (lit "content") ds) as [x|]; [|now intros [= <-]].
  destruct x as [ | | |s| | ]; try discriminate; [now intros [= <-]|].
  intros [= <-]. cbn [truthy]. destruct (nonempty s); reflexivity.
Qed.

(** What the line of a record does. *)
Lemma line_outcome_of_record (r : record) :
  admissible r = true ->
  line_outcome (record_line r)
  = Some (match r with
          | Data _ => if nonempty (fragment r) then Append (fragment r)
                      else Skip
          | Garbage _ => Throw
          end).
Proof.
  destruct r as [v|p]; cbn [admissible record_line fragment]; intros H.
  - apply andb_true_iff in H as [Hn Hc].
    destruct (content_of v) as [f|] eqn:Ec; [|discriminate].
    unfold line_outcome. rewrite startsWith_app.
    change (slice 6 (lit "data: " ++ stringify [] [] v))
      with (stringify [] [] v).
    rewrite (parse_stringify [] eq_refl v (printable_numbers v Hn)).
    rewrite (delta_step_content v f Ec).
    replace (str_eqb (lit "data: " ++ stringify [] [] v)
               (lit "data: [DONE]")) with false; [reflexivity|].
    symmetry. destruct v as [ | | | | |ms]; try discriminate Ec.
    now destruct ms.
  - apply andb_true_iff in H as [_ H]. unfold malformed in H.
    unfold line_outcome.
    apply andb_true_iff in H as [-> H].
    now destruct (parse (slice 6 (lit "data: " ++ p))).
Qed.

Lemma records_lines (g : list record) :
  forallb admissible g = true ->
  appended (split 10%N (chunk_of_records g))
  = filter nonempty (map fragment g)
  /\ thrown (split 10%N (chunk_of_records g))
     = List.length (filter is_garbage g).
Proof.
  intros H. rewrite (split_chunk_of_records g H), appended_app, thrown_app.
  change (appended [[]]) with (@nil jsstring).
  change (thrown [[]]) with 0. rewrite app_nil_r, Nat.add_0_r.
  induction g as [|r g IH]; [now split|].
  cbn [forallb] in H. apply andb_true_iff in H as [Hr Hg].
  destruct (IH Hg) as [IH1 IH2].
  cbn [flat_map].
  change ([record_line r; []] ++ ?x) with ([record_line r] ++ [[]] ++ x).
  rewrite !appended_app, !thrown_app, IH1, IH2.
  unfold appended at 1, thrown at 1. cbn [flat_map filter].
  rewrite (line_outcome_of_record r Hr).
  change (appended [[]]) with (@nil jsstring).
  change (thrown [[]]) with 0.
  destruct r as [v|p]; cbn [map filter is_garbage List.length app Nat.add].
  - destruct (nonempty (fragment (Data v))); now split.
  - cbn [fragment nonempty]. now split.
Qed.

(** C4: a record that fails to parse as JSON is logged and skipped, and
    the stream goes on.  Take any sequence of records, each one either a
    well-formed record (the text a JSON encoder makes of a value that has
    the shape of the API's records, whatever its other members and the
    code units of its strings) or a malformed one (a one-line payload
    that is no JSON text), delivered as whole events in any number of
    chunks.  The response at the end is what it was at the start followed
    by the delta fragments of the well-formed records (the string at
    [choices[0].delta.content] of each value), in arrival order, and by
    nothing else; the renderer was handed the text accumulated at each
    fragment that is not empty; and each malformed record added one to
    the error log and nothing more.  In general a malformed line only adds
    one to the error log, wherever it stands among other lines. *)
Theorem malformed_records_are_skipped (st : consumer)
  (groups : list (list record)) :
  forallb (forallb admissible) groups = true ->
  let records := List.concat groups in
  let st' := consume st (map chunk_of_records groups) in
  botResponse st' = botResponse st ++ List.concat (map fragment records)
  /\ renders st'
     = renders st
       ++ running (botResponse st) (filter nonempty (map fragment records))
  /\ logged st' = logged st + List.length (filter is_garbage records)
  /\ (forall (st0 : consumer) (bad : jsstring),
         malformed bad = true -> handle_line st0 bad = log_error st0)
  /\ (forall (lines1 lines2 : list jsstring) (bad : jsstring),
         malformed bad = true ->
         fold_left handle_line (lines1 ++ bad :: lines2) st
         = log_error (fold_left handle_line (lines1 ++ lines2) st)).
Proof.
  intros H. cbv zeta.
  assert (G : appended (lines_of (map chunk_of_records groups))
              = filter nonempty (map fragment (List.concat groups))
              /\ thrown (lines_of (map chunk_of_records groups))
                 = List.length (filter is_garbage (List.concat groups))).
  { induction groups as [|g groups IH]; [now split|].
    cbn [forallb] in H. apply andb_true_iff in H as [Hg H].
    destruct (IH H) as [IH1 IH2]. cbn [map List.concat].
    change (lines_of (chunk_of_records g :: ?x))
      with (split 10%N (chunk_of_records g) ++ lines_of x).
    destruct (records_lines g Hg) as [E1 E2].
    rewrite appended_app, thrown_app, map_app, !filter_app, length_app,
      IH1, IH2, E1, E2.
    now split. }
  destruct G as [G1 G2].
  rewrite consume_lines.
  destruct (fold_handle_line (lines_of (map chunk_of_records groups)) st)
    as (H1 & H2 & H3).
  rewrite H1, H2, H3, G1, G2, concat_filter_nonempty.
  split; [reflexivity|]. split; [reflexivity|]. split; [reflexivity|].
  split.
  - intros st0 bad. apply handle_line_malformed.
  - intros lines1 lines2 bad Hbad.
    rewrite !fold_left_app. cbn [fold_left].
    rewrite (handle_line_malformed _ _ Hbad).
    apply fold_handle_line_logged.
Qed.

End StreamMore.

Lemma malformed_records_are_skipped_witness :
  let records := List.concat interleaved in
  let st' := consume (ops := lexeme_ops) Stream.start
               (map chunk_of_records interleaved) in
  botResponse st'
  = botResponse Stream.start ++ List.concat (map fragment records)
  /\ renders st'
     = renders Stream.start
       ++ running (botResponse Stream.start)
            (filter nonempty (map fragment records))
  /\ logged st'
     = logged Stream.start + List.length (filter is_garbage records)
  /\ (forall (st0 : consumer) (bad : jsstring),
         malformed bad = true ->
         handle_line (ops := lexeme_ops) st0 bad = log_error st0)
  /\ (forall (lines1 lines2 : list jsstring) (bad : jsstring),
         malformed bad = true ->
         fold_left (handle_line (ops := lexeme_ops))
           (lines1 ++ bad :: lines2) Stream.start
         = log_error
             (fold_left (handle_line (ops := lexeme_ops))
                (lines1 ++ lines2) Stream.start)).
Proof.
  refine (malformed_records_are_skipped (ops := lexeme_ops) Stream.start
            interleaved _).
  vm_compute. reflexivity.
Defined.

(** The spec's test, run: the malformed record between the two valid
    ones is logged, and the two fragments are accumulated. *)
Lemma malformed_record_example :
  chunk_of_records [Data (delta_value (lit "lo")); Data stop_record]
  = qlit "data: {'choices':[{'delta':{'content':'lo'}}]}" ++ [10%N; 10%N]
    ++ qlit "data: {'choices':[{'index':0,'delta':{},'finish_reason':'stop'}]}"
    ++ [10%N; 10%N]
  /\ consume (ops := lexeme_ops) Stream.start
       (map chunk_of_records interleaved)
     = {| botResponse := lit "Hello";
          renders := [lit "Hel"; lit "Hello"];
          logged := 1 |}.
Proof. split; vm_compute; reflexivity. Qed.

Lemma carriage_return_is_tolerated_witness :
  handle_line (ops := lexeme_ops) Stream.start
    (qlit "data: {'choices':[{'delta':{'content':'Hel'}}]}" ++ [13%N])
  = handle_line (ops := lexeme_ops) Stream.start
      (qlit "data: {'choices':[{'delta':{'content':'Hel'}}]}")
  /\ handle_line (ops := lexeme_ops) Stream.start
       (lit "data: [DONE]" ++ [13%N])
     = log_error Stream.start.
Proof.
  refine (carriage_return_is_tolerated (ops := lexeme_ops) Stream.start
            (qlit "data: {'choices':[{'delta':{'content':'Hel'}}]}")
            (JObj [(lit "choices",
                    JArr [JObj [(lit "delta",
                                 JObj [(lit "content",
                                        JStr (lit "Hel"))])]])]) _ _);
    vm_compute; reflexivity.
Defined.
